(** * The R front end of the elastic-net path solver

    A shallow embedding of [glmnet], [elnet] and [fishnet] (R/glmnet.R and
    the Gaussian family wrapper), the R code that validates the arguments,
    prepares the call of the compiled path solver and packages what the
    solver returns.

    R values are modelled as follows.
    - A double is a [dbl]: a finite value, [+Inf], [-Inf] or a missing
      value ([NA]; R's [NaN] behaves like [NA] in every test made by this
      code and is folded into it).  Finite values are idealised as
      rationals: rounding and signed zeros are not modelled.
    - A logical is an [lgl], an optional boolean; [None] is R's logical NA.
    - A vector is a list, a matrix a list in column-major order together
      with its [dim] attribute.
    - A call either returns a value or signals an error ([Stop]); warnings,
      the process-wide control record and the [on.exit] slot of the running
      [glmnet] call are threaded through the monad [M]. *)

From Stdlib Require Import ZArith QArith Qpower Bool String List.
From Stdlib Require Import Lia Lqa Permutation Sorted PeanoNat.
From Stdlib Require Import DecimalString DecimalZ.
Import ListNotations.

Set Implicit Arguments.

(** ** Doubles and logicals *)

Module R.

Inductive dbl : Type :=
| Fin (q : Q)
| PInf
| NInf
| NA.

Definition lgl : Type := option bool.

Definition TRUE : lgl := Some true.
Definition FALSE : lgl := Some false.

Definition is_na (a : dbl) : bool :=
  match a with NA => true | _ => false end.

Definition is_finite (a : dbl) : bool :=
  match a with Fin _ => true | _ => false end.

Definition Qlt_bool (p q : Q) : bool := negb (Qle_bool q p).

(** [a < b] *)
Definition lt (a b : dbl) : lgl :=
  match a, b with
  | NA, _ | _, NA => None
  | Fin p, Fin q => Some (Qlt_bool p q)
  | PInf, _ => FALSE
  | _, NInf => FALSE
  | NInf, _ => TRUE
  | Fin _, PInf => TRUE
  end.

Definition gt (a b : dbl) : lgl := lt b a.

(** [a == b] *)
Definition eq (a b : dbl) : lgl :=
  match a, b with
  | NA, _ | _, NA => None
  | Fin p, Fin q => Some (Qeq_bool p q)
  | PInf, PInf => TRUE
  | NInf, NInf => TRUE
  | _, _ => FALSE
  end.

Definition lnot (a : lgl) : lgl := option_map negb a.

(** [a != b], [a >= b], [a <= b] *)
Definition ne (a b : dbl) : lgl := lnot (eq a b).
Definition ge (a b : dbl) : lgl := lnot (lt a b).
Definition le (a b : dbl) : lgl := lnot (lt b a).

Definition is_true (a : lgl) : bool :=
  match a with Some true => true | _ => false end.

Definition is_lna (a : lgl) : bool :=
  match a with None => true | _ => false end.

(** [any(v)] with R's three-valued logic. *)
Definition any (v : list lgl) : lgl :=
  if existsb is_true v then TRUE
  else if existsb is_lna v then None
  else FALSE.

(** *** Arithmetic *)

Definition zero : dbl := Fin 0.
Definition one : dbl := Fin 1.

Definition neg (a : dbl) : dbl :=
  match a with
  | Fin q => Fin (- q)
  | PInf => NInf
  | NInf => PInf
  | NA => NA
  end.

Definition add (a b : dbl) : dbl :=
  match a, b with
  | NA, _ | _, NA => NA
  | Fin p, Fin q => Fin (p + q)
  | PInf, NInf | NInf, PInf => NA
  | PInf, _ | _, PInf => PInf
  | NInf, _ | _, NInf => NInf
  end.

Definition sub (a b : dbl) : dbl := add a (neg b).

(** The sign of a finite value: [Gt], [Eq] or [Lt]. *)
Definition Qsign (q : Q) : comparison := (0 ?= q)%Q.

Definition inf_of (s : comparison) : dbl :=
  match s with Lt => PInf | Gt => NInf | Eq => NA end.

Definition sign_of (a : dbl) : option comparison :=
  match a with
  | Fin q => Some (Qsign q)
  | PInf => Some Lt
  | NInf => Some Gt
  | NA => None
  end.

Definition sign_mul (s t : comparison) : comparison :=
  match s, t with
  | Eq, _ | _, Eq => Eq
  | Lt, Lt | Gt, Gt => Lt
  | _, _ => Gt
  end.

Definition mul (a b : dbl) : dbl :=
  match a, b with
  | NA, _ | _, NA => NA
  | Fin p, Fin q => Fin (p * q)
  | _, _ =>
      match sign_of a, sign_of b with
      | Some s, Some t => inf_of (sign_mul s t)
      | _, _ => NA
      end
  end.

Definition div (a b : dbl) : dbl :=
  match a, b with
  | NA, _ | _, NA => NA
  | Fin p, Fin q =>
      if Qeq_bool q 0 then inf_of (Qsign p) else Fin (p / q)
  | Fin _, _ => zero
  | _, Fin q =>
      match sign_of a with
      | Some s => inf_of (sign_mul s (if Qeq_bool q 0 then Lt else Qsign q))
      | None => NA
      end
  | _, _ => NA
  end.

(** [a^2] *)
Definition sq (a : dbl) : dbl := mul a a.

(** ** Vectors *)

(** Element-wise binary operators recycle the shorter operand; an operand
    of length zero gives a result of length zero. *)
Definition vec2 {A B C : Type} (f : A -> B -> C)
    (xs : list A) (ys : list B) : list C :=
  match xs, ys with
  | x0 :: _, y0 :: _ =>
      map (fun i => f (nth (i mod length xs) xs x0)
                      (nth (i mod length ys) ys y0))
          (seq 0 (Nat.max (length xs) (length ys)))
  | _, _ => []
  end.

(** [sum(v)] *)
Definition sum (v : list dbl) : dbl := fold_left add v zero.

(** [rep(a, n)] *)
Definition rep {A : Type} (a : A) (n : Z) : list A := repeat a (Z.to_nat n).

(** [seq(n)]: R counts upwards from 1 to [n] when [n >= 1] and downwards
    from 1 to [n] otherwise, so [seq(0)] is the vector [c(1, 0)]. *)
Definition rseq (n : Z) : list Z :=
  if (1 <=? n)%Z then map Z.of_nat (seq 1 (Z.to_nat n))
  else map (fun k => (1 - Z.of_nat k)%Z) (seq 0 (Z.to_nat (2 - n))).

(** [v[idx]] for an integer index vector that holds a positive index (as
    every [seq(n)] does): a zero index selects nothing, an index past the
    end selects a missing value, and a negative index next to a positive
    one is an error ([None]). *)
Definition index {A : Type} (na : A) (v : list A) (idx : list Z)
    : option (list A) :=
  if existsb (fun i => (i <? 0)%Z) idx then None
  else Some (flat_map
               (fun i => if (i =? 0)%Z then []
                         else [nth (Z.to_nat (i - 1)) v na])
               idx).

(** [v[keep]] for a logical index of the same length as [v]. *)
Fixpoint mask {A : Type} (na : A) (v : list A) (keep : list lgl) : list A :=
  match v, keep with
  | a :: v', k :: keep' =>
      match k with
      | Some true => a :: mask na v' keep'
      | Some false => mask na v' keep'
      | None => na :: mask na v' keep'
      end
  | _, _ => []
  end.

End R.

Abbreviation dbl := R.dbl.
Abbreviation lgl := R.lgl.
Abbreviation Fin := R.Fin.
Abbreviation PInf := R.PInf.
Abbreviation NInf := R.NInf.
Abbreviation NA := R.NA.

(** ** The process-wide control record *)

(** Modelled from the spec: [glmnet.control] is not part of the sources at
    hand.  The spec describes it as a singleton record of process-wide
    settings that a call without arguments reads and a call with a named
    argument updates. *)
Record control : Type := {
  thresh : dbl;
  fdev : dbl;
  devmax : dbl;
  eps : dbl;
  big : dbl;
  mnlam : Z;
  pmin : dbl;
  exmx : dbl;
  mxit : Z;
  epsnr : dbl;
  itrace : Z
}.

(** Modelled from the spec: [glmnet.control(fdev=v)] and
    [glmnet.control(itrace=v)] update one setting. *)
Definition set_fdev (v : dbl) (c : control) : control :=
  {| thresh := thresh c; fdev := v; devmax := devmax c; eps := eps c; big := big c;
     mnlam := mnlam c; pmin := pmin c; exmx := exmx c; mxit := mxit c;
     epsnr := epsnr c; itrace := itrace c |}.

Definition set_itrace (v : Z) (c : control) : control :=
  {| thresh := thresh c; fdev := fdev c; devmax := devmax c; eps := eps c; big := big c;
     mnlam := mnlam c; pmin := pmin c; exmx := exmx c; mxit := mxit c;
     epsnr := epsnr c; itrace := v |}.

(** The expression registered by [on.exit]. *)
Inductive exit_action : Type :=
| ResetItrace                (* glmnet.control(itrace=0) *)
| RestoreFdev (v : dbl).     (* glmnet.control(fdev=fdev) *)

Definition run_exit_action (e : exit_action) (c : control) : control :=
  match e with
  | ResetItrace => set_itrace 0 c
  | RestoreFdev v => set_fdev v c
  end.

(** ** Calls: errors, warnings and state *)

Record world : Type := {
  ctl : control;                      (* the process-wide settings *)
  exit_hook : option exit_action;     (* the on.exit slot of the call *)
  warned : list string                (* warnings, oldest first *)
}.

Inductive outcome (A : Type) : Type :=
| Val (a : A)
| Stop (msg : string).

Arguments Val {A} a.
Arguments Stop {A} msg.

Definition M (A : Type) : Type := world -> outcome A * world.

Definition ret {A : Type} (a : A) : M A := fun w => (Val a, w).

Definition bind {A B : Type} (m : M A) (k : A -> M B) : M B :=
  fun w =>
    match m w with
    | (Val a, w') => k a w'
    | (Stop msg, w') => (Stop msg, w')
    end.

Declare Scope r_scope.
Delimit Scope r_scope with r.
Notation "x <- m ;; k" := (bind m (fun x => k))
  (at level 61, m at next level, right associativity) : r_scope.
Notation "m ;; k" := (bind m (fun _ => k))
  (at level 61, right associativity) : r_scope.
Open Scope r_scope.

(** [stop(msg)] and [warning(msg)] *)
Definition stop {A : Type} (msg : string) : M A := fun w => (Stop msg, w).

Definition warning (msg : string) : M unit :=
  fun w => (Val tt, {| ctl := ctl w; exit_hook := exit_hook w;
                       warned := warned w ++ [msg] |}).

(** Modelled from the spec: [glmnet.control()] reads the settings and
    [glmnet.control(name=value)] updates them. *)
Definition get_control : M control := fun w => (Val (ctl w), w).

Definition update_control (f : control -> control) : M unit :=
  fun w => (Val tt, {| ctl := f (ctl w); exit_hook := exit_hook w;
                       warned := warned w |}).

(** [on.exit(expr)]: with the default [add = FALSE] the expression
    replaces whatever was registered before. *)
Definition on_exit (e : exit_action) : M unit :=
  fun w => (Val tt, {| ctl := ctl w; exit_hook := Some e;
                       warned := warned w |}).

(** [if (cond)] on a logical of length one: a missing condition is an
    error. *)
Definition cond (c : lgl) : M bool :=
  match c with
  | Some b => ret b
  | None => stop "missing value where TRUE/FALSE needed"
  end.

(** [when c m]: [if (c) m] for a statement [m]. *)
Definition when (c : bool) (m : M unit) : M unit :=
  if c then m else ret tt.

(** Results of helpers that can warn or fail but have no access to the
    control record. *)
Definition Res (A : Type) : Type := list string * outcome A.

Definition lift {A : Type} (r : Res A) : M A :=
  fun w => (snd r, {| ctl := ctl w; exit_hook := exit_hook w;
                      warned := warned w ++ fst r |}).

(** Decimal rendering of an integer, as [paste] does. *)
Definition Zstr (z : Z) : string := NilZero.string_of_int (Z.to_int z).

(** ** More of base R *)

Module Base.

(** [pmatch(s, choices)]: an exact match wins, then a unique partial match;
    the empty string matches nothing. *)
Definition pmatch (s : string) (choices : list string) : option string :=
  if String.eqb s EmptyString then None
  else match filter (String.eqb s) choices with
       | c :: _ => Some c
       | [] => match filter (String.prefix s) choices with
               | [c] => Some c
               | _ => None
               end
       end.

(** [match.arg(arg)]: a missing argument is the vector of choices itself
    and selects the first one. *)
Definition match_arg (arg : option string) (choices : list string)
    : M string :=
  match arg with
  | None => ret (hd EmptyString choices)
  | Some s =>
      match pmatch s choices with
      | Some c => ret c
      | None => stop ("'arg' should be one of "
                        ++ String.concat ", " choices)
      end
  end.

(** Sorting by insertion, used for [sort] on vectors without missing
    values. *)
Section Sort.
Variable A : Type.
Variable leb : A -> A -> bool.

Fixpoint insert (a : A) (l : list A) : list A :=
  match l with
  | [] => [a]
  | b :: l' => if leb a b then a :: l else b :: insert a l'
  end.

Fixpoint isort (l : list A) : list A :=
  match l with
  | [] => []
  | a :: l' => insert a (isort l')
  end.
End Sort.

(** [unique(v)]: first occurrences, in order. *)
Section Unique.
Variable A : Type.
Variable eqb : A -> A -> bool.

Fixpoint unique_from (seen : list A) (l : list A) : list A :=
  match l with
  | [] => []
  | a :: l' =>
      if existsb (eqb a) seen then unique_from seen l'
      else a :: unique_from (a :: seen) l'
  end.

Definition unique (l : list A) : list A := unique_from [] l.
End Unique.

Definition dbl_leb (a b : dbl) : bool := negb (R.is_true (R.lt b a)).
Definition dbl_eqb (a b : dbl) : bool := R.is_true (R.eq a b).

(** [sort(v)] on doubles: missing values are removed, the rest ascends. *)
Definition sort (v : list dbl) : list dbl :=
  isort dbl_leb (filter (fun a => negb (R.is_na a)) v).

(** [length(v)] as an R integer. *)
Definition len {A : Type} (v : list A) : Z := Z.of_nat (List.length v).

(** [v[i] <- a] for one index inside the vector. *)
Fixpoint set_nth {A : Type} (n : nat) (a : A) (v : list A) : list A :=
  match v, n with
  | [], _ => []
  | _ :: v', O => a :: v'
  | b :: v', S n' => b :: set_nth n' a v'
  end.

End Base.

(** ** Matrices and the arguments of [glmnet] *)

(** An R numeric vector, matrix or array: the [dim] attribute ([None] for
    a plain vector) and the data in column-major order. *)
Record rarray : Type := {
  a_dim : option (list Z);
  a_data : list dbl
}.

Definition vector (v : list dbl) : rarray := {| a_dim := None; a_data := v |}.

Definition matrix (nr nc : Z) (v : list dbl) : rarray :=
  {| a_dim := Some [nr; nc]; a_data := v |}.

(** The design matrix: its values and what [inherits] and [colnames] say
    about it. *)
Record design : Type := {
  x_val : rarray;
  x_sparse : bool;                      (* inherits(x, "sparseMatrix") *)
  x_colnames : option (list string)
}.

Inductive family_arg : Type :=
| FamilyMissing                 (* the default vector of six names *)
| FamilyName (s : string)       (* a character string *)
| FamilyObject.                 (* not a character: a family object *)

Inductive family : Type :=
| gaussian | binomial | poisson | multinomial | cox | mgaussian.

Definition family_names : list string :=
  ["gaussian"; "binomial"; "poisson"; "multinomial"; "cox"; "mgaussian"]%string.

Definition family_of_name (s : string) : option family :=
  if String.eqb s "gaussian" then Some gaussian
  else if String.eqb s "binomial" then Some binomial
  else if String.eqb s "poisson" then Some poisson
  else if String.eqb s "multinomial" then Some multinomial
  else if String.eqb s "cox" then Some cox
  else if String.eqb s "mgaussian" then Some mgaussian
  else None.

Definition family_name (f : family) : string :=
  match f with
  | gaussian => "gaussian" | binomial => "binomial" | poisson => "poisson"
  | multinomial => "multinomial" | cox => "cox" | mgaussian => "mgaussian"
  end.

(** The arguments of [glmnet].  An argument with a default that refers to
    other arguments is optional here ([None]: not supplied) and the default
    is computed where the body first uses it. *)
Record glmnet_args : Type := {
  x : design;
  y : rarray;
  family_ : family_arg;
  weights : option (list dbl);
  offset : option rarray;
  alpha : dbl;
  nlambda : Z;
  lambda_min_ratio : option dbl;
  lambda : option (list dbl);
  standardize : bool;
  intercept : option bool;              (* None: missing, TRUE *)
  thresh_ : dbl;
  dfmax : option Z;
  pmax : option Z;
  exclude : option (list Z);            (* indices; not a function *)
  penalty_factor : option rarray;
  lower_limits : list dbl;
  upper_limits : list dbl;
  maxit : Z;
  type_gaussian : option string;
  type_logistic : option string;
  standardize_response : bool;
  type_multinomial : option string;
  relax : bool;
  trace_it : Z
}.

(** ** What the front end exchanges with the solver *)

(** The box constraints [cl = rbind(lower.limits, upper.limits)], a matrix
    with two rows, kept as its two rows. *)
Record limits : Type := {
  cl_lower : list dbl;
  cl_upper : list dbl
}.

(** The entries of [cl] in column-major order. *)
Definition cl_entries (c : limits) : list dbl :=
  flat_map (fun lu => [fst lu; snd lu]) (combine (cl_lower c) (cl_upper c)).

(** The arguments with which [glmnet] calls the function of the selected
    family ([elnet], [fishnet], [lognet], [coxnet] or [mrelnet]). *)
Record fam_call : Type := {
  c_x : design;
  c_is_sparse : bool;
  c_y : rarray;
  c_weights : list dbl;
  c_offset : option rarray;
  c_type_gaussian : option string;
  c_alpha : dbl;
  c_nobs : Z;
  c_nvars : Z;
  c_jd : list Z;
  c_vp : list dbl;
  c_mp : rarray;
  c_cl : limits;
  c_ne : Z;
  c_nx : Z;
  c_nlam : Z;
  c_flmin : dbl;
  c_ulam : list dbl;
  c_thresh : dbl;
  c_isd : Z;
  c_jsd : Z;
  c_intr : Z;
  c_vnames : list string;
  c_maxit : Z;
  c_kopt : Z;
  c_family : family;
  c_pb : option Z
}.

(** The inputs of a compiled path solver ([elnet_exp], [spelnet_exp],
    [fishnet_exp], [spfishnet_exp]).  [s_ka] is the computation mode of
    the Gaussian solvers, [s_offset] the offset of the Poisson solvers. *)
Record solver_in : Type := {
  s_ka : option Z;
  s_parm : dbl;
  s_x : design;
  s_y : rarray;
  s_offset : option rarray;
  s_w : list dbl;
  s_jd : list Z;
  s_vp : list dbl;
  s_mp : rarray;
  s_cl : limits;
  s_ne : Z;
  s_nx : Z;
  s_nlam : Z;
  s_flmin : dbl;
  s_ulam : list dbl;
  s_thresh : dbl;
  s_isd : Z;
  s_intr : Z;
  s_maxit : Z;
  s_pb : option Z
}.

(** What a compiled path solver hands back. *)
Record solver_out : Type := {
  lmu : Z;
  a0 : list dbl;
  ca : list (list dbl);
  ia : list Z;
  nin : list Z;
  o_nulldev : dbl;            (* Poisson solvers only *)
  rsq : list dbl;             (* [rsq], or [dev] for the Poisson solvers *)
  alm : list dbl;
  nlp : Z;
  jerr : Z
}.

(** The value of [jerr(n, maxit, pmax, family)]. *)
Record errmsg : Type := {
  fatal : bool;
  msg : string
}.

(** The coefficient part of a fit, as [getcoef] builds it. *)
Record coefob : Type := {
  co_a0 : list dbl;
  co_beta : list (list dbl);
  co_df : list Z;
  co_dim : Z * Z;
  co_lambda : list dbl
}.

(** The list a family function returns. *)
Record famfit : Type := {
  f_coef : coefob;
  dev_ratio : list dbl;
  nulldev : dbl;
  npasses : Z;
  f_jerr : Z;
  f_offset : bool;
  f_class : list string
}.

Definition set_lambda (l : list dbl) (f : famfit) : famfit :=
  {| f_coef := {| co_a0 := co_a0 (f_coef f); co_beta := co_beta (f_coef f);
                  co_df := co_df (f_coef f); co_dim := co_dim (f_coef f);
                  co_lambda := l |};
     dev_ratio := dev_ratio f; nulldev := nulldev f; npasses := npasses f;
     f_jerr := f_jerr f; f_offset := f_offset f; f_class := f_class f |}.

(** The value of [glmnet]: the family's list with [nobs] added. *)
Record glmnet_fit : Type := {
  g_fit : famfit;
  g_nobs : Z
}.

(** ** [glmnet]: the checks made for every family *)

(** [np = dim(x); if (is.null(np) | (np[2] <= 1)) stop(...)].  For an [x]
    without [dim] the condition has length zero, for a one-dimensional
    array [np[2]] is missing; [if] rejects both. *)
Definition check_dims (xa : design) : M (Z * Z) :=
  match a_dim (x_val xa) with
  | None => stop "argument is of length zero"
  | Some np =>
      match nth_error np 1 with
      | None => stop "missing value where TRUE/FALSE needed"
      | Some n2 =>
          if (n2 <=? 1)%Z
          then stop "x should be a matrix with 2 or more columns"
          else ret (nth 0 np 0%Z, n2)
      end
  end.

(** [as.factor(y)], [table(y)] and the indicator matrix
    [diag(nc)[as.numeric(y), ]]. *)
Definition factor_levels (v : list dbl) : list dbl :=
  Base.isort Base.dbl_leb
    (Base.unique Base.dbl_eqb (filter (fun a => negb (R.is_na a)) v)).

Definition tabulate (lv v : list dbl) : list Z :=
  map (fun l => Base.len (filter (Base.dbl_eqb l) v)) lv.

Fixpoint level_code (lv : list dbl) (k : Z) (a : dbl) : option Z :=
  match lv with
  | [] => None
  | l :: lv' => if Base.dbl_eqb l a then Some k else level_code lv' (k + 1) a
  end.

Definition indicator (nc : Z) (codes : list (option Z)) : rarray :=
  let data :=
    flat_map
      (fun j => map (fun c => match c with
                              | None => NA
                              | Some k => if (k =? j)%Z then R.one else R.zero
                              end) codes)
      (map Z.of_nat (seq 1 (Z.to_nat nc))) in
  if ((Base.len codes =? 1) || (nc =? 1))%Z
  then vector data
  else matrix (Base.len codes) nc data.

(** [min(ntab)]; [None] stands for the [Inf] that [min] returns, with a
    warning, on an empty table. *)
Definition table_min (t : list Z) : option Z :=
  match t with
  | [] => None
  | n :: t' => Some (fold_left Z.min t' n)
  end.

(** The response without [dim] is turned into a matrix of indicators,
    whatever the family; [nc] becomes the number of classes.  A response
    with [dim] is kept and [nc] is its [dim]. *)
Definition encode_response (ya : rarray) : M (rarray * list Z) :=
  match a_dim ya with
  | Some d => ret (ya, d)
  | None =>
      let lv := factor_levels (a_data ya) in
      let ntab := tabulate lv (a_data ya) in
      match table_min ntab with
      | None =>
          warning "no non-missing arguments to min; returning Inf" ;;
          ret (indicator 0 (map (level_code lv 1) (a_data ya)), [0%Z])
      | Some minclass =>
          if (minclass <=? 1)%Z
          then stop "one multinomial or binomial class has 1 or 0 observations; not allowed"
          else
            when (minclass <? 8)%Z
              (warning "one multinomial or binomial class has fewer than 8  observations; dangerous ground") ;;
            let nc := Base.len ntab in
            ret (indicator nc (map (level_code lv 1) (a_data ya)), [nc])
      end
  end.

(** [weights]: a vector of ones by default, else its length is checked. *)
Definition check_weights (w : option (list dbl)) (nobs : Z) : M (list dbl) :=
  match w with
  | None => ret (R.rep R.one nobs)
  | Some v =>
      if negb (Base.len v =? nobs)%Z
      then stop ("number of elements in weights (" ++ Zstr (Base.len v)
                 ++ ") not equal to the number of rows of x ("
                 ++ Zstr nobs ++ ")")
      else ret v
  end.

(** [penalty.factor], by default [matrix(1, nrow=nvars, ncol=nc)] ([matrix]
    reads the first element of [nc]), and the test
    [all(dim(penalty.factor) == c(nvars, nc))].  The comparison recycles;
    for a [penalty.factor] without [dim] it is empty and [all] is TRUE. *)
Definition default_penalty_factor (nvars : Z) (nc : list Z) : rarray :=
  let k := hd 0%Z nc in
  matrix nvars k (R.rep R.one (nvars * k)).

Definition check_penalty_factor (pf : option rarray) (nvars : Z) (nc : list Z)
    : M rarray :=
  let m := match pf with
           | Some m => m
           | None => default_penalty_factor nvars nc
           end in
  let same := match a_dim m with
              | None => []
              | Some d => R.vec2 Z.eqb d (nvars :: nc)
              end in
  if negb (forallb (fun b => b) same)
  then stop "penalty.factor must be of dimension (nvars x nc)"
  else ret m.

(** What the common checks establish. *)
Record entry : Type := {
  e_nobs : Z;
  e_nvars : Z;
  e_nc : list Z;
  e_y : rarray;
  e_weights : list dbl;
  e_penalty_factor : rarray
}.

Definition glmnet_entry (a : glmnet_args) : M entry :=
  np <- check_dims (x a) ;;
  let nobs := fst np in
  let nvars := snd np in
  ync <- encode_response (y a) ;;
  na <- cond (R.any (map (fun v => Some (R.is_na v)) (a_data (x_val (x a))))) ;;
  if (na : bool)
  then stop "x has missing values; consider using makeX() to impute them"
  else
    w <- check_weights (weights a) nobs ;;
    pf <- check_penalty_factor (penalty_factor a) nvars (snd ync) ;;
    ret {| e_nobs := nobs; e_nvars := nvars; e_nc := snd ync;
           e_y := fst ync; e_weights := w; e_penalty_factor := pf |}.

(** ** [glmnet]: preparing the call of a family function *)

(** [alpha] outside the unit interval is moved to the nearest end, with a
    warning. *)
Definition clamp_alpha (al : dbl) : M dbl :=
  above <- cond (R.gt al R.one) ;;
  al1 <- (if (above : bool)
          then warning "alpha >1; set to 1" ;; ret R.one
          else ret al) ;;
  below <- cond (R.lt al1 R.zero) ;;
  if (below : bool)
  then warning "alpha<0; set to 0" ;; ret R.zero
  else ret al1.

(** [drop(y)]: extents equal to one are deleted; what is left with at most
    one extent is a plain vector. *)
Definition drop (m : rarray) : rarray :=
  match a_dim m with
  | None => m
  | Some d =>
      let d' := filter (fun k => negb (k =? 1)%Z) d in
      if (List.length d' =? List.length d)%nat then m
      else if (List.length d' <=? 1)%nat then vector (a_data m)
      else {| a_dim := Some d'; a_data := a_data m |}
  end.

(** [nrowy = ifelse(is.null(dimy), length(y), dimy[1])] *)
Definition nrow_y (m : rarray) : Z :=
  match a_dim m with
  | None => Base.len (a_data m)
  | Some d => hd 0%Z d
  end.

Definition check_response_rows (ya : rarray) (nobs : Z) : M unit :=
  if negb (nrow_y ya =? nobs)%Z
  then stop ("number of observations in y (" ++ Zstr (nrow_y ya)
             ++ ") not equal to the number of rows of x ("
             ++ Zstr nobs ++ ")")
  else ret tt.

Definition variable_names (xa : design) (nvars : Z) : list string :=
  match x_colnames xa with
  | Some v => v
  | None => map (fun i => ("V" ++ Zstr i)%string) (R.rseq nvars)
  end.

(** [dfmax = nvars + 1] and [pmax = min(dfmax*2+20, nvars)] by default. *)
Definition resolve_dfmax (a : glmnet_args) (nvars : Z) : Z :=
  match dfmax a with Some d => d | None => (nvars + 1)%Z end.

Definition resolve_pmax (a : glmnet_args) (nvars : Z) : Z :=
  match pmax a with
  | Some p => p
  | None => Z.min (resolve_dfmax a nvars * 2 + 20) nvars
  end.

(** [seq(nvars)[penalty.factor == Inf]]: the logical index is recycled
    over [seq(nvars)] when shorter, and selects missing values where it is
    TRUE past the end or missing itself. *)
Definition which_inf (nvars : Z) (pf : list dbl) : list (option Z) :=
  let keep := map (fun v => R.eq v PInf) pf in
  flat_map
    (fun i =>
       match nth (i mod List.length keep) keep None with
       | Some true =>
           [if (Z.of_nat i <? nvars)%Z then Some (Z.of_nat i + 1)%Z else None]
       | Some false => []
       | None => [None]
       end)
    (seq 0 (Nat.max (Z.to_nat nvars) (List.length keep))).

Definition somes {A : Type} (l : list (option A)) : list A :=
  flat_map (fun o => match o with Some a => [a] | None => [] end) l.

(** [penalty.factor[jd] = 1]; an index past the end lengthens the data and
    the result loses its [dim]. *)
Definition assign_ones (jd : list Z) (m : rarray) : rarray :=
  let top := fold_left Z.max jd 0%Z in
  let put d := fold_left
                 (fun d j => Base.set_nth (Z.to_nat (j - 1)) R.one d) jd d in
  if (top <=? Base.len (a_data m))%Z
  then {| a_dim := a_dim m; a_data := put (a_data m) |}
  else vector (put (a_data m
                    ++ repeat NA (Z.to_nat (top - Base.len (a_data m))))).

(** The exclusion list [jd] and the penalty factors after it. *)
Definition exclude_step (ex : option (list Z)) (nvars : Z) (pf : rarray)
    : M (list Z * rarray) :=
  let ex0 := match ex with Some l => l | None => [] end in
  inf <- cond (R.any (map (fun v => R.eq v PInf) (a_data pf))) ;;
  let ex1 :=
    if (inf : bool)
    then Base.isort Z.leb
           (Base.unique Z.eqb (ex0 ++ somes (which_inf nvars (a_data pf))))
    else ex0 in
  if (0 <? Base.len ex1)%Z
  then
    let jd := map (fun e => if ((1 <=? e) && (e <=? nvars))%Z
                            then e else 0%Z) ex1 in
    if negb (forallb (fun j => (0 <? j)%Z) jd)
    then stop "Some excluded variables out of range"
    else ret (Base.len jd :: jd, assign_ones jd pf)
  else ret ([0%Z], pf).

(** [penalty.factor[, 1]] *)
Definition first_column (m : rarray) : M (list dbl) :=
  match a_dim m with
  | Some [nr; nc] =>
      if (nc <? 1)%Z then stop "subscript out of bounds"
      else ret (firstn (Z.to_nat nr) (a_data m))
  | _ => stop "incorrect number of dimensions"
  end.

(** Tracing: the process-wide [itrace] wins; otherwise a call with
    [trace.it] switches it on and registers its reset.  The value read
    from [glmnet.control()] here is the [internal.parms] of the rest of
    the body. *)
Definition trace_step (trace : Z) : M (control * Z) :=
  internal_parms <- get_control ;;
  if negb (itrace internal_parms =? 0)%Z then ret (internal_parms, 1%Z)
  else if negb (trace =? 0)%Z
       then update_control (set_itrace 1) ;;
            on_exit ResetItrace ;;
            ret (internal_parms, trace)
       else ret (internal_parms, trace).

(** One bound vector is brought to length [nvars]. *)
Definition to_length (what : string) (v : list dbl) (nvars : Z)
    : M (list dbl) :=
  if (Base.len v <? nvars)%Z
  then if (Base.len v =? 1)%Z then ret (R.rep (hd NA v) nvars)
       else stop ("Require length 1 or nvars " ++ what)
  else match R.index NA v (R.rseq nvars) with
       | Some v' => ret v'
       | None => stop "can't mix positive and negative subscripts"
       end.

(** [lower.limits[lower.limits == -Inf] = -big] and
    [upper.limits[upper.limits == Inf] = big], entry by entry. *)
Definition lower_bound (bigv v : dbl) : dbl :=
  if R.is_true (R.eq v NInf) then R.neg bigv else v.

Definition upper_bound (bigv v : dbl) : dbl :=
  if R.is_true (R.eq v PInf) then bigv else v.

Definition check_limits (lo up : list dbl) (bigv : dbl) (nvars : Z)
    : M limits :=
  pos <- cond (R.any (map (fun v => R.gt v R.zero) lo)) ;;
  if (pos : bool) then stop "Lower limits should be non-positive"
  else
    neg <- cond (R.any (map (fun v => R.lt v R.zero) up)) ;;
    if (neg : bool) then stop "Upper limits should be non-negative"
    else
      let lo1 := map (lower_bound bigv) lo in
      let up1 := map (upper_bound bigv) up in
      lo2 <- to_length "lower.limits" lo1 nvars ;;
      up2 <- to_length "upper.limits" up1 nvars ;;
      ret {| cl_lower := lo2; cl_upper := up2 |}.

(** A bound of zero switches the fractional-deviance stop off for the
    call. *)
Definition fdev_step (cl : limits) : M unit :=
  z <- cond (R.any (map (fun v => R.eq v R.zero) (cl_entries cl))) ;;
  if (z : bool)
  then
    c <- get_control ;;
    nz <- cond (R.ne (fdev c) R.zero) ;;
    when nz (update_control (set_fdev R.zero) ;;
             on_exit (RestoreFdev (fdev c)))
  else ret tt.

(** [lambda.min.ratio = ifelse(nobs < nvars, 1e-2, 1e-4)] by default. *)
Definition default_lambda_min_ratio (nobs nvars : Z) : dbl :=
  if (nobs <? nvars)%Z then Fin (1 # 100) else Fin (1 # 10000).

Definition resolve_lambda_min_ratio (a : glmnet_args) (nobs nvars : Z) : dbl :=
  match lambda_min_ratio a with
  | Some r => r
  | None => default_lambda_min_ratio nobs nvars
  end.

(** [flmin], [ulam] and [nlam]. *)
Definition lambda_step (a : glmnet_args) (nobs nvars nlam : Z)
    : M (dbl * list dbl * Z) :=
  match lambda a with
  | None =>
      let r := resolve_lambda_min_ratio a nobs nvars in
      toobig <- cond (R.ge r R.one) ;;
      if (toobig : bool) then stop "lambda.min.ratio should be less than 1"
      else ret (r, [R.zero], nlam)
  | Some l =>
      negative <- cond (R.any (map (fun v => R.lt v R.zero) l)) ;;
      if (negative : bool) then stop "lambdas should be non-negative"
      else ret (R.one, rev (Base.sort l), Base.len l)
  end.

(** [type.gaussian = ifelse(nvars < 500, "covariance", "naive")] by
    default. *)
Definition default_type_gaussian (nvars : Z) : string :=
  if (nvars <? 500)%Z then "covariance" else "naive".

Definition resolve_type_gaussian (a : glmnet_args) (nvars : Z) : string :=
  match type_gaussian a with
  | Some s => s
  | None => default_type_gaussian nvars
  end.

(** [kopt] from [type.logistic] and, for the multinomial family,
    [type.multinomial]. *)
Definition kopt_step (a : glmnet_args) (fam : family) : M Z :=
  tl <- Base.match_arg (type_logistic a) ["Newton"; "modified.Newton"]%string ;;
  let kopt := if String.eqb tl "Newton" then 0%Z else 1%Z in
  match fam with
  | multinomial =>
      tm <- Base.match_arg (type_multinomial a) ["ungrouped"; "grouped"]%string ;;
      ret (if String.eqb tm "grouped" then 2%Z else kopt)
  | _ => ret kopt
  end.

Definition Zb (b : bool) : Z := if b then 1%Z else 0%Z.

(** The body of [glmnet] between the dispatch on [family] and the call of
    the family function. *)
Definition glmnet_prepare (a : glmnet_args) (e : entry) (fam : family)
    : M fam_call :=
  let nobs := e_nobs e in
  let nvars := e_nvars e in
  al <- clamp_alpha (alpha a) ;;
  let nlam := nlambda a in
  let y1 := drop (e_y e) in
  check_response_rows y1 nobs ;;
  let vnames := variable_names (x a) nvars in
  let ne := resolve_dfmax a nvars in
  let nx := resolve_pmax a nvars in
  jp <- exclude_step (exclude a) nvars (e_penalty_factor e) ;;
  let mp := snd jp in
  vp <- first_column mp ;;
  pt <- trace_step (trace_it a) ;;
  let internal_parms := fst pt in
  let trace := snd pt in
  cl <- check_limits (lower_limits a) (upper_limits a)
          (big internal_parms) nvars ;;
  fdev_step cl ;;
  let isd := Zb (standardize a) in
  let intr := Zb (match intercept a with Some b => b | None => true end) in
  when (match intercept a, fam with Some _, cox => true | _, _ => false end)
    (warning "Cox model has no intercept") ;;
  let jsd := Zb (standardize_response a) in
  fl <- lambda_step a nobs nvars nlam ;;
  let flmin := fst (fst fl) in
  let ulam := snd (fst fl) in
  let nlam1 := snd fl in
  let is_sparse := x_sparse (x a) in
  let pb := if negb (trace =? 0)%Z then Some nlam1 else None in
  kopt <- kopt_step a fam ;;
  ret {| c_x := x a; c_is_sparse := is_sparse; c_y := y1;
         c_weights := e_weights e; c_offset := offset a;
         c_type_gaussian := Some (resolve_type_gaussian a nvars);
         c_alpha := al; c_nobs := nobs; c_nvars := nvars;
         c_jd := fst jp; c_vp := vp; c_mp := mp; c_cl := cl;
         c_ne := ne; c_nx := nx; c_nlam := nlam1; c_flmin := flmin;
         c_ulam := ulam; c_thresh := thresh_ a; c_isd := isd; c_jsd := jsd;
         c_intr := intr; c_vnames := vnames; c_maxit := maxit a;
         c_kopt := kopt; c_family := fam; c_pb := pb |}.

(** ** The family functions [elnet] and [fishnet] *)

(** [weighted.mean(x, w)] *)
Definition weighted_mean (xv w : list dbl) : M dbl :=
  if negb (Base.len w =? Base.len xv)%Z
  then stop "'x' and 'w' must have the same length"
  else ret (R.div
              (R.sum (R.mask NA (R.vec2 R.mul xv w)
                        (map (fun v => R.ne v R.zero) w)))
              (R.sum w)).

(** [ka = as.integer(switch(type.gaussian, covariance=1, naive=2))] after
    [match.arg]. *)
Definition gaussian_mode (tg : option string) : M Z :=
  s <- Base.match_arg tg ["covariance"; "naive"]%string ;;
  ret (if String.eqb s "covariance" then 1%Z else 2%Z).

(** [sum(weights * (y - ybar)^2)]; [ybar] has length one. *)
Definition null_deviance (w yv : list dbl) (ybar : dbl) : dbl :=
  R.sum (R.vec2 R.mul w (map (fun v => R.sq (R.sub v ybar)) yv)).

(** [y = y - offset] when [elnet] is given an offset. *)
Definition elnet_response (fc : fam_call) : rarray :=
  match c_offset fc with
  | None => c_y fc
  | Some o => {| a_dim := a_dim (c_y fc);
                 a_data := R.vec2 R.sub (a_data (c_y fc)) (a_data o) |}
  end.

Section Families.

(** The compiled solvers and the helpers [jerr] and [getcoef] are not
    among the sources at hand; they are parameters of the development. *)
Variables elnet_exp spelnet_exp fishnet_exp spfishnet_exp
  : solver_in -> solver_out.
Variable jerr_message : Z -> Z -> Z -> family -> errmsg.
Variable getcoef : solver_out -> Z -> Z -> list string -> Res coefob.

Definition solver_args (fc : fam_call) (ka : option Z) (yv : rarray)
    (off : option rarray) : solver_in :=
  {| s_ka := ka; s_parm := c_alpha fc; s_x := c_x fc; s_y := yv;
     s_offset := off; s_w := c_weights fc; s_jd := c_jd fc;
     s_vp := c_vp fc; s_mp := c_mp fc; s_cl := c_cl fc; s_ne := c_ne fc;
     s_nx := c_nx fc; s_nlam := c_nlam fc; s_flmin := c_flmin fc;
     s_ulam := c_ulam fc; s_thresh := c_thresh fc; s_isd := c_isd fc;
     s_intr := c_intr fc; s_maxit := c_maxit fc; s_pb := c_pb fc |}.

(** [elnet] up to the call of the solver: the mode, the offset, the null
    deviance and its test.  The value is the solver's input, [nulldev]
    and [is.offset]. *)
Definition elnet_setup (fc : fam_call) : M (solver_in * dbl * bool) :=
  ka <- gaussian_mode (c_type_gaussian fc) ;;
  let is_offset := match c_offset fc with None => false | Some _ => true end in
  let y1 := elnet_response fc in
  ybar <- (if negb (c_intr fc =? 0)%Z
           then weighted_mean (a_data y1) (c_weights fc)
           else ret R.zero) ;;
  let nulldev := null_deviance (c_weights fc) (a_data y1) ybar in
  const <- cond (R.eq nulldev R.zero) ;;
  if (const : bool)
  then stop "y is constant; gaussian glmnet fails at standardization step"
  else ret (solver_args fc (Some ka) y1 None, nulldev, is_offset).

(** [if (fit$jerr != 0) { errmsg = jerr(...); if (errmsg$fatal) stop(...)
    else warning(...) }] *)
Definition report_jerr (fit : solver_out) (maxit nx : Z) (fam : family)
    : M unit :=
  if negb (jerr fit =? 0)%Z
  then let e := jerr_message (jerr fit) maxit nx fam in
       if fatal e then stop (msg e) else warning (msg e)
  else ret tt.

(** [fit$rsq[seq(fit$lmu)]] *)
Definition first_lmu (v : list dbl) (n : Z) : M (list dbl) :=
  match R.index NA v (R.rseq n) with
  | Some v' => ret v'
  | None => stop "can't mix positive and negative subscripts"
  end.

(** [elnet] after the solver has returned. *)
Definition elnet_result (fc : fam_call) (nulldev : dbl) (is_offset : bool)
    (fit : solver_out) : M famfit :=
  report_jerr fit (c_maxit fc) (c_nx fc) gaussian ;;
  outlist <- lift (getcoef fit (c_nvars fc) (c_nx fc) (c_vnames fc)) ;;
  dev <- first_lmu (rsq fit) (lmu fit) ;;
  ret {| f_coef := outlist; dev_ratio := dev; nulldev := nulldev;
         npasses := nlp fit; f_jerr := jerr fit; f_offset := is_offset;
         f_class := ["elnet"%string] |}.

(** The sparse solver [spelnet_exp] takes [ka] as the dense one does; with
    [ka = 1] it is the sparse covariance path solver of
    sp_gaussian_cov.hpp. *)
Definition elnet (fc : fam_call) : M famfit :=
  s <- elnet_setup fc ;;
  let fit := if c_is_sparse fc then spelnet_exp (fst (fst s))
             else elnet_exp (fst (fst s)) in
  elnet_result fc (snd (fst s)) (snd s) fit.

(** [fishnet] up to the call of the solver. *)
Definition fishnet_setup (fc : fam_call) : M (solver_in * bool) :=
  negative <- cond (R.any (map (fun v => R.lt v R.zero) (a_data (c_y fc)))) ;;
  if (negative : bool)
  then stop "negative responses encountered;  not permitted for Poisson family"
  else
    match c_offset fc with
    | None =>
        let off := {| a_dim := a_dim (c_y fc);
                      a_data := map (fun v => R.mul v R.zero)
                                    (a_data (c_y fc)) |} in
        ret (solver_args fc None (c_y fc) (Some off), false)
    | Some o => ret (solver_args fc None (c_y fc) (Some o), true)
    end.

Definition fishnet_result (fc : fam_call) (is_offset : bool)
    (fit : solver_out) : M famfit :=
  report_jerr fit (c_maxit fc) (c_nx fc) poisson ;;
  outlist <- lift (getcoef fit (c_nvars fc) (c_nx fc) (c_vnames fc)) ;;
  dev <- first_lmu (rsq fit) (lmu fit) ;;
  ret {| f_coef := outlist; dev_ratio := dev; nulldev := o_nulldev fit;
         npasses := nlp fit; f_jerr := jerr fit; f_offset := is_offset;
         f_class := ["fishnet"%string] |}.

Definition fishnet (fc : fam_call) : M famfit :=
  s <- fishnet_setup fc ;;
  let fit := if c_is_sparse fc then spfishnet_exp (fst s)
             else fishnet_exp (fst s) in
  fishnet_result fc (snd s) fit.

(** ** [glmnet] as a whole *)

(** The other family functions, the two newer path functions, [fix.lam]
    and [relax.glmnet] are not among the sources at hand either. *)
Variables lognet coxnet mrelnet : fam_call -> Res famfit.
Variables glmnet_path cox_path : glmnet_args -> entry -> Res glmnet_fit.
Variable use_cox_path : design -> rarray -> bool.
Variable fix_lam : list dbl -> list dbl.
Variable relax_glmnet : glmnet_fit -> glmnet_args -> entry -> Res glmnet_fit.

(** [family = match.arg(family)] *)
Definition match_family (f : family_arg) : M family :=
  s <- Base.match_arg
         (match f with FamilyName s => Some s | _ => None end)
         family_names ;;
  match family_of_name s with
  | Some fam => ret fam
  | None => stop "'arg' must be NULL or a character vector"
  end.

(** [fit = switch(family, ...)] *)
Definition family_fit (fc : fam_call) : M famfit :=
  match c_family fc with
  | gaussian => elnet fc
  | poisson => fishnet fc
  | binomial | multinomial => lift (lognet fc)
  | cox => lift (coxnet fc)
  | mgaussian => lift (mrelnet fc)
  end.

(** After the family function: [fix.lam] when [lambda] was not supplied,
    then [nobs]. *)
Definition glmnet_finish (a : glmnet_args) (nobs : Z) (f : famfit)
    : glmnet_fit :=
  let f1 := match lambda a with
            | None => set_lambda (fix_lam (co_lambda (f_coef f))) f
            | Some _ => f
            end in
  {| g_fit := f1; g_nobs := nobs |}.

Definition is_cox (f : family) : bool :=
  match f with cox => true | _ => false end.

(** Which function computes the fit: [glmnet.path] for a family object,
    [cox.path] for the Cox family when [use.cox.path] says so, and a family
    function otherwise. *)
Inductive route : Type :=
| ByGlmnetPath
| ByCoxPath
| ByFamily (fam : family).

Definition choose_route (a : glmnet_args) (e : entry) : M route :=
  match family_ a with
  | FamilyObject => ret ByGlmnetPath
  | _ =>
      fam <- match_family (family_ a) ;;
      if is_cox fam && use_cox_path (x a) (e_y e)
      then ret ByCoxPath
      else ret (ByFamily fam)
  end.

Definition glmnet_body (a : glmnet_args) : M glmnet_fit :=
  e <- glmnet_entry a ;;
  r <- choose_route a e ;;
  fit <- match r with
         | ByGlmnetPath => lift (glmnet_path a e)
         | ByCoxPath => lift (cox_path a e)
         | ByFamily fam =>
             fc <- glmnet_prepare a e fam ;;
             f <- family_fit fc ;;
             ret (glmnet_finish a (e_nobs e) f)
         end ;;
  if relax a then lift (relax_glmnet fit a e) else ret fit.

(** A call of [glmnet] starting from the settings [c0]: the body runs with
    an empty [on.exit] slot, and whatever the slot holds when the body
    ends, normally or by an error, runs then.  The value is the outcome,
    the settings left behind and the warnings. *)
Definition run_exit (w : world) : control :=
  match exit_hook w with
  | Some e => run_exit_action e (ctl w)
  | None => ctl w
  end.

Definition glmnet (a : glmnet_args) (c0 : control)
    : outcome glmnet_fit * control * list string :=
  let r := glmnet_body a {| ctl := c0; exit_hook := None; warned := [] |} in
  (fst r, run_exit (snd r), warned (snd r)).

End Families.

(** ** The grid of the path solver *)

(** Modelled from the spec: the path solver is not among the sources at
    hand.  Its grid is described in the spec (PathSolver, "λ-grid"): a
    supplied sequence is used verbatim; otherwise the solver computes
    [λ_max], sets [λ_min = lambda.min.ratio · λ_max] and emits [nlambda]
    values equally spaced on the log scale, the first of which is the
    computed [λ_max].  Equal spacing on the log scale is a constant ratio
    [alf] between neighbours; the front end signals a supplied sequence by
    [flmin = 1] and passes the ratio [lambda.min.ratio < 1] in [flmin]
    otherwise. *)
Definition geometric (lmax alf : Q) (n : nat) : list Q :=
  map (fun k => lmax * alf ^ Z.of_nat k) (seq 0 n).

(** Modelled from the spec: the solver takes the sequence as supplied when
    [flmin] is not below 1. *)
Definition supplied (si : solver_in) : bool :=
  R.is_true (R.ge (s_flmin si) R.one).

(** Modelled from the spec: the grid is the supplied sequence, used
    verbatim, or the geometric grid of [nlam] values from [λ_max]. *)
Definition path_grid (lmax alf : Q) (si : solver_in) : list dbl :=
  if supplied si then s_ulam si
  else map Fin (geometric lmax alf (Z.to_nat (s_nlam si))).

(** The ratio [alf] spans the grid from [λ_max] to [flmin · λ_max] in
    [nlam] values. *)
Definition spans (alf : Q) (si : solver_in) (ratio : Q) : Prop :=
  s_flmin si = Fin ratio /\ (1 <= s_nlam si)%Z /\
  0 < alf /\ alf ^ (s_nlam si - 1) == ratio.

(** Modelled from the spec: a path solver that walks the whole grid
    without early termination, reports the grid in [alm] and explains
    nothing ([rsq] all zero). *)
Definition grid_solver (lmax alf : Q) (si : solver_in) : solver_out :=
  let g := path_grid lmax alf si in
  {| lmu := Base.len g; a0 := map (fun _ => R.zero) g;
     ca := map (fun _ => []) g; ia := []; nin := map (fun _ => 0%Z) g;
     o_nulldev := R.one; rsq := map (fun _ => R.zero) g; alm := g;
     nlp := Base.len g; jerr := 0 |}.

(** Modelled from the spec: [jerr] decides between abort and truncation by
    the sign of the code (ErrorHandling, "propagation rule"). *)
Definition jerr_by_sign (n maxit pmax : Z) (fam : family) : errmsg :=
  {| fatal := (0 <? n)%Z;
     msg := ("error code " ++ Zstr n ++ " from the " ++ family_name fam
             ++ " solver")%string |}.

(** Modelled from the spec: [getcoef] keeps the first [lmu] columns of
    what the solver filled (DataModel, "truncated to [lmu] columns"). *)
Definition getcoef_columns (fit : solver_out) (nvars nx : Z)
    (vnames : list string) : Res coefob :=
  let k := Z.to_nat (lmu fit) in
  ([], Val {| co_a0 := firstn k (a0 fit); co_beta := firstn k (ca fit);
              co_df := firstn k (nin fit); co_dim := (nvars, lmu fit);
              co_lambda := firstn k (alm fit) |}).

(** ** Order on a sequence of λ values *)

Definition descending (l : list dbl) : Prop :=
  Sorted (fun a b => R.ge a b = Some true) l.

Definition strictly_descending (l : list dbl) : Prop :=
  Sorted (fun a b => R.gt a b = Some true) l.

Definition distinct (l : list dbl) : Prop :=
  ForallOrdPairs (fun a b => R.eq a b = Some false) l.

(** ** The null deviance, as the sum written in the spec *)

(** [big_sum n f] is [f 0 + ... + f (n-1)]. *)
Fixpoint big_sum (n : nat) (f : nat -> dbl) : dbl :=
  match n with
  | O => R.zero
  | S k => R.add (big_sum k f) (f k)
  end.

(** [Σᵢ wᵢ (yᵢ − ȳ)²] *)
Definition weighted_ss (w yv : list dbl) (ybar : dbl) : dbl :=
  big_sum (List.length yv)
    (fun i => R.mul (nth i w NA) (R.sq (R.sub (nth i yv NA) ybar))).

(** ** Sample calls *)

(** The settings a fresh process starts with. *)
Definition settings0 : control :=
  {| thresh := Fin (1 # 10000000); fdev := Fin (1 # 100000);
     devmax := Fin (999 # 1000); eps := Fin (1 # 1000000);
     big := Fin 990000000000000000000000000000000000; mnlam := 5;
     pmin := Fin (1 # 1000000000); exmx := Fin 250; mxit := 100;
     epsnr := Fin (1 # 1000000); itrace := 0 |}.

Definition world0 : world :=
  {| ctl := settings0; exit_hook := None; warned := [] |}.

(** Designs: three observations of two variables, dense and sparse; the
    same with an infinite entry; two observations of two variables. *)
Definition x32 : design :=
  {| x_val := matrix 3 2 [Fin 1; Fin 2; Fin 3; Fin 0; Fin 1; Fin 0];
     x_sparse := false; x_colnames := None |}.

Definition x32_sparse : design :=
  {| x_val := matrix 3 2 [Fin 1; Fin 2; Fin 3; Fin 0; Fin 1; Fin 0];
     x_sparse := true; x_colnames := None |}.

Definition x32_inf : design :=
  {| x_val := matrix 3 2 [Fin 1; PInf; Fin 3; Fin 0; Fin 1; Fin 0];
     x_sparse := false; x_colnames := None |}.

Definition x22 : design :=
  {| x_val := matrix 2 2 [Fin 1; Fin 2; Fin 0; Fin 1];
     x_sparse := false; x_colnames := None |}.

(** A call of [glmnet] for the Gaussian family with the arguments named
    here and the defaults for the others.  The response is a vector
    without [dim]. *)
Definition sample (xa : design) (yv : list dbl) (wts : option (list dbl))
    (al : dbl) (nlam : Z) (lam : option (list dbl)) (icpt : bool)
    (up : list dbl) (trace : Z) : glmnet_args :=
  {| x := xa; y := vector yv; family_ := FamilyMissing; weights := wts;
     offset := None; alpha := al; nlambda := nlam;
     lambda_min_ratio := None; lambda := lam; standardize := true;
     intercept := Some icpt; thresh_ := Fin (1 # 10000000); dfmax := None;
     pmax := None; exclude := None; penalty_factor := None;
     lower_limits := [NInf]; upper_limits := up; maxit := 100000;
     type_gaussian := None; type_logistic := None;
     standardize_response := false; type_multinomial := None;
     relax := false; trace_it := trace |}.

Definition twos : list dbl := [Fin 2; Fin 2; Fin 2].

Definition plain : glmnet_args :=
  sample x32 twos None R.one 3 None false [PInf] 0.
Definition steep : glmnet_args :=
  sample x32 twos None (Fin 2) 3 None false [PInf] 0.
Definition weighted : glmnet_args :=
  sample x32 twos (Some [Fin 1; Fin 2; Fin 1]) R.one 3 None false [PInf] 0.
Definition odd : glmnet_args :=
  sample x32_inf twos (Some [Fin (-1); Fin 0; Fin 2]) R.one 3 None false
    [PInf] 0.
Definition chosen : glmnet_args :=
  sample x32 twos None R.one 3 (Some [Fin 1; Fin 3; Fin 2]) false [PInf] 0.
Definition ties : glmnet_args :=
  sample x32 twos None R.one 3 (Some [Fin 1; Fin 1]) false [PInf] 0.
Definition short : glmnet_args :=
  sample x32 twos None R.one 3 None false [PInf] 0.
Definition square : glmnet_args :=
  sample x22 [Fin 2; Fin 2] None R.one 3 None false [PInf] 0.
Definition sparse_call : glmnet_args :=
  sample x32_sparse twos None R.one 3 None false [PInf] 0.
Definition flat : glmnet_args :=
  sample x32 twos None R.one 3 None true [PInf] 0.
Definition traced : glmnet_args :=
  sample x32 twos None R.one 3 None false [R.zero] 1.
Definition pinned : glmnet_args :=
  sample x32 twos None R.one 3 None false [R.zero] 0.

(** A response with three equal values, three unit weights and an
    intercept, as [glmnet] hands it to [elnet]. *)
Definition flat_call : fam_call :=
  {| c_x := x32; c_is_sparse := false; c_y := vector twos;
     c_weights := [R.one; R.one; R.one]; c_offset := None;
     c_type_gaussian := Some "covariance"%string; c_alpha := R.one;
     c_nobs := 3; c_nvars := 2; c_jd := [0%Z]; c_vp := [R.one; R.one];
     c_mp := matrix 2 1 [R.one; R.one];
     c_cl := {| cl_lower := [Fin (-1); Fin (-1)];
                cl_upper := [R.one; R.one] |};
     c_ne := 3; c_nx := 2; c_nlam := 3; c_flmin := Fin (1 # 10000);
     c_ulam := [R.zero]; c_thresh := Fin (1 # 10000000); c_isd := 1;
     c_jsd := 0; c_intr := 1; c_vnames := ["V1"; "V2"]%string;
     c_maxit := 100000; c_kopt := 0; c_family := gaussian; c_pb := None |}.

(** The same without an intercept. *)
Definition flat_call_through_origin : fam_call :=
  {| c_x := x32; c_is_sparse := false; c_y := vector twos;
     c_weights := [R.one; R.one; R.one]; c_offset := None;
     c_type_gaussian := Some "covariance"%string; c_alpha := R.one;
     c_nobs := 3; c_nvars := 2; c_jd := [0%Z]; c_vp := [R.one; R.one];
     c_mp := matrix 2 1 [R.one; R.one];
     c_cl := {| cl_lower := [Fin (-1); Fin (-1)];
                cl_upper := [R.one; R.one] |};
     c_ne := 3; c_nx := 2; c_nlam := 3; c_flmin := Fin (1 # 10000);
     c_ulam := [R.zero]; c_thresh := Fin (1 # 10000000); c_isd := 1;
     c_jsd := 0; c_intr := 0; c_vnames := ["V1"; "V2"]%string;
     c_maxit := 100000; c_kopt := 0; c_family := gaussian; c_pb := None |}.

(** A solver that reports a zero-variance response in [jerr]. *)
Definition refusing_solver (si : solver_in) : solver_out :=
  {| lmu := 0; a0 := []; ca := []; ia := []; nin := []; o_nulldev := R.zero;
     rsq := []; alm := []; nlp := 0; jerr := 7777 |}.

(** Values to fall back on when a run stopped. *)
Definition no_array : rarray := vector [].

Definition no_entry : entry :=
  {| e_nobs := 0; e_nvars := 0; e_nc := []; e_y := no_array;
     e_weights := []; e_penalty_factor := no_array |}.

Definition no_fit : glmnet_fit :=
  {| g_fit := {| f_coef := {| co_a0 := []; co_beta := []; co_df := [];
                              co_dim := (0%Z, 0%Z); co_lambda := [] |};
                 dev_ratio := []; nulldev := NA; npasses := 0; f_jerr := 0;
                 f_offset := false; f_class := [] |};
     g_nobs := 0 |}.

Definition no_call : fam_call :=
  {| c_x := x32; c_is_sparse := false; c_y := no_array; c_weights := [];
     c_offset := None; c_type_gaussian := None; c_alpha := NA; c_nobs := 0;
     c_nvars := 0; c_jd := []; c_vp := []; c_mp := no_array;
     c_cl := {| cl_lower := []; cl_upper := [] |}; c_ne := 0; c_nx := 0;
     c_nlam := 0; c_flmin := NA; c_ulam := []; c_thresh := NA; c_isd := 0;
     c_jsd := 0; c_intr := 0; c_vnames := []; c_maxit := 0; c_kopt := 0;
     c_family := gaussian; c_pb := None |}.

Definition the {A : Type} (d : A) (r : outcome A * world) : A :=
  match fst r with
  | Val a => a
  | Stop _ => d
  end.

Definition returned {A : Type} (r : outcome A) : bool :=
  match r with
  | Val _ => true
  | Stop _ => false
  end.

(** What the common checks and the preparation yield for a call made in
    [world0]. *)
Definition entry_at (a : glmnet_args) : entry :=
  the no_entry (glmnet_entry a world0).

Definition world_at (a : glmnet_args) : world :=
  snd (glmnet_entry a world0).

Definition call_at (a : glmnet_args) : fam_call :=
  the no_call (glmnet_prepare a (entry_at a) gaussian (world_at a)).

Definition world_after (a : glmnet_args) : world :=
  snd (glmnet_prepare a (entry_at a) gaussian (world_at a)).

(** Modelled from the spec: [fix.lam] replaces the first λ by [+Inf]
    (PathSolver, "λ-grid", item 4). *)
Definition fix_lam_first (l : list dbl) : list dbl :=
  match l with
  | [] => []
  | _ :: r => PInf :: r
  end.

(** A family function, a path function or a refit that is not available. *)
Definition unavailable {A B : Type} (_ : A) : Res B :=
  ([], Stop "not available").

(** [glmnet] with the solver, [jerr], [getcoef] and [fix.lam] modelled
    from the spec; the solver's grid starts at [λ_max = 1] and has ratio
    1/10. *)
Definition body_sample (a : glmnet_args) : M glmnet_fit :=
  glmnet_body (grid_solver 1 (1 # 10)) (grid_solver 1 (1 # 10))
              (grid_solver 1 (1 # 10)) (grid_solver 1 (1 # 10))
              jerr_by_sign getcoef_columns
              unavailable unavailable unavailable
              (fun _ _ => unavailable tt) (fun _ _ => unavailable tt)
              (fun _ _ => false) fix_lam_first
              (fun _ _ _ => unavailable tt)
              a.

Definition elnet_sample (fc : fam_call) : M famfit :=
  elnet (grid_solver 1 (1 # 10)) (grid_solver 1 (1 # 10))
        jerr_by_sign getcoef_columns fc.

Definition glmnet_sample (a : glmnet_args) (c0 : control)
    : outcome glmnet_fit * control * list string :=
  glmnet (grid_solver 1 (1 # 10)) (grid_solver 1 (1 # 10))
         (grid_solver 1 (1 # 10)) (grid_solver 1 (1 # 10))
         jerr_by_sign getcoef_columns
         unavailable unavailable unavailable
         (fun _ _ => unavailable tt) (fun _ _ => unavailable tt)
         (fun _ _ => false) fix_lam_first
         (fun _ _ _ => unavailable tt)
         a c0.

(** What a solver returns when the first λ did not converge: nothing
    filled, [jerr = -1]. *)
Definition stalled : solver_out :=
  {| lmu := 0; a0 := [R.zero; R.zero; R.zero]; ca := [[]; []; []]; ia := [];
     nin := [0%Z; 0%Z; 0%Z]; o_nulldev := R.one;
     rsq := [R.zero; R.zero; R.zero]; alm := [R.zero; R.zero; R.zero];
     nlp := 1; jerr := (-1) |}.

(** ** Vocabulary of the statements *)

(** [al] lies in the unit interval. *)
Definition in_unit_interval (al : dbl) : Prop :=
  R.ge al R.zero = Some true /\ R.le al R.one = Some true.

(** What [clamp_alpha] returns and the warnings it gives, written without
    the monad. *)
Definition clamped (al : dbl) : dbl :=
  if R.is_true (R.gt al R.one) then R.one
  else if R.is_true (R.lt al R.zero) then R.zero
  else al.

Definition clamp_warnings (al : dbl) : list string :=
  if R.is_true (R.gt al R.one) then ["alpha >1; set to 1"%string]
  else if R.is_true (R.lt al R.zero) then ["alpha<0; set to 0"%string]
  else [].

(** The world [w] after the warnings [l]. *)
Definition warn_all (l : list string) (w : world) : world :=
  {| ctl := ctl w; exit_hook := exit_hook w; warned := warned w ++ l |}.

(** Steps that leave the settings and the [on.exit] slot alone. *)
Definition same_settings (w w' : world) : Prop :=
  ctl w' = ctl w /\ exit_hook w' = exit_hook w.

Definition keeps_ctl {A : Type} (m : M A) : Prop :=
  forall w r w', m w = (r, w') -> same_settings w w'.

(** The world [w] in which [trace_step] changes nothing: tracing is not
    asked for, or is on already. *)
Definition untraced (t : Z) (w : world) : Prop :=
  ((t =? 0)%Z || negb (itrace (ctl w) =? 0)%Z) = true.

(** [ybar] is what [elnet] centres the response with: zero without an
    intercept, and otherwise the value [weighted.mean] returns. *)
Definition is_ybar (fc : fam_call) (w : world) (ybar : dbl) : Prop :=
  if (c_intr fc =? 0)%Z then ybar = R.zero
  else weighted_mean (a_data (elnet_response fc)) (c_weights fc) w
       = (Val ybar, w).

(** [w'] differs from [w] by the override of [fdev] alone: either nothing
    changed, or [fdev] is zero and its restoration is registered. *)
Definition fdev_overridden (w w' : world) : Prop :=
  (ctl w' = ctl w /\ exit_hook w' = exit_hook w) \/
  (ctl w' = set_fdev R.zero (ctl w) /\
   exit_hook w' = Some (RestoreFdev (fdev (ctl w)))).

(** The call makes no change to [itrace]: tracing is not asked for, or is
    on already. *)
Definition tracing_untouched (a : glmnet_args) (c0 : control) : bool :=
  (trace_it a =? 0)%Z || negb (itrace c0 =? 0)%Z.

(** Steps that, started in a world satisfying [P], end (with a value or
    an error) in a world with the same settings, respectively in a world
    that differs by the override of [fdev] alone. *)
Definition keeps_from {A : Type} (P : world -> Prop) (m : M A) : Prop :=
  forall w r w', P w -> m w = (r, w') ->
    ctl w' = ctl w /\ exit_hook w' = exit_hook w.

Definition overrides_from {A : Type} (P : world -> Prop) (m : M A) : Prop :=
  forall w r w', P w -> m w = (r, w') -> fdev_overridden w w'.

(** ** Vocabulary of the further properties *)

(** A step whose every run, ended by a value or by an error, relates the
    world before to the world after by [Rel]. *)
Definition runs_in {A : Type} (Rel : world -> world -> Prop) (m : M A)
    : Prop :=
  forall w r w', m w = (r, w') -> Rel w w'.

(** [w'] differs from [w] by the switch of [itrace] alone: either nothing
    changed, or tracing was asked for with [itrace] off, [itrace] is now 1
    and its reset is registered. *)
Definition trace_switched (t : Z) (w w' : world) : Prop :=
  same_settings w w' \/
  (ctl w' = set_itrace 1 (ctl w) /\ exit_hook w' = Some ResetItrace /\
   itrace (ctl w) = 0%Z /\ t <> 0%Z).

(** The two changes [glmnet] makes to the settings, in the order in which
    the body makes them. *)
Definition tuned (t : Z) (w w' : world) : Prop :=
  exists wm, trace_switched t w wm /\ fdev_overridden wm w'.

(** An array is well formed when its data has as many entries as its
    extents multiply to, as R keeps it. *)
Definition extent_product (d : list Z) : Z := fold_right Z.mul 1%Z d.

Definition well_formed (m : rarray) : Prop :=
  match a_dim m with
  | Some d => Base.len (a_data m) = extent_product d
  | None => True
  end.

(** [exclude] and [penalty.factor] as the caller supplied them; nothing
    when the default was left in place. *)
Definition supplied_exclude (a : glmnet_args) : list Z :=
  match exclude a with Some l => l | None => [] end.

Definition supplied_penalty (a : glmnet_args) : list dbl :=
  match penalty_factor a with Some m => a_data m | None => [] end.

(** The data after [penalty.factor[jd] = 1] for indices inside it. *)
Definition put_ones (jd : list Z) (d : list dbl) : list dbl :=
  fold_left (fun d j => Base.set_nth (Z.to_nat (j - 1)) R.one d) jd d.



(** ** Further sample calls *)

(** A design with three variables. *)
Definition x33 : design :=
  {| x_val := matrix 3 3 [Fin 1; Fin 2; Fin 3; Fin 0; Fin 1; Fin 0;
                          Fin 2; Fin 0; Fin 1];
     x_sparse := false; x_colnames := None |}.

(** The call [a] with [family], [exclude], [penalty.factor] and
    [type.multinomial] replaced. *)
Definition variant (a : glmnet_args) (fm : family_arg)
    (ex : option (list Z)) (pf : option rarray) (tm : option string)
    : glmnet_args :=
  {| x := x a; y := y a; family_ := fm; weights := weights a;
     offset := offset a; alpha := alpha a; nlambda := nlambda a;
     lambda_min_ratio := lambda_min_ratio a; lambda := lambda a;
     standardize := standardize a; intercept := intercept a;
     thresh_ := thresh_ a; dfmax := dfmax a; pmax := pmax a; exclude := ex;
     penalty_factor := pf; lower_limits := lower_limits a;
     upper_limits := upper_limits a; maxit := maxit a;
     type_gaussian := type_gaussian a; type_logistic := type_logistic a;
     standardize_response := standardize_response a;
     type_multinomial := tm; relax := relax a; trace_it := trace_it a |}.

(** The third variable excluded, an infinite penalty factor on the
    first. *)
Definition penalised : glmnet_args :=
  variant (sample x33 twos None R.one 3 None false [PInf] 0) FamilyMissing
    (Some [3%Z]) (Some (matrix 3 1 [PInf; Fin 2; Fin 5])) None.

(** Penalty factors as a plain vector. *)
Definition vector_penalised : glmnet_args :=
  variant plain FamilyMissing None (Some (vector [R.one; R.one])) None.

(** Abbreviated names. *)
Definition abbreviated : glmnet_args :=
  variant plain (FamilyName "poi") None None (Some "gr"%string).

(** The call [a] with the response [ya]. *)
Definition respond (a : glmnet_args) (ya : rarray) : glmnet_args :=
  {| x := x a; y := ya; family_ := family_ a; weights := weights a;
     offset := offset a; alpha := alpha a; nlambda := nlambda a;
     lambda_min_ratio := lambda_min_ratio a; lambda := lambda a;
     standardize := standardize a; intercept := intercept a;
     thresh_ := thresh_ a; dfmax := dfmax a; pmax := pmax a;
     exclude := exclude a; penalty_factor := penalty_factor a;
     lower_limits := lower_limits a; upper_limits := upper_limits a;
     maxit := maxit a; type_gaussian := type_gaussian a;
     type_logistic := type_logistic a;
     standardize_response := standardize_response a;
     type_multinomial := type_multinomial a; relax := relax a;
     trace_it := trace_it a |}.

(** A response with two columns and a penalty matrix with three. *)
Definition two_responses : glmnet_args :=
  respond
    (variant plain FamilyMissing None
       (Some (matrix 2 3 [R.one; R.one; R.one; R.one; R.one; R.one])) None)
    (matrix 3 2 [Fin 1; Fin 2; Fin 3; Fin 2; Fin 0; Fin 1]).

(** Three upper limits for two variables. *)
Definition long_limits : glmnet_args :=
  sample x32 twos None R.one 3 None false [PInf; Fin 4; Fin 7] 0.



(** [fishnet] with the solver, [jerr] and [getcoef] modelled from the
    spec, and [elnet] with a solver that stops at the first λ. *)
Definition fishnet_sample (fc : fam_call) : M famfit :=
  fishnet (grid_solver 1 (1 # 10)) (grid_solver 1 (1 # 10))
          jerr_by_sign getcoef_columns fc.

Definition elnet_stalled (fc : fam_call) : M famfit :=
  elnet (fun _ => stalled) (fun _ => stalled) jerr_by_sign getcoef_columns fc.

Definition no_famfit : famfit := g_fit no_fit.

(** What the preparation yields for the family [fam]. *)
Definition call_for (fam : family) (a : glmnet_args) : fam_call :=
  the no_call (glmnet_prepare a (entry_at a) fam (world_at a)).

Definition world_for (fam : family) (a : glmnet_args) : world :=
  snd (glmnet_prepare a (entry_at a) fam (world_at a)).

(** * Properties *)

Unset Implicit Arguments.

(** ** Running a call step by step *)

Lemma bind_val {A B : Type} (m : M A) (k : A -> M B) w b w' :
  bind m k w = (Val b, w') ->
  exists a w1, m w = (Val a, w1) /\ k a w1 = (Val b, w').
Proof.
  unfold bind. destruct (m w) as [[a | s] w1]; intros H.
  - exists a, w1. split; [reflexivity | exact H].
  - discriminate H.
Qed.

Lemma bind_stop {A B : Type} (m : M A) (k : A -> M B) w s w' :
  m w = (Stop s, w') -> bind m k w = (Stop s, w').
Proof. unfold bind. intros ->. reflexivity. Qed.

Lemma bind_run {A B : Type} (m : M A) (k : A -> M B) w a w1 :
  m w = (Val a, w1) -> bind m k w = k a w1.
Proof. unfold bind. intros ->. reflexivity. Qed.

Lemma ret_val {A : Type} (a b : A) w w' :
  ret a w = (Val b, w') -> b = a /\ w' = w.
Proof. unfold ret. intros H. inversion H. split; reflexivity. Qed.

Lemma stop_val {A : Type} s (b : A) w w' : stop s w = (Val b, w') -> False.
Proof. unfold stop. intros H. discriminate H. Qed.

Lemma cond_val c b w w' : cond c w = (Val b, w') -> c = Some b /\ w' = w.
Proof.
  destruct c as [c |]; simpl; intros H.
  - apply ret_val in H. destruct H as [-> ->]. split; reflexivity.
  - apply stop_val in H. contradiction.
Qed.

Lemma cond_world c r w w' : cond c w = (r, w') -> w' = w.
Proof. destruct c; intros H; inversion H; reflexivity. Qed.

Lemma warning_val s u w w' :
  warning s w = (Val u, w') ->
  w' = {| ctl := ctl w; exit_hook := exit_hook w; warned := warned w ++ [s] |}.
Proof. unfold warning. intros H. inversion H. reflexivity. Qed.

Lemma lift_val {A : Type} (r : Res A) a w w' :
  lift r w = (Val a, w') ->
  snd r = Val a /\
  w' = {| ctl := ctl w; exit_hook := exit_hook w; warned := warned w ++ fst r |}.
Proof. unfold lift. intros H. inversion H. split; reflexivity. Qed.

(** [step H] peels the first statement off a run [H] that returned. *)
Ltac step H :=
  let v := fresh "v" in
  let w := fresh "w" in
  let Hv := fresh "Hv" in
  apply bind_val in H; destruct H as (v & w & Hv & H).

Tactic Notation "peel" hyp(H) "as" ident(v) ident(w) ident(Hv) :=
  apply bind_val in H; destruct H as (v & w & Hv & H).

Ltac done_ret H :=
  apply ret_val in H; destruct H as [? ?]; subst.

Lemma keeps_ret {A : Type} (a : A) : keeps_ctl (ret a).
Proof. intros w r w' H. inversion H. split; reflexivity. Qed.

Lemma keeps_stop {A : Type} s : keeps_ctl (@stop A s).
Proof. intros w r w' H. inversion H. split; reflexivity. Qed.

Lemma keeps_cond c : keeps_ctl (cond c).
Proof. destruct c; [apply keeps_ret | apply keeps_stop]. Qed.

Lemma keeps_warning s : keeps_ctl (warning s).
Proof. intros w r w' H. inversion H. split; reflexivity. Qed.

Lemma keeps_lift {A : Type} (r : Res A) : keeps_ctl (lift r).
Proof. intros w r' w' H. inversion H. split; reflexivity. Qed.

Lemma same_settings_trans w1 w2 w3 :
  same_settings w1 w2 -> same_settings w2 w3 -> same_settings w1 w3.
Proof. unfold same_settings. intros [E1 E2] [E3 E4]. split; congruence. Qed.

Lemma keeps_bind {A B : Type} (m : M A) (k : A -> M B) :
  keeps_ctl m -> (forall a, keeps_ctl (k a)) -> keeps_ctl (bind m k).
Proof.
  intros Hm Hk w r w' H. unfold bind in H.
  destruct (m w) as [[a | s] w1] eqn:E; apply Hm in E.
  - apply Hk in H. exact (same_settings_trans _ _ _ E H).
  - inversion H; subst. exact E.
Qed.

Lemma keeps_when c m : keeps_ctl m -> keeps_ctl (when c m).
Proof. destruct c; simpl; [trivial | intros _; apply keeps_ret]. Qed.

Lemma keeps_if {A : Type} (c : bool) (m1 m2 : M A) :
  keeps_ctl m1 -> keeps_ctl m2 -> keeps_ctl (if c then m1 else m2).
Proof. destruct c; trivial. Qed.

Create HintDb keeps.
#[local] Hint Resolve keeps_ret keeps_stop keeps_cond keeps_warning
  keeps_lift keeps_when keeps_if : keeps.

Ltac keeps :=
  repeat first
    [ progress auto with keeps
    | apply keeps_bind; [| intros ?]
    | apply keeps_if
    | apply keeps_when ].

(** ** The steps of [glmnet_prepare] *)

(** A run of [glmnet_prepare] that reaches the family function went
    through each step, in the order of the source. *)
Lemma glmnet_prepare_inv a e fam w fc w' :
  glmnet_prepare a e fam w = (Val fc, w') ->
  exists al w1 w2 jp w3 vp w4 pt w5 cl w6 w7 w8 fl w9 kopt,
    clamp_alpha (alpha a) w = (Val al, w1) /\
    check_response_rows (drop (e_y e)) (e_nobs e) w1 = (Val tt, w2) /\
    exclude_step (exclude a) (e_nvars e) (e_penalty_factor e) w2
      = (Val jp, w3) /\
    first_column (snd jp) w3 = (Val vp, w4) /\
    trace_step (trace_it a) w4 = (Val pt, w5) /\
    check_limits (lower_limits a) (upper_limits a) (big (fst pt)) (e_nvars e) w5
      = (Val cl, w6) /\
    fdev_step cl w6 = (Val tt, w7) /\
    same_settings w7 w8 /\
    lambda_step a (e_nobs e) (e_nvars e) (nlambda a) w8 = (Val fl, w9) /\
    kopt_step a fam w9 = (Val kopt, w') /\
    c_alpha fc = al /\ c_y fc = drop (e_y e) /\ c_weights fc = e_weights e /\
    c_cl fc = cl /\ c_flmin fc = fst (fst fl) /\ c_ulam fc = snd (fst fl) /\
    c_nlam fc = snd fl /\ c_nobs fc = e_nobs e /\ c_nvars fc = e_nvars e /\
    c_x fc = x a /\ c_is_sparse fc = x_sparse (x a) /\
    c_type_gaussian fc = Some (resolve_type_gaussian a (e_nvars e)) /\
    c_family fc = fam.
Proof.
  unfold glmnet_prepare. intros H.
  step H. rename v into al, w0 into w1, Hv into Hal.
  step H. rename w0 into w2, Hv into Hrows. destruct v.
  step H. rename v into jp, w0 into w3, Hv into Hex.
  step H. rename v into vp, w0 into w4, Hv into Hvp.
  step H. rename v into pt, w0 into w5, Hv into Htr.
  step H. rename v into cl, w0 into w6, Hv into Hcl.
  step H. rename w0 into w7, Hv into Hfd. destruct v.
  step H. rename w0 into w8, Hv into Hcox. destruct v.
  step H. rename v into fl, w0 into w9, Hv into Hlam.
  step H. rename v into kopt, w0 into w10, Hv into Hk.
  done_ret H.
  exists al, w1, w2, jp, w3, vp, w4, pt, w5, cl, w6, w7, w8, fl, w9, kopt.
  pose proof (@keeps_when _ _ (@keeps_warning _) _ _ _ Hcox) as Hsame.
  repeat (split; [first [eassumption | reflexivity] |]); reflexivity.
Qed.

(** ** Facts about the vector primitives *)

Lemma any_false (v : list lgl) :
  R.any v = Some false -> Forall (fun c => c = Some false) v.
Proof.
  unfold R.any.
  destruct (existsb R.is_true v) eqn:Ht; [discriminate |].
  destruct (existsb R.is_lna v) eqn:Hn; [discriminate |].
  intros _. apply Forall_forall. intros c Hc.
  destruct c as [[|]|]; [| reflexivity |].
  - assert (existsb R.is_true v = true) as E
      by (apply existsb_exists; exists (Some true); split; [exact Hc | reflexivity]).
    congruence.
  - assert (existsb R.is_lna v = true) as E
      by (apply existsb_exists; exists None; split; [exact Hc | reflexivity]).
    congruence.
Qed.

Lemma any_map_false {A : Type} (f : A -> lgl) (v : list A) :
  R.any (map f v) = Some false -> Forall (fun a => f a = Some false) v.
Proof.
  intros H. apply any_false in H. rewrite Forall_map in H. exact H.
Qed.

Lemma map_nth_seq_firstn {A : Type} (na : A) (n : nat) : forall v : list A,
  (n <= List.length v)%nat ->
  map (fun k => nth k v na) (seq 0 n) = firstn n v.
Proof.
  induction n as [| n IH]; intros v Hn; [reflexivity |].
  destruct v as [| a v]; [simpl in Hn; lia |].
  simpl. f_equal. rewrite <- seq_shift, map_map. simpl.
  apply IH. simpl in Hn. lia.
Qed.

(** [v[seq(n)]] is the first [n] elements of [v] when [1 <= n <=
    length(v)]. *)
Lemma index_rseq_firstn {A : Type} (na : A) (v : list A) (n : Z) :
  (1 <= n <= Base.len v)%Z ->
  R.index na v (R.rseq n) = Some (firstn (Z.to_nat n) v).
Proof.
  intros [H1 H2]. unfold R.index, R.rseq.
  apply Z.leb_le in H1 as H1'. rewrite H1'.
  assert (existsb (fun i => (i <? 0)%Z) (map Z.of_nat (seq 1 (Z.to_nat n)))
          = false) as E.
  { apply not_true_is_false. intros E. apply existsb_exists in E.
    destruct E as (i & Hi & Hneg). apply in_map_iff in Hi.
    destruct Hi as (k & <- & _). apply Z.ltb_lt in Hneg. lia. }
  rewrite E. f_equal.
  rewrite <- (map_nth_seq_firstn na) by (unfold Base.len in H2; lia).
  rewrite <- seq_shift, !map_map, flat_map_concat_map, map_map.
  induction (seq 0 (Z.to_nat n)) as [| k l IH]; [reflexivity |].
  cbn [map concat].
  replace (Z.of_nat (S k) =? 0)%Z with false
    by (symmetry; apply Z.eqb_neq; lia).
  replace (Z.to_nat (Z.of_nat (S k) - 1)) with k by lia.
  simpl. f_equal. exact IH.
Qed.

(** [seq(0)] is [c(1, 0)], so [v[seq(0)]] is the first element of [v]. *)
Lemma index_rseq_zero {A : Type} (na : A) (a : A) (v : list A) :
  R.index na (a :: v) (R.rseq 0) = Some [a].
Proof. reflexivity. Qed.

(** With [lmu = 0], [first_lmu] returns the first entry of a vector that
    has one, not the empty vector. *)
Lemma first_lmu_zero (r : dbl) (rest : list dbl) (w : world) :
  first_lmu (r :: rest) 0 w = (Val [r], w).
Proof. reflexivity. Qed.

Lemma firstn_len {A : Type} (v : list A) (n : Z) :
  (0 <= n <= Base.len v)%Z -> Base.len (firstn (Z.to_nat n) v) = n.
Proof.
  unfold Base.len. intros H. rewrite length_firstn. lia.
Qed.

(** ** The common checks *)

Lemma keeps_encode_response ya : keeps_ctl (encode_response ya).
Proof.
  unfold encode_response. destruct (a_dim ya); [apply keeps_ret |].
  destruct (table_min _) as [m |]; [| keeps].
  destruct (m <=? 1)%Z; keeps.
Qed.

Lemma keeps_check_weights wv n : keeps_ctl (check_weights wv n).
Proof.
  unfold check_weights. destruct wv as [v |]; [| apply keeps_ret].
  destruct (negb _); keeps.
Qed.

Lemma keeps_check_penalty_factor pf n nc :
  keeps_ctl (check_penalty_factor pf n nc).
Proof. unfold check_penalty_factor. cbv zeta. destruct (negb _); keeps. Qed.

Lemma keeps_check_dims xa : keeps_ctl (check_dims xa).
Proof.
  unfold check_dims. destruct (a_dim _) as [np |]; [| keeps].
  destruct (nth_error np 1) as [n2 |]; [| keeps].
  destruct (n2 <=? 1)%Z; keeps.
Qed.

(** A run of the common checks that returns fixes [nobs] and [nvars] from
    [dim(x)], found at least two columns, no missing value in [x] and
    weights that are either the default ones or of length [nobs]; it leaves
    the settings as they were. *)
Lemma glmnet_entry_inv a w e w' :
  glmnet_entry a w = (Val e, w') ->
  (exists np, a_dim (x_val (x a)) = Some np /\
              e_nobs e = nth 0 np 0%Z /\ nth_error np 1 = Some (e_nvars e)) /\
  (1 < e_nvars e)%Z /\
  Forall (fun v => R.is_na v = false) (a_data (x_val (x a))) /\
  match weights a with
  | Some v => e_weights e = v /\ Base.len v = e_nobs e
  | None => e_weights e = R.rep R.one (e_nobs e)
  end /\
  same_settings w w'.
Proof.
  unfold glmnet_entry. intros H.
  step H. rename v into np, w0 into w1, Hv into Hdims.
  step H. rename v into ync, w0 into w2, Hv into Henc.
  step H. rename v into na, w0 into w3, Hv into Hna.
  destruct na; [apply stop_val in H; contradiction |].
  step H. rename v into wt, w0 into w4, Hv into Hw.
  step H. rename v into pf, w0 into w5, Hv into Hpf.
  assert (same_settings w w5) as Hsame.
  { pose proof (@keeps_check_dims _ _ _ _ Hdims).
    pose proof (@keeps_encode_response _ _ _ _ Henc).
    pose proof (@keeps_cond _ _ _ _ Hna).
    pose proof (@keeps_check_weights _ _ _ _ _ Hw).
    pose proof (@keeps_check_penalty_factor _ _ _ _ _ _ Hpf).
    repeat (eapply same_settings_trans; [eassumption |]).
    split; reflexivity. }
  done_ret H. cbn [e_nobs e_nvars e_weights].
  assert ((exists d, a_dim (x_val (x a)) = Some d /\
                     fst np = nth 0 d 0%Z /\ nth_error d 1 = Some (snd np))
          /\ (1 < snd np)%Z) as [Hd Hn].
  { unfold check_dims in Hdims.
    destruct (a_dim (x_val (x a))) as [d |];
      [| apply stop_val in Hdims; contradiction].
    destruct (nth_error d 1) as [n2 |] eqn:E2;
      [| apply stop_val in Hdims; contradiction].
    destruct (n2 <=? 1)%Z eqn:E1; [apply stop_val in Hdims; contradiction |].
    done_ret Hdims. apply Z.leb_gt in E1. cbn [fst snd].
    split; [exists d; repeat split; assumption | lia]. }
  split; [exact Hd |]. split; [exact Hn |]. split; [| split; [| exact Hsame]].
  - apply cond_val in Hna. destruct Hna as [Hna _].
    apply any_map_false in Hna. revert Hna. apply Forall_impl.
    intros v Hv. congruence.
  - unfold check_weights in Hw. destruct (weights a) as [v |].
    + destruct (negb (Base.len v =? fst np)%Z) eqn:E;
        [apply stop_val in Hw; contradiction |].
      done_ret Hw. apply negb_false_iff, Z.eqb_eq in E. split; [reflexivity | exact E].
    + done_ret Hw. reflexivity.
Qed.

(** ** [alpha] *)

Lemma warn_all_nil w : warn_all [] w = w.
Proof. destruct w. unfold warn_all. simpl. rewrite app_nil_r. reflexivity. Qed.

Lemma clamp_alpha_total al w :
  R.is_na al = false ->
  clamp_alpha al w = (Val (clamped al), warn_all (clamp_warnings al) w).
Proof.
  intros Hna. unfold clamp_alpha, clamped, clamp_warnings, bind.
  destruct al as [q | | |]; try discriminate Hna; cbn.
  - destruct (R.Qlt_bool 1 q) eqn:E1; cbn; [reflexivity |].
    destruct (R.Qlt_bool q 0) eqn:E0; cbn; [reflexivity |].
    rewrite warn_all_nil. reflexivity.
  - reflexivity.
  - reflexivity.
Qed.

Lemma clamped_in_unit al : R.is_na al = false -> in_unit_interval (clamped al).
Proof.
  intros Hna. unfold clamped, in_unit_interval.
  destruct al as [q | | |]; try discriminate Hna; cbn;
    try (split; reflexivity).
  destruct (R.Qlt_bool 1 q) eqn:E1; cbn; [split; reflexivity |].
  destruct (R.Qlt_bool q 0) eqn:E0; cbn; [split; reflexivity |].
  unfold R.ge, R.le. cbn. rewrite E0, E1. split; reflexivity.
Qed.

Lemma clamp_alpha_val al w r w' :
  clamp_alpha al w = (Val r, w') -> R.is_na al = false.
Proof.
  destruct al; try reflexivity. unfold clamp_alpha, bind. cbn. discriminate.
Qed.

(** ** Steps of [glmnet_prepare] that leave the settings alone *)

Lemma keeps_clamp_alpha al : keeps_ctl (clamp_alpha al).
Proof. unfold clamp_alpha. keeps. Qed.

Lemma keeps_check_response_rows ya n : keeps_ctl (check_response_rows ya n).
Proof. unfold check_response_rows. destruct (negb _); keeps. Qed.

Lemma keeps_exclude_step ex n pf : keeps_ctl (exclude_step ex n pf).
Proof.
  unfold exclude_step. cbv zeta. apply keeps_bind; [keeps |]. intros inf.
  destruct (0 <? _)%Z; [| keeps]. destruct (negb _); keeps.
Qed.

Lemma keeps_first_column m : keeps_ctl (first_column m).
Proof.
  unfold first_column. destruct (a_dim m) as [[| nr [| nc [| ? ?]]] |]; keeps.
Qed.

Lemma keeps_to_length what v n : keeps_ctl (to_length what v n).
Proof.
  unfold to_length. destruct (Base.len v <? n)%Z.
  - destruct (Base.len v =? 1)%Z; keeps.
  - destruct (R.index _ _ _); keeps.
Qed.

Lemma keeps_check_limits lo up b n : keeps_ctl (check_limits lo up b n).
Proof.
  unfold check_limits. apply keeps_bind; [keeps |]. intros [|]; [keeps |].
  apply keeps_bind; [keeps |]. intros [|]; [keeps |].
  apply keeps_bind; [apply keeps_to_length |]. intros lo2.
  apply keeps_bind; [apply keeps_to_length |]. intros up2. keeps.
Qed.

Lemma keeps_lambda_step a nobs nvars nlam :
  keeps_ctl (lambda_step a nobs nvars nlam).
Proof.
  unfold lambda_step. destruct (lambda a).
  - apply keeps_bind; [keeps |]. intros [|]; keeps.
  - cbv zeta. apply keeps_bind; [keeps |]. intros [|]; keeps.
Qed.

Lemma keeps_match_arg arg choices : keeps_ctl (Base.match_arg arg choices).
Proof.
  unfold Base.match_arg. destruct arg as [s |]; [| keeps].
  destruct (Base.pmatch s choices); keeps.
Qed.

#[local] Hint Resolve keeps_match_arg keeps_to_length : keeps.

Lemma keeps_kopt_step a fam : keeps_ctl (kopt_step a fam).
Proof.
  unfold kopt_step. apply keeps_bind; [apply keeps_match_arg |]. intros tl.
  destruct fam; keeps.
Qed.

(** The [internal.parms] of the body are the settings at entry. *)
Lemma trace_step_parms t w pt w' :
  trace_step t w = (Val pt, w') -> fst pt = ctl w.
Proof.
  unfold trace_step, get_control, bind. cbn.
  destruct (negb (itrace (ctl w) =? 0)%Z).
  - intros H. done_ret H. reflexivity.
  - destruct (negb (t =? 0)%Z); cbn; intros H; inversion H; reflexivity.
Qed.

(** ** Box constraints *)

Lemma len_rep {A : Type} (a : A) (n : Z) :
  (0 <= n)%Z -> Base.len (R.rep a n) = n.
Proof. intros H. unfold Base.len, R.rep. rewrite repeat_length. lia. Qed.

Lemma in_firstn {A : Type} (a : A) (n : nat) (l : list A) :
  In a (firstn n l) -> In a l.
Proof.
  intros H. rewrite <- (firstn_skipn n l). apply in_or_app. left. exact H.
Qed.

Lemma to_length_spec what v n w r w' :
  (1 <= n)%Z ->
  to_length what v n w = (Val r, w') ->
  Base.len r = n /\
  (forall P : dbl -> Prop, Forall P v -> Forall P r) /\
  (forall a, v = [a] -> r = R.rep a n).
Proof.
  intros Hn. unfold to_length.
  destruct (Base.len v <? n)%Z eqn:Hlt.
  - destruct (Base.len v =? 1)%Z eqn:H1; [| intros H; apply stop_val in H; contradiction].
    intros H. done_ret H.
    apply Z.eqb_eq in H1. unfold Base.len in H1.
    destruct v as [| a [| b v]]; simpl in H1; try lia.
    split; [apply len_rep; lia |]. split.
    + intros P HP. inversion HP; subst. unfold R.rep.
      apply Forall_forall. intros c Hc. apply repeat_spec in Hc. subst c.
      assumption.
    + intros c Hc. inversion Hc. reflexivity.
  - apply Z.ltb_ge in Hlt.
    rewrite index_rseq_firstn by lia.
    intros H. done_ret H.
    split; [apply firstn_len; lia |]. split.
    + intros P HP. apply Forall_forall. intros c Hc.
      apply (proj1 (Forall_forall P v) HP). eapply in_firstn; eassumption.
    + intros a Hv. subst v. unfold Base.len in Hlt. simpl in Hlt.
      assert (n = 1)%Z by lia. subst n. reflexivity.
Qed.

Lemma lower_bound_finite bigv v :
  R.is_finite bigv = true -> R.gt v R.zero = Some false ->
  R.is_finite (lower_bound bigv v) = true.
Proof.
  intros Hb Hv. unfold lower_bound.
  destruct v as [q | | |]; cbn in *; try discriminate Hv; try reflexivity.
  destruct bigv; try discriminate Hb. reflexivity.
Qed.

Lemma upper_bound_finite bigv v :
  R.is_finite bigv = true -> R.lt v R.zero = Some false ->
  R.is_finite (upper_bound bigv v) = true.
Proof.
  intros Hb Hv. unfold upper_bound.
  destruct v as [q | | |]; cbn in *; try discriminate Hv; try reflexivity.
  exact Hb.
Qed.

Lemma check_limits_spec lo up bigv n w cl w' :
  (1 <= n)%Z -> R.is_finite bigv = true ->
  check_limits lo up bigv n w = (Val cl, w') ->
  (Base.len (cl_lower cl) = n /\ Base.len (cl_upper cl) = n) /\
  (Forall (fun v => R.is_finite v = true) (cl_lower cl) /\
   Forall (fun v => R.is_finite v = true) (cl_upper cl)) /\
  (Forall (fun v => In v lo \/ v = R.neg bigv) (cl_lower cl) /\
   Forall (fun v => In v up \/ v = bigv) (cl_upper cl)) /\
  (forall l, lo = [l] -> cl_lower cl = R.rep (lower_bound bigv l) n) /\
  (forall u, up = [u] -> cl_upper cl = R.rep (upper_bound bigv u) n).
Proof.
  intros Hn Hb. unfold check_limits. intros H.
  step H. apply cond_val in Hv. destruct Hv as [Hlo ->].
  destruct v; [apply stop_val in H; contradiction |].
  step H. apply cond_val in Hv. destruct Hv as [Hup ->].
  destruct v; [apply stop_val in H; contradiction |].
  step H. rename v into lo2, Hv into Hlo2.
  step H. rename v into up2, Hv into Hup2.
  done_ret H. cbn [cl_lower cl_upper].
  apply any_map_false in Hlo. apply any_map_false in Hup.
  destruct (@to_length_spec _ _ _ _ _ _ Hn Hlo2) as (Ll & Fl & Sl).
  destruct (@to_length_spec _ _ _ _ _ _ Hn Hup2) as (Lu & Fu & Su).
  repeat split; trivial.
  - apply Fl. apply Forall_map. revert Hlo. apply Forall_impl.
    intros v. apply lower_bound_finite. exact Hb.
  - apply Fu. apply Forall_map. revert Hup. apply Forall_impl.
    intros v. apply upper_bound_finite. exact Hb.
  - apply Fl. apply Forall_map. apply Forall_forall. intros v Hin.
    unfold lower_bound. destruct (R.is_true (R.eq v NInf)); [right | left]; trivial.
  - apply Fu. apply Forall_map. apply Forall_forall. intros v Hin.
    unfold upper_bound. destruct (R.is_true (R.eq v PInf)); [right | left]; trivial.
  - intros l ->. apply Sl. reflexivity.
  - intros u ->. apply Su. reflexivity.
Qed.

(** The settings and the [on.exit] slot when [trace_step] runs are those
    at the start of [glmnet_prepare]. *)
Lemma prepare_reaches_trace_step a e w al w1 w2 jp w3 vp w4 :
  clamp_alpha (alpha a) w = (Val al, w1) ->
  check_response_rows (drop (e_y e)) (e_nobs e) w1 = (Val tt, w2) ->
  exclude_step (exclude a) (e_nvars e) (e_penalty_factor e) w2
    = (Val jp, w3) ->
  first_column (snd jp) w3 = (Val vp, w4) ->
  same_settings w w4.
Proof.
  intros H1 H2 H3 H4.
  apply keeps_clamp_alpha in H1. apply keeps_check_response_rows in H2.
  apply keeps_exclude_step in H3. apply keeps_first_column in H4.
  repeat (eapply same_settings_trans; [eassumption |]). split; reflexivity.
Qed.

(** ** The claims on [alpha], the box constraints and the shape checks *)

(** C9.  An [alpha] outside the unit interval does not make the entry
    point fail: whatever [alpha] is, as long as it is not missing,
    [clamp_alpha] returns, with 1 in place of a value above 1 and 0 in
    place of a value below 0, and with the matching warning.  Whenever the
    family function is reached, the [alpha] handed to it, which is the
    [parm] of the solver, is that value and lies in the unit interval. *)
Theorem alpha_is_clamped a e fam w :
  (R.is_na (alpha a) = false ->
   clamp_alpha (alpha a) w
     = (Val (clamped (alpha a)), warn_all (clamp_warnings (alpha a)) w)) /\
  (forall fc w',
     glmnet_prepare a e fam w = (Val fc, w') ->
     c_alpha fc = clamped (alpha a) /\
     in_unit_interval (c_alpha fc) /\
     forall ka yv off,
       in_unit_interval (s_parm (solver_args fc ka yv off))).
Proof.
  split.
  - apply clamp_alpha_total.
  - intros fc w' H. apply glmnet_prepare_inv in H.
    destruct H as (al & w1 & w2 & jp & w3 & vp & w4 & pt & w5 & cl & w6 & w7
                   & w8 & fl & w9 & kopt & Hal & _ & _ & _ & _ & _ & _ & _ & _
                   & _ & Ealpha & _).
    pose proof (clamp_alpha_val _ _ _ _ Hal) as Hna.
    rewrite clamp_alpha_total in Hal by exact Hna.
    inversion Hal as [[E1 E2]]. rewrite Ealpha, <- E1.
    split; [reflexivity |]. split; [apply clamped_in_unit; exact Hna |].
    intros ka yv off. cbn [solver_args s_parm]. rewrite Ealpha, <- E1.
    apply clamped_in_unit. exact Hna.
Qed.

(** C10.  Whenever the family function is reached from a call that
    started with a finite [big] in the settings, the two rows of [cl] have
    length [nvars] and hold finite values only: each entry is an entry of
    the bound the caller gave, or [-big] in the lower row and [big] in the
    upper row, and a bound of length one is repeated [nvars] times with an
    infinite value replaced by [-big], respectively [big]. *)
Theorem limits_finite_of_length_nvars a w0 e w fam fc w' :
  glmnet_entry a w0 = (Val e, w) ->
  glmnet_prepare a e fam w = (Val fc, w') ->
  R.is_finite (big (ctl w0)) = true ->
  let bigv := big (ctl w0) in
  let cl := c_cl fc in
  let cl_s := s_cl (solver_args fc None (c_y fc) None) in
  cl_s = cl /\
  (Base.len (cl_lower cl) = c_nvars fc /\ Base.len (cl_upper cl) = c_nvars fc) /\
  (Forall (fun v => R.is_finite v = true) (cl_lower cl) /\
   Forall (fun v => R.is_finite v = true) (cl_upper cl)) /\
  (Forall (fun v => In v (lower_limits a) \/ v = R.neg bigv) (cl_lower cl) /\
   Forall (fun v => In v (upper_limits a) \/ v = bigv) (cl_upper cl)) /\
  (forall l, lower_limits a = [l] ->
             cl_lower cl = R.rep (lower_bound bigv l) (c_nvars fc)) /\
  (forall u, upper_limits a = [u] ->
             cl_upper cl = R.rep (upper_bound bigv u) (c_nvars fc)).
Proof.
  intros He Hp Hb bigv cl cl_s.
  apply glmnet_entry_inv in He. destruct He as (_ & Hn & _ & _ & Hs0).
  apply glmnet_prepare_inv in Hp.
  destruct Hp as (al & w1 & w2 & jp & w3 & vp & w4 & pt & w5 & cl' & w6 & w7
                  & w8 & fl & w9 & kopt & Hal & Hrows & Hex & Hvp & Htr & Hcl
                  & _ & _ & _ & _ & _ & _ & _ & Ecl & _ & _ & _ & _ & Env & _).
  pose proof (prepare_reaches_trace_step _ _ _ _ _ _ _ _ _ _ Hal Hrows Hex Hvp)
    as [Hc _].
  apply trace_step_parms in Htr.
  assert (big (fst pt) = bigv) as Ebig.
  { subst bigv. rewrite Htr, Hc. destruct Hs0 as [-> _]. reflexivity. }
  rewrite Ebig in Hcl.
  split; [reflexivity |].
  subst cl. rewrite Ecl, Env.
  assert (1 <= e_nvars e)%Z as Hn1 by lia.
  apply (check_limits_spec _ _ _ _ _ _ _ Hn1 Hb Hcl).
Qed.

(** C7, as the code has it.  Whenever the family function is reached, [x]
    holds no missing value, supplied weights have length [nobs] and are
    passed on as they are, and the response passed on has [nobs] rows,
    [nobs] being the first extent of [x]. *)
Theorem shape_checks_before_solver a w0 e w fam fc w' :
  glmnet_entry a w0 = (Val e, w) ->
  glmnet_prepare a e fam w = (Val fc, w') ->
  (exists np, a_dim (x_val (x a)) = Some np /\ c_nobs fc = nth 0 np 0%Z) /\
  Forall (fun v => R.is_na v = false) (a_data (x_val (c_x fc))) /\
  (forall v, weights a = Some v ->
             c_weights fc = v /\ Base.len v = c_nobs fc) /\
  nrow_y (c_y fc) = c_nobs fc.
Proof.
  intros He Hp.
  apply glmnet_entry_inv in He. destruct He as (Hd & _ & Hx & Hw & _).
  apply glmnet_prepare_inv in Hp.
  destruct Hp as (al & w1 & w2 & jp & w3 & vp & w4 & pt & w5 & cl' & w6 & w7
                  & w8 & fl & w9 & kopt & _ & Hrows & _ & _ & _ & _
                  & _ & _ & _ & _ & _ & Ey & Ew & _ & _ & _ & _ & Eno & _
                  & Ex & _).
  rewrite Eno, Ex, Ey, Ew.
  split; [| split; [exact Hx | split]].
  - destruct Hd as (np & E1 & E2 & _). exists np. split; assumption.
  - intros v Hv. rewrite Hv in Hw. exact Hw.
  - unfold check_response_rows in Hrows.
    destruct (negb (nrow_y (drop (e_y e)) =? e_nobs e)%Z) eqn:E;
      [apply stop_val in Hrows; contradiction |].
    apply negb_false_iff, Z.eqb_eq in E. exact E.
Qed.

(** ** Sorting *)

Section SortFacts.
Variable A : Type.
Variable leb : A -> A -> bool.
Hypothesis leb_total : forall a b, leb a b = false -> leb b a = true.

Let le_ (a b : A) : Prop := leb a b = true.

Lemma insert_permutation a l : Permutation (a :: l) (Base.insert leb a l).
Proof.
  induction l as [| b l IH]; simpl; [apply Permutation_refl |].
  destruct (leb a b); [apply Permutation_refl |].
  eapply perm_trans; [apply perm_swap | apply perm_skip; exact IH].
Qed.

Lemma isort_permutation l : Permutation l (Base.isort leb l).
Proof.
  induction l as [| a l IH]; simpl; [apply perm_nil |].
  eapply perm_trans; [apply perm_skip; exact IH | apply insert_permutation].
Qed.

Lemma insert_hd_rel a b l :
  HdRel le_ b l -> le_ b a -> HdRel le_ b (Base.insert leb a l).
Proof.
  intros Hl Hba. destruct l as [| c l]; simpl; [constructor; exact Hba |].
  destruct (leb a c); constructor; [exact Hba |].
  inversion Hl; assumption.
Qed.

Lemma insert_sorted a l : Sorted le_ l -> Sorted le_ (Base.insert leb a l).
Proof.
  induction l as [| b l IH]; simpl; intros Hs.
  - repeat constructor.
  - destruct (leb a b) eqn:E.
    + constructor; [exact Hs | constructor; exact E].
    + inversion Hs as [| ? ? Hs' Hhd]; subst.
      constructor; [apply IH; exact Hs' |].
      apply insert_hd_rel; [exact Hhd | apply leb_total; exact E].
Qed.

Lemma isort_sorted l : Sorted le_ (Base.isort leb l).
Proof.
  induction l as [| a l IH]; simpl; [constructor | apply insert_sorted; exact IH].
Qed.
End SortFacts.

Section OrderFacts.
Variable A : Type.

Lemma sorted_snoc (Rel : A -> A -> Prop) l a :
  Sorted Rel l -> HdRel (fun x y => Rel y x) a (rev l) ->
  Sorted Rel (l ++ [a]).
Proof.
  induction l as [| b l IH]; simpl; intros Hs Hhd.
  - repeat constructor.
  - inversion Hs as [| ? ? Hs' Hb]; subst. constructor.
    + apply IH; [exact Hs' |].
      destruct (rev l) as [| c r]; [constructor |].
      simpl in Hhd. inversion Hhd; subst. constructor. assumption.
    + destruct l as [| c l]; simpl.
      * simpl in Hhd. inversion Hhd; subst. constructor. assumption.
      * inversion Hb; subst. constructor. assumption.
Qed.

Lemma sorted_rev (Rel : A -> A -> Prop) l :
  Sorted Rel l -> Sorted (fun x y => Rel y x) (rev l).
Proof.
  induction 1 as [| a l Hs IH Hhd]; simpl; [constructor |].
  apply sorted_snoc; [exact IH |].
  rewrite rev_involutive. destruct Hhd; constructor; assumption.
Qed.

Lemma sorted_strengthen (R1 R2 : A -> A -> Prop) (P : A -> Prop) l :
  (forall a b, P a -> P b -> R1 a b -> R2 a b) ->
  Forall P l -> Sorted R1 l -> Sorted R2 l.
Proof.
  intros Himp HP Hs. induction Hs as [| a l Hs IH Hhd]; [constructor |].
  inversion HP as [| ? ? Pa Pl]; subst. constructor; [apply IH; exact Pl |].
  destruct Hhd as [| b l Hab]; constructor.
  inversion Pl; subst. apply Himp; assumption.
Qed.

Lemma ordpairs_permutation (Rel : A -> A -> Prop) l l' :
  (forall a b, Rel a b -> Rel b a) ->
  Permutation l l' -> ForallOrdPairs Rel l -> ForallOrdPairs Rel l'.
Proof.
  intros Hsym Hp. induction Hp as [| x l l' Hp IH | x y l | l l' l'' _ IH1 _ IH2];
    intros H.
  - exact H.
  - inversion H as [| ? ? Hx Hl]; subst. constructor; [| apply IH; exact Hl].
    eapply Permutation_Forall; eassumption.
  - inversion H as [| ? ? Hy Hxl]; subst.
    inversion Hxl as [| ? ? Hx Hl]; subst.
    inversion Hy as [| ? ? Hyx Hyl]; subst.
    constructor; [constructor; [apply Hsym; exact Hyx | exact Hx] |].
    constructor; assumption.
  - apply IH2, IH1, H.
Qed.

Lemma sorted_ordpairs (R1 R2 R3 : A -> A -> Prop) l :
  (forall a b, R1 a b -> R2 a b -> R3 a b) ->
  Sorted R1 l -> ForallOrdPairs R2 l -> Sorted R3 l.
Proof.
  intros Himp Hs. induction Hs as [| a l Hs IH Hhd]; intros Hd; [constructor |].
  inversion Hd as [| ? ? Ha Hl]; subst. constructor; [apply IH; exact Hl |].
  destruct Hhd as [| b l Hab]; constructor.
  inversion Ha; subst. apply Himp; assumption.
Qed.
End OrderFacts.

(** The order of doubles, for values that are not missing. *)
Lemma dbl_leb_total a b : Base.dbl_leb a b = false -> Base.dbl_leb b a = true.
Proof.
  unfold Base.dbl_leb.
  destruct a as [p | | |], b as [q | | |]; cbn; try discriminate; try reflexivity.
  unfold R.Qlt_bool. destruct (Qle_bool p q) eqn:E1; cbn; [discriminate |].
  intros _. destruct (Qle_bool q p) eqn:E2; [reflexivity |].
  exfalso.
  assert (~ p <= q) as N1 by (rewrite <- Qle_bool_iff; congruence).
  assert (~ q <= p) as N2 by (rewrite <- Qle_bool_iff; congruence).
  apply N1. apply Qlt_le_weak. apply Qnot_le_lt. exact N2.
Qed.

Lemma dbl_leb_ge a b :
  R.is_na a = false -> R.is_na b = false ->
  Base.dbl_leb a b = true -> R.ge b a = Some true.
Proof.
  unfold Base.dbl_leb, R.ge.
  destruct a as [p | | |], b as [q | | |]; cbn; try discriminate; try reflexivity.
  intros _ _ H. destruct (R.Qlt_bool q p); [discriminate H | reflexivity].
Qed.

Lemma ge_ne_gt a b :
  R.ge a b = Some true -> R.eq a b = Some false -> R.gt a b = Some true.
Proof.
  unfold R.ge, R.gt.
  destruct a as [p | | |], b as [q | | |]; cbn; try discriminate; try reflexivity.
  unfold R.Qlt_bool. intros H1 H2. f_equal.
  injection H1 as E1. injection H2 as E2.
  rewrite negb_involutive in E1.
  apply Qle_bool_iff in E1.
  destruct (Qle_bool p q) eqn:E3; [| reflexivity]. exfalso.
  apply Qle_bool_iff in E3.
  assert (p == q) as E by (apply Qle_antisym; assumption).
  apply Qeq_bool_iff in E. congruence.
Qed.

Lemma eq_false_sym a b : R.eq a b = Some false -> R.eq b a = Some false.
Proof.
  destruct a as [p | | |], b as [q | | |]; cbn; try discriminate; try reflexivity.
  intros H. f_equal. injection H as E.
  destruct (Qeq_bool q p) eqn:E'; [| reflexivity].
  apply Qeq_bool_iff in E'. symmetry in E'. apply Qeq_bool_iff in E'. congruence.
Qed.

Lemma filter_all {A : Type} (f : A -> bool) (l : list A) :
  Forall (fun a => f a = true) l -> filter f l = l.
Proof.
  induction 1 as [| a l Ha _ IH]; simpl; [reflexivity |].
  rewrite Ha, IH. reflexivity.
Qed.

(** [rev(sort(l))] on values that are not missing: a rearrangement of [l]
    in which no value is followed by a larger one, nor by an equal one
    when the values of [l] differ from one another. *)
Lemma rev_sort_spec l :
  Forall (fun v => R.is_na v = false) l ->
  Permutation l (rev (Base.sort l)) /\
  descending (rev (Base.sort l)) /\
  (distinct l -> strictly_descending (rev (Base.sort l))).
Proof.
  intros Hna.
  assert (Base.sort l = Base.isort Base.dbl_leb l) as E.
  { unfold Base.sort. rewrite filter_all; [reflexivity |].
    revert Hna. apply Forall_impl. intros a ->. reflexivity. }
  rewrite E.
  assert (Permutation l (rev (Base.isort Base.dbl_leb l))) as Hp.
  { eapply perm_trans; [apply isort_permutation | apply Permutation_rev]. }
  assert (descending (rev (Base.isort Base.dbl_leb l))) as Hd.
  { unfold descending.
    apply sorted_strengthen
      with (R1 := fun x y => Base.dbl_leb y x = true)
           (P := fun v => R.is_na v = false).
    - intros a b Ha Hb Hab. apply dbl_leb_ge; assumption.
    - eapply Permutation_Forall; eassumption.
    - apply (sorted_rev _ (fun x y => Base.dbl_leb x y = true)).
      apply isort_sorted. exact dbl_leb_total. }
  split; [exact Hp |]. split; [exact Hd |].
  intros Hdis. unfold strictly_descending.
  apply sorted_ordpairs
    with (R1 := fun a b => R.ge a b = Some true)
         (R2 := fun a b => R.eq a b = Some false).
  - intros a b. apply ge_ne_gt.
  - exact Hd.
  - eapply ordpairs_permutation; [exact eq_false_sym | exact Hp | exact Hdis].
Qed.

(** ** The λ sequence *)

Lemma lambda_step_supplied a nobs nvars nlam w fl w' l :
  lambda a = Some l ->
  lambda_step a nobs nvars nlam w = (Val fl, w') ->
  fl = (R.one, rev (Base.sort l), Base.len l) /\
  Forall (fun v => R.lt v R.zero = Some false) l.
Proof.
  unfold lambda_step. intros -> H.
  step H. apply cond_val in Hv. destruct Hv as [Hneg ->].
  destruct v; [apply stop_val in H; contradiction |].
  done_ret H. split; [reflexivity |].
  apply any_map_false in Hneg. exact Hneg.
Qed.

Lemma lambda_step_computed a nobs nvars nlam w fl w' :
  lambda a = None ->
  lambda_step a nobs nvars nlam w = (Val fl, w') ->
  fl = (resolve_lambda_min_ratio a nobs nvars, [R.zero], nlam) /\
  R.lt (resolve_lambda_min_ratio a nobs nvars) R.one = Some true.
Proof.
  unfold lambda_step. intros -> H. cbv zeta in H.
  step H. apply cond_val in Hv. destruct Hv as [Hge ->].
  destruct v; [apply stop_val in H; contradiction |].
  done_ret H. split; [reflexivity |].
  unfold R.ge in Hge. destruct (R.lt _ R.one) as [[|]|]; cbn in Hge;
    try discriminate Hge. reflexivity.
Qed.

Lemma not_negative v :
  R.lt v R.zero = Some false -> R.is_na v = false /\ R.ge v R.zero = Some true.
Proof.
  unfold R.ge. intros H. rewrite H.
  destruct v; try discriminate H; split; reflexivity.
Qed.

(** ** The grid *)

Lemma Qpower_nat_succ (a : Q) (k : nat) :
  ~ a == 0 -> a ^ Z.of_nat (S k) == a ^ Z.of_nat k * a.
Proof.
  intros Ha. rewrite Nat2Z.inj_succ. unfold Z.succ.
  rewrite Qpower_plus by exact Ha. rewrite Qpower_1_r. reflexivity.
Qed.

Lemma Qpower_nat_le_1 (a : Q) (k : nat) :
  0 < a -> a <= 1 -> a ^ Z.of_nat k <= 1.
Proof.
  intros H0 H1. induction k as [| k IH].
  - simpl. apply Qle_refl.
  - rewrite Qpower_nat_succ by (intros E; rewrite E in H0; discriminate H0).
    assert (0 <= a ^ Z.of_nat k) as Hp
      by (apply Qpower_0_le, Qlt_le_weak, H0).
    apply Qle_trans with (1 * a).
    + apply Qmult_le_compat_r; [exact IH | apply Qlt_le_weak, H0].
    + rewrite Qmult_1_l. exact H1.
Qed.

Lemma Qpower_nat_antitone (a : Q) (k m : nat) :
  0 < a -> a <= 1 -> (k <= m)%nat -> a ^ Z.of_nat m <= a ^ Z.of_nat k.
Proof.
  intros H0 H1 Hkm.
  replace (Z.of_nat m) with (Z.of_nat k + Z.of_nat (m - k))%Z by lia.
  rewrite Qpower_plus by (intros E; rewrite E in H0; discriminate H0).
  rewrite <- (Qmult_1_r (a ^ Z.of_nat k)) at 2.
  rewrite !(Qmult_comm (a ^ Z.of_nat k)).
  apply Qmult_le_compat_r; [apply Qpower_nat_le_1; assumption |].
  apply Qpower_0_le, Qlt_le_weak, H0.
Qed.

(** A ratio whose power is below 1 is itself below 1. *)
Lemma ratio_below_1 (a : Q) (n : Z) :
  0 < a -> (0 <= n)%Z -> a ^ n < 1 -> a <= 1.
Proof.
  intros H0 Hn Hp. apply Qnot_lt_le. intros H1.
  apply Qlt_le_weak in H1. pose proof (Qpower_1_le a n H1 Hn) as H.
  apply (Qlt_irrefl 1). eapply Qle_lt_trans; eassumption.
Qed.

Lemma ge_fin (p q : Q) : R.ge (Fin p) (Fin q) = Some true <-> q <= p.
Proof.
  unfold R.ge. cbn. unfold R.Qlt_bool. rewrite negb_involutive.
  rewrite <- Qle_bool_iff. split; [intros H; injection H; trivial | intros ->; reflexivity].
Qed.

Lemma lt_fin (p q : Q) : R.lt (Fin p) (Fin q) = Some true <-> p < q.
Proof.
  cbn. unfold R.Qlt_bool. split.
  - intros H. injection H as H. apply negb_true_iff in H.
    apply Qnot_le_lt. rewrite <- Qle_bool_iff. congruence.
  - intros H. f_equal. apply negb_true_iff.
    destruct (Qle_bool q p) eqn:E; [| reflexivity].
    apply Qle_bool_iff in E. exfalso. apply (Qlt_irrefl p).
    eapply Qlt_le_trans; eassumption.
Qed.

Lemma eq_fin (p q : Q) : R.eq (Fin p) (Fin q) = Some true <-> p == q.
Proof.
  cbn. rewrite <- Qeq_bool_iff.
  split; [intros H; injection H; trivial | intros ->; reflexivity].
Qed.

(** The geometric grid: its first value is [lmax], its last value is
    [lmax * alf^(n-1)], and with a ratio in (0, 1] no value is below the
    last. *)
Lemma geometric_first lmax alf n :
  (1 <= n)%nat -> exists q, hd_error (geometric lmax alf n) = Some q /\ q == lmax.
Proof.
  intros Hn. destruct n as [| n]; [lia |].
  unfold geometric. simpl. eexists. split; [reflexivity |]. ring.
Qed.

Lemma geometric_last lmax alf n d :
  (1 <= n)%nat ->
  last (geometric lmax alf n) d = lmax * alf ^ Z.of_nat (n - 1).
Proof.
  intros Hn. destruct n as [| n]; [lia |].
  unfold geometric. rewrite seq_S, map_app. simpl.
  rewrite last_last. replace (n - 0)%nat with n by lia. reflexivity.
Qed.

Lemma geometric_lower_bound lmax alf n :
  0 < lmax -> 0 < alf -> alf <= 1 ->
  Forall (fun v => lmax * alf ^ Z.of_nat (n - 1) <= v) (geometric lmax alf n).
Proof.
  intros Hl H0 H1. unfold geometric. apply Forall_map, Forall_forall.
  intros k Hk. apply in_seq in Hk.
  rewrite !(Qmult_comm lmax).
  apply Qmult_le_compat_r; [| apply Qlt_le_weak, Hl].
  apply Qpower_nat_antitone; [assumption | assumption | lia].
Qed.

Lemma last_map {A B : Type} (f : A -> B) (l : list A) (d : A) (d' : B) :
  l <> [] -> last (map f l) d' = f (last l d).
Proof.
  induction l as [| a l IH]; [congruence |]. intros _.
  destruct l as [| b l]; [reflexivity |].
  change (last (map f (b :: l)) d' = f (last (b :: l) d)).
  apply IH. discriminate.
Qed.

Lemma supplied_by_flmin_one fc ka yv off :
  c_flmin fc = R.one -> supplied (solver_args fc ka yv off) = true.
Proof. unfold supplied. cbn [solver_args s_flmin]. intros ->. reflexivity. Qed.

Lemma computed_by_flmin_below_one si :
  R.lt (s_flmin si) R.one = Some true -> supplied si = false.
Proof. unfold supplied, R.ge. intros ->. reflexivity. Qed.

(** ** The claims on the λ sequence and on the Gaussian mode *)

(** C3, as the code has it.  For a supplied λ sequence that reaches the
    family function, no value is negative or missing, [ulam] is a
    rearrangement of the supplied values in which no value is followed by
    a larger one (equal values are kept, so the order is strict only when
    the supplied values differ from one another), [flmin] is 1, [nlam] is
    the number of supplied values, and the grid of the path solver is
    [ulam] itself. *)
Theorem supplied_lambda_sorted a e fam w fc w' l :
  lambda a = Some l ->
  glmnet_prepare a e fam w = (Val fc, w') ->
  Forall (fun v => R.ge v R.zero = Some true) l /\
  Permutation l (c_ulam fc) /\
  descending (c_ulam fc) /\
  (distinct l -> strictly_descending (c_ulam fc)) /\
  c_flmin fc = R.one /\
  c_nlam fc = Base.len l /\
  forall lmax alf ka yv off,
    path_grid lmax alf (solver_args fc ka yv off) = c_ulam fc.
Proof.
  intros Hl Hp. apply glmnet_prepare_inv in Hp.
  destruct Hp as (al & w1 & w2 & jp & w3 & vp & w4 & pt & w5 & cl & w6 & w7
                  & w8 & fl & w9 & kopt & _ & _ & _ & _ & _ & _ & _ & _ & Hlam
                  & _ & _ & _ & _ & _ & Efl & Eul & Enl & _).
  destruct (lambda_step_supplied _ _ _ _ _ _ _ _ Hl Hlam) as [-> Hneg].
  cbn [fst snd] in Efl, Eul, Enl.
  assert (Forall (fun v => R.is_na v = false) l) as Hna.
  { revert Hneg. apply Forall_impl. intros v Hv. apply not_negative, Hv. }
  destruct (rev_sort_spec l Hna) as (Hperm & Hdesc & Hstrict).
  rewrite Eul, Efl, Enl.
  split; [| repeat split; trivial].
  - revert Hneg. apply Forall_impl. intros v Hv. apply not_negative, Hv.
  - intros lmax alf ka yv off. unfold path_grid.
    rewrite supplied_by_flmin_one by exact Efl.
    cbn [solver_args s_ulam]. exact Eul.
Qed.

(** C2, as the code has it.  When no λ sequence is supplied and the family
    function is reached, [flmin] is [lambda.min.ratio], by default 1e-2
    when [nobs < nvars] and 1e-4 otherwise, and it is below 1; the grid the
    path solver spans with it from a positive [λ_max] ends in
    [flmin · λ_max], and no grid value is smaller. *)
Theorem smallest_lambda_and_default_ratio a e fam w fc w' :
  lambda a = None ->
  glmnet_prepare a e fam w = (Val fc, w') ->
  c_flmin fc = match lambda_min_ratio a with
               | Some r => r
               | None => if (c_nobs fc <? c_nvars fc)%Z
                         then Fin (1 # 100) else Fin (1 # 10000)
               end /\
  R.lt (c_flmin fc) R.one = Some true /\
  forall lmax alf ratio ka yv off,
    0 < lmax ->
    spans alf (solver_args fc ka yv off) ratio ->
    let g := path_grid lmax alf (solver_args fc ka yv off) in
    R.eq (last g NA) (Fin (ratio * lmax)) = Some true /\
    Forall (fun v => R.ge v (Fin (ratio * lmax)) = Some true) g.
Proof.
  intros Hl Hp. apply glmnet_prepare_inv in Hp.
  destruct Hp as (al & w1 & w2 & jp & w3 & vp & w4 & pt & w5 & cl & w6 & w7
                  & w8 & fl & w9 & kopt & _ & _ & _ & _ & _ & _ & _ & _ & Hlam
                  & _ & _ & _ & _ & _ & Efl & _ & _ & Eno & Env & _).
  destruct (lambda_step_computed _ _ _ _ _ _ _ Hl Hlam) as [-> Hlt].
  cbn [fst snd] in Efl. rewrite Efl, Eno, Env.
  split; [reflexivity |]. split; [exact Hlt |].
  intros lmax alf ratio ka yv off Hmax (Hfl & Hn & Half & Hpow) g.
  cbn [solver_args s_flmin s_nlam] in Hfl, Hn, Hpow.
  rewrite Efl in Hfl. rewrite Hfl in Hlt. apply lt_fin in Hlt.
  subst g. unfold path_grid.
  rewrite computed_by_flmin_below_one
    by (cbn [solver_args s_flmin]; rewrite Efl, Hfl; apply lt_fin; exact Hlt).
  cbn [solver_args s_nlam].
  set (n := Z.to_nat (c_nlam fc)).
  assert (1 <= n)%nat as Hn1 by (subst n; lia).
  assert (Z.of_nat (n - 1) = c_nlam fc - 1)%Z as En by (subst n; lia).
  assert (alf <= 1) as Hle.
  { apply ratio_below_1 with (n := (c_nlam fc - 1)%Z);
      [exact Half | lia | rewrite Hpow; exact Hlt]. }
  assert (geometric lmax alf n <> []) as Hne.
  { unfold geometric. destruct n; [lia | discriminate]. }
  split.
  - rewrite (last_map Fin _ 0 NA Hne), (geometric_last _ _ _ _ Hn1), En.
    apply eq_fin. rewrite Hpow. ring.
  - apply Forall_map.
    pose proof (geometric_lower_bound lmax alf n Hmax Half Hle) as Hlow.
    revert Hlow. apply Forall_impl. intros v Hv. apply ge_fin.
    rewrite En, Hpow in Hv. rewrite Qmult_comm. exact Hv.
Qed.

Lemma pmatch_in s choices c :
  Base.pmatch s choices = Some c -> In c choices.
Proof.
  unfold Base.pmatch. destruct (String.eqb s EmptyString); [discriminate |].
  destruct (filter (String.eqb s) choices) as [| c1 r] eqn:E1.
  - destruct (filter (String.prefix s) choices) as [| c2 [| c3 r]] eqn:E2;
      try discriminate.
    intros H. injection H as <-.
    assert (In c2 (filter (String.prefix s) choices)) as Hin
      by (rewrite E2; left; reflexivity).
    apply filter_In in Hin. apply Hin.
  - intros H. injection H as <-.
    assert (In c1 (filter (String.eqb s) choices)) as Hin
      by (rewrite E1; left; reflexivity).
    apply filter_In in Hin. apply Hin.
Qed.

(** C4, as the code has it.  The mode handed to [elnet] is the caller's
    [type.gaussian] when there is one and otherwise "covariance" when
    [nvars < 500] and "naive" when not, whether [x] is sparse or dense;
    [elnet] hands the solver [ka = 1] for the covariance mode and [ka = 2]
    for the naive mode. *)
Theorem gaussian_mode_default_and_ka a e fam w fc w' :
  glmnet_prepare a e fam w = (Val fc, w') ->
  let tg := match type_gaussian a with
            | Some s => s
            | None => if (c_nvars fc <? 500)%Z
                      then "covariance"%string else "naive"%string
            end in
  c_type_gaussian fc = Some tg /\
  forall w1 s w2,
    elnet_setup fc w1 = (Val s, w2) ->
    (Base.pmatch tg ["covariance"; "naive"]%string = Some "covariance"%string /\
     s_ka (fst (fst s)) = Some 1%Z) \/
    (Base.pmatch tg ["covariance"; "naive"]%string = Some "naive"%string /\
     s_ka (fst (fst s)) = Some 2%Z).
Proof.
  intros Hp tg. apply glmnet_prepare_inv in Hp.
  destruct Hp as (al & w1 & w2 & jp & w3 & vp & w4 & pt & w5 & cl & w6 & w7
                  & w8 & fl & w9 & kopt & _ & _ & _ & _ & _ & _ & _ & _ & _
                  & _ & _ & _ & _ & _ & _ & _ & _ & _ & Env & _ & _ & Etg & _).
  assert (c_type_gaussian fc = Some tg) as E.
  { rewrite Etg. subst tg. rewrite Env. reflexivity. }
  split; [exact E |].
  intros wa s wb Hs. unfold elnet_setup in Hs. rewrite E in Hs.
  step Hs. rename v into ka, Hv into Hka.
  step Hs. step Hs. apply cond_val in Hv0. destruct Hv0 as [_ ->].
  destruct v0; [apply stop_val in Hs; contradiction |].
  done_ret Hs. cbn [fst snd solver_args s_ka].
  unfold gaussian_mode, Base.match_arg in Hka.
  destruct (Base.pmatch tg ["covariance"; "naive"]%string) as [c |] eqn:Epm;
    [| step Hka; apply stop_val in Hv0; contradiction].
  step Hka. done_ret Hv0. done_ret Hka.
  apply pmatch_in in Epm as Hin.
  destruct Hin as [<- | [<- | []]]; [left | right]; split; reflexivity.
Qed.

(** ** The null deviance *)

Lemma vec2_same_length {A B C : Type} (f : A -> B -> C) xs ys dx dy :
  List.length xs = List.length ys ->
  R.vec2 f xs ys
  = map (fun i => f (nth i xs dx) (nth i ys dy)) (seq 0 (List.length xs)).
Proof.
  intros Hlen. destruct xs as [| x0 xs], ys as [| y0 ys];
    try discriminate Hlen; [reflexivity |].
  unfold R.vec2. rewrite <- Hlen, Nat.max_id.
  apply map_ext_in. intros i Hi. apply in_seq in Hi.
  rewrite Nat.mod_small by lia.
  rewrite (nth_indep (x0 :: xs) x0 dx) by lia.
  rewrite (nth_indep (y0 :: ys) y0 dy) by (rewrite <- Hlen; lia).
  reflexivity.
Qed.

Lemma sum_seq (h : nat -> dbl) (n : nat) :
  R.sum (map h (seq 0 n)) = big_sum n h.
Proof.
  unfold R.sum. induction n as [| n IH]; [reflexivity |].
  rewrite seq_S, map_app, fold_left_app, IH. reflexivity.
Qed.

Lemma big_sum_ext (f g : nat -> dbl) (n : nat) :
  (forall i, f i = g i) -> big_sum n f = big_sum n g.
Proof.
  intros H. induction n as [| n IH]; [reflexivity |].
  simpl. rewrite IH, H. reflexivity.
Qed.

(** The value [elnet] computes is the sum written in the spec, term by
    term and in the same order, when [weights] and the response have the
    same length (no recycling). *)
Lemma null_deviance_is_weighted_ss wv yv ybar :
  List.length wv = List.length yv ->
  null_deviance wv yv ybar = weighted_ss wv yv ybar.
Proof.
  intros Hlen. unfold null_deviance, weighted_ss.
  rewrite (vec2_same_length R.mul wv _ NA (R.sq (R.sub NA ybar)))
    by (rewrite length_map; exact Hlen).
  rewrite sum_seq, Hlen. apply big_sum_ext. intros i.
  rewrite (map_nth (fun v => R.sq (R.sub v ybar))). reflexivity.
Qed.

(** ** The family functions and the whole call *)

Lemma keeps_weighted_mean xv wv : keeps_ctl (weighted_mean xv wv).
Proof. unfold weighted_mean. keeps. Qed.

Lemma keeps_gaussian_mode tg : keeps_ctl (gaussian_mode tg).
Proof. unfold gaussian_mode. keeps. Qed.

Lemma keeps_elnet_setup fc : keeps_ctl (elnet_setup fc).
Proof.
  unfold elnet_setup. apply keeps_bind; [apply keeps_gaussian_mode |].
  intros ka. cbv zeta. apply keeps_bind.
  - apply keeps_if; [apply keeps_weighted_mean | apply keeps_ret].
  - intros ybar. keeps.
Qed.

Lemma keeps_fishnet_setup fc : keeps_ctl (fishnet_setup fc).
Proof.
  unfold fishnet_setup. apply keeps_bind; [keeps |]. intros [|]; [keeps |].
  destruct (c_offset fc); keeps.
Qed.

Lemma keeps_first_lmu v n : keeps_ctl (first_lmu v n).
Proof. unfold first_lmu. destruct (R.index _ _ _); keeps. Qed.

(** A step that returns without touching the world at all. *)
Lemma match_arg_world arg choices w r w' :
  Base.match_arg arg choices w = (r, w') -> w' = w.
Proof.
  unfold Base.match_arg. destruct arg as [s |].
  - destruct (Base.pmatch s choices); intros H; inversion H; reflexivity.
  - intros H. inversion H. reflexivity.
Qed.

Lemma gaussian_mode_world tg w r w' :
  gaussian_mode tg w = (r, w') -> w' = w.
Proof.
  unfold gaussian_mode, bind.
  destruct (Base.match_arg tg _ w) as [[s | m] w1] eqn:E;
    apply match_arg_world in E; subst w1; intros H; inversion H; reflexivity.
Qed.

Lemma weighted_mean_world xv wv w r w' :
  weighted_mean xv wv w = (r, w') -> w' = w.
Proof.
  unfold weighted_mean. destruct (negb _); intros H; inversion H; reflexivity.
Qed.

(** *** The override of [fdev] *)

Section Override.
Variable P : world -> Prop.
Hypothesis P_stable : forall w w', same_settings w w' -> P w -> P w'.

Lemma overrides_of_keeps {A : Type} (m : M A) :
  keeps_ctl m -> overrides_from P m.
Proof. intros Hm w r w' _ H. left. exact (Hm _ _ _ H). Qed.

Lemma overridden_after_same w w1 w' :
  same_settings w w1 -> fdev_overridden w1 w' -> fdev_overridden w w'.
Proof.
  intros [E1 E2] [[E3 E4] | [E3 E4]]; [left | right]; split; congruence.
Qed.

Lemma overridden_then_same w w1 w' :
  fdev_overridden w w1 -> same_settings w1 w' -> fdev_overridden w w'.
Proof.
  intros [[E3 E4] | [E3 E4]] [E1 E2]; [left | right]; split; congruence.
Qed.

Lemma overrides_bind_l {A B : Type} (m : M A) (k : A -> M B) :
  keeps_from P m -> (forall a, overrides_from P (k a)) ->
  overrides_from P (bind m k).
Proof.
  intros Hm Hk w r w' HP H. unfold bind in H.
  destruct (m w) as [[a | s] w1] eqn:E; pose proof (Hm _ _ _ HP E) as Hs.
  - apply overridden_after_same with w1; [exact Hs |].
    apply (Hk a _ _ _ (P_stable _ _ Hs HP) H).
  - inversion H; subst. left. exact Hs.
Qed.

Lemma overrides_bind_r {A B : Type} (m : M A) (k : A -> M B) :
  overrides_from P m -> (forall a, keeps_ctl (k a)) ->
  overrides_from P (bind m k).
Proof.
  intros Hm Hk w r w' HP H. unfold bind in H.
  destruct (m w) as [[a | s] w1] eqn:E; pose proof (Hm _ _ _ HP E) as Hs.
  - apply overridden_then_same with w1; [exact Hs |]. exact (Hk a _ _ _ H).
  - inversion H; subst. exact Hs.
Qed.

Lemma keeps_from_keeps {A : Type} (m : M A) : keeps_ctl m -> keeps_from P m.
Proof. intros Hm w r w' _ H. exact (Hm _ _ _ H). Qed.
End Override.

(** [fdev_step] overrides [fdev] or does nothing. *)
Lemma fdev_step_overrides cl w r w' :
  fdev_step cl w = (r, w') -> fdev_overridden w w'.
Proof.
  unfold fdev_step, bind, get_control, update_control, on_exit, when.
  destruct (cond _ w) as [[z | s] w1] eqn:Ez; apply keeps_cond in Ez as Hs.
  - destruct z.
    + destruct (cond (R.ne (fdev (ctl w1)) R.zero) w1)
        as [[nz | s] w2] eqn:En; apply cond_world in En; subst w2.
      * destruct nz; cbn; intros H; inversion H; subst; clear H.
        -- right. destruct Hs as [E1 E2]. cbn. rewrite E1. split; reflexivity.
        -- left. exact Hs.
      * intros H. inversion H; subst. left. exact Hs.
    + intros H. inversion H; subst. left. exact Hs.
  - intros H. inversion H; subst. left. exact Hs.
Qed.

(** With a bound equal to zero and a nonzero [fdev], the steps after
    [fdev_step] run with [fdev = 0] and all other settings as before. *)
Lemma fdev_step_zero cl w w' :
  fdev_step cl w = (Val tt, w') ->
  R.any (map (fun v => R.eq v R.zero) (cl_entries cl)) = Some true ->
  R.ne (fdev (ctl w)) R.zero = Some true ->
  ctl w' = set_fdev R.zero (ctl w).
Proof.
  unfold fdev_step, bind, get_control, update_control, on_exit, when.
  intros H Hany Hne. rewrite Hany in H. cbn in H. rewrite Hne in H. cbn in H.
  inversion H. reflexivity.
Qed.

Lemma untraced_stable t w w' : same_settings w w' -> untraced t w -> untraced t w'.
Proof. unfold untraced. intros [-> _]. trivial. Qed.

Lemma keeps_trace_step t : keeps_from (untraced t) (trace_step t).
Proof.
  intros w r w' HP. unfold trace_step, bind, get_control, untraced in *.
  destruct (negb (itrace (ctl w) =? 0)%Z) eqn:E1; cbn.
  - intros H. inversion H. split; reflexivity.
  - rewrite orb_false_r in HP. rewrite HP. cbn.
    intros H. inversion H. split; reflexivity.
Qed.

Lemma prepare_overrides a e fam :
  overrides_from (untraced (trace_it a)) (glmnet_prepare a e fam).
Proof.
  pose proof (untraced_stable (trace_it a)) as St.
  unfold glmnet_prepare.
  apply overrides_bind_l; [exact St | apply keeps_from_keeps, keeps_clamp_alpha |].
  intros al.
  apply overrides_bind_l;
    [exact St | apply keeps_from_keeps, keeps_check_response_rows |].
  intros _.
  apply overrides_bind_l; [exact St | apply keeps_from_keeps, keeps_exclude_step |].
  intros jp.
  apply overrides_bind_l; [exact St | apply keeps_from_keeps, keeps_first_column |].
  intros vp.
  apply overrides_bind_l; [exact St | apply keeps_trace_step |].
  intros pt.
  apply overrides_bind_l; [exact St | apply keeps_from_keeps, keeps_check_limits |].
  intros cl.
  apply overrides_bind_r.
  - intros w r w' _ H. exact (fdev_step_overrides _ _ _ _ H).
  - intros _. apply keeps_bind; [keeps |]. intros _.
    apply keeps_bind; [apply keeps_lambda_step |]. intros fl.
    apply keeps_bind; [apply keeps_kopt_step |]. intros kopt. apply keeps_ret.
Qed.

Section GlmnetFacts.

Variables elnet_exp spelnet_exp fishnet_exp spfishnet_exp
  : solver_in -> solver_out.
Variable jerr_message : Z -> Z -> Z -> family -> errmsg.
Variable getcoef : solver_out -> Z -> Z -> list string -> Res coefob.
Variables lognet coxnet mrelnet : fam_call -> Res famfit.
Variables glmnet_path cox_path : glmnet_args -> entry -> Res glmnet_fit.
Variable use_cox_path : design -> rarray -> bool.
Variable fix_lam : list dbl -> list dbl.
Variable relax_glmnet : glmnet_fit -> glmnet_args -> entry -> Res glmnet_fit.

Local Abbreviation elnet_result_ := (elnet_result jerr_message getcoef).
Local Abbreviation fishnet_result_ := (fishnet_result jerr_message getcoef).
Local Abbreviation elnet_ := (elnet elnet_exp spelnet_exp jerr_message getcoef).
Local Abbreviation fishnet_ :=
  (fishnet fishnet_exp spfishnet_exp jerr_message getcoef).
Local Abbreviation family_fit_ :=
  (family_fit elnet_exp spelnet_exp fishnet_exp spfishnet_exp jerr_message
     getcoef lognet coxnet mrelnet).
Local Abbreviation glmnet_body_ :=
  (glmnet_body elnet_exp spelnet_exp fishnet_exp spfishnet_exp jerr_message
     getcoef lognet coxnet mrelnet glmnet_path cox_path use_cox_path fix_lam
     relax_glmnet).
Local Abbreviation glmnet_ :=
  (glmnet elnet_exp spelnet_exp fishnet_exp spfishnet_exp jerr_message
     getcoef lognet coxnet mrelnet glmnet_path cox_path use_cox_path fix_lam
     relax_glmnet).

Lemma keeps_report_jerr fit maxit nx fam :
  keeps_ctl (report_jerr jerr_message fit maxit nx fam).
Proof. unfold report_jerr. keeps. Qed.

Lemma keeps_elnet_result fc nd off fit :
  keeps_ctl (elnet_result_ fc nd off fit).
Proof.
  unfold elnet_result. apply keeps_bind; [apply keeps_report_jerr |].
  intros _. apply keeps_bind; [keeps |]. intros co.
  apply keeps_bind; [apply keeps_first_lmu |]. intros dev. keeps.
Qed.

Lemma keeps_fishnet_result fc off fit :
  keeps_ctl (fishnet_result_ fc off fit).
Proof.
  unfold fishnet_result. apply keeps_bind; [apply keeps_report_jerr |].
  intros _. apply keeps_bind; [keeps |]. intros co.
  apply keeps_bind; [apply keeps_first_lmu |]. intros dev. keeps.
Qed.

Lemma keeps_family_fit fc : keeps_ctl (family_fit_ fc).
Proof.
  unfold family_fit. destruct (c_family fc); try apply keeps_lift.
  - unfold elnet. apply keeps_bind; [apply keeps_elnet_setup |].
    intros s. apply keeps_elnet_result.
  - unfold fishnet. apply keeps_bind; [apply keeps_fishnet_setup |].
    intros s. apply keeps_fishnet_result.
Qed.

Lemma keeps_choose_route a e : keeps_ctl (choose_route use_cox_path a e).
Proof.
  unfold choose_route, match_family.
  destruct (family_ a); try apply keeps_ret;
    (apply keeps_bind;
     [apply keeps_bind; [apply keeps_match_arg |];
      intros nm; destruct (family_of_name nm); keeps
     | intros fam; keeps]).
Qed.

Lemma keeps_glmnet_entry a : keeps_ctl (glmnet_entry a).
Proof.
  unfold glmnet_entry.
  apply keeps_bind; [apply keeps_check_dims |]. intros np.
  apply keeps_bind; [apply keeps_encode_response |]. intros ync.
  apply keeps_bind; [apply keeps_cond |]. intros [|]; [apply keeps_stop |].
  apply keeps_bind; [apply keeps_check_weights |]. intros wt.
  apply keeps_bind; [apply keeps_check_penalty_factor |]. intros pf.
  apply keeps_ret.
Qed.

(** *** The settings on return *)

Lemma body_overrides a :
  overrides_from (untraced (trace_it a)) (glmnet_body_ a).
Proof.
  pose proof (untraced_stable (trace_it a)) as St.
  unfold glmnet_body.
  apply overrides_bind_l; [exact St | apply keeps_from_keeps, keeps_glmnet_entry |].
  intros e.
  apply overrides_bind_l; [exact St | apply keeps_from_keeps, keeps_choose_route |].
  intros r.
  apply overrides_bind_r.
  - destruct r; try (apply overrides_of_keeps, keeps_lift).
    apply overrides_bind_r; [apply prepare_overrides |]. intros fc.
    apply keeps_bind; [apply keeps_family_fit |]. intros f. apply keeps_ret.
  - intros fit. destruct (relax a); [apply keeps_lift | apply keeps_ret].
Qed.

(** When the call does not touch [itrace], the settings on return are
    those at entry, whether the call returns a fit or stops with an error,
    and whatever the solvers and helpers do. *)
Lemma settings_restored_without_tracing a c0 :
  tracing_untouched a c0 = true -> snd (fst (glmnet_ a c0)) = c0.
Proof.
  intros Ht. unfold glmnet. cbn [fst snd].
  destruct (glmnet_body_ a {| ctl := c0; exit_hook := None; warned := [] |})
    as [r w'] eqn:E.
  apply body_overrides in E; [| exact Ht].
  cbn [snd]. unfold run_exit.
  destruct E as [[E1 E2] | [E1 E2]]; rewrite E2; cbn in *.
  - exact E1.
  - rewrite E1. destruct c0; reflexivity.
Qed.

(** X1.  With a bound equal to zero and a nonzero [fdev] at entry, the
    family function runs with [fdev = 0]; apart from [itrace], which a
    request for tracing switches on, the other settings are those at entry. *)
Lemma family_runs_with_fdev_zero a e fam w fc w' :
  glmnet_prepare a e fam w = (Val fc, w') ->
  R.any (map (fun v => R.eq v R.zero) (cl_entries (c_cl fc))) = Some true ->
  R.ne (fdev (ctl w)) R.zero = Some true ->
  ctl w' = set_fdev R.zero (ctl w) \/
  ctl w' = set_fdev R.zero (set_itrace 1 (ctl w)).
Proof.
  intros Hp Hany Hne. apply glmnet_prepare_inv in Hp.
  destruct Hp as (al & w1 & w2 & jp & w3 & vp & w4 & pt & w5 & cl & w6 & w7
                  & w8 & fl & w9 & kopt & Hal & Hrows & Hex & Hvp & Htr & Hcl
                  & Hfd & [E78 _] & Hlam & Hk & _ & _ & _ & Ecl & _).
  rewrite Ecl in Hany.
  pose proof (prepare_reaches_trace_step _ _ _ _ _ _ _ _ _ _ Hal Hrows Hex Hvp)
    as [E4 _].
  apply keeps_check_limits in Hcl. destruct Hcl as [E6 _].
  apply keeps_lambda_step in Hlam. destruct Hlam as [E9 _].
  apply keeps_kopt_step in Hk. destruct Hk as [E10 _].
  assert (ctl w5 = ctl w \/ ctl w5 = set_itrace 1 (ctl w)) as E5.
  { unfold trace_step, bind, get_control, update_control, on_exit in Htr.
    cbn in Htr. rewrite <- E4.
    destruct (negb (itrace (ctl w4) =? 0)%Z); [inversion Htr; left; reflexivity |].
    destruct (negb (trace_it a =? 0)%Z); cbn in Htr; inversion Htr;
      [right | left]; reflexivity. }
  assert (fdev (ctl w6) = fdev (ctl w)) as Efd.
  { rewrite E6. destruct E5 as [-> | ->]; reflexivity. }
  rewrite <- Efd in Hne.
  apply fdev_step_zero in Hfd; [| exact Hany | exact Hne].
  rewrite E10, E9, E78, Hfd, E6.
  destruct E5 as [-> | ->]; [left | right]; reflexivity.
Qed.

(** *** What [elnet] and [fishnet] make of the error code *)

Lemma report_jerr_fatal fit maxit nx fam w :
  jerr fit <> 0%Z ->
  fatal (jerr_message (jerr fit) maxit nx fam) = true ->
  report_jerr jerr_message fit maxit nx fam w
  = (Stop (msg (jerr_message (jerr fit) maxit nx fam)), w).
Proof.
  intros Hj Hf. unfold report_jerr.
  apply Z.eqb_neq in Hj. rewrite Hj. cbn. rewrite Hf. reflexivity.
Qed.

Lemma report_jerr_warns fit maxit nx fam w :
  jerr fit <> 0%Z ->
  fatal (jerr_message (jerr fit) maxit nx fam) = false ->
  report_jerr jerr_message fit maxit nx fam w
  = (Val tt, warn_all [msg (jerr_message (jerr fit) maxit nx fam)] w).
Proof.
  intros Hj Hf. unfold report_jerr.
  apply Z.eqb_neq in Hj. rewrite Hj. cbn. rewrite Hf. reflexivity.
Qed.

(** A fatal code aborts [elnet] and [fishnet] with the message of
    [jerr]: no fit is returned. *)
Lemma fatal_code_aborts fc nd off fit w :
  jerr fit <> 0%Z ->
  (fatal (jerr_message (jerr fit) (c_maxit fc) (c_nx fc) gaussian) = true ->
   elnet_result_ fc nd off fit w
   = (Stop (msg (jerr_message (jerr fit) (c_maxit fc) (c_nx fc) gaussian)), w)) /\
  (fatal (jerr_message (jerr fit) (c_maxit fc) (c_nx fc) poisson) = true ->
   fishnet_result_ fc off fit w
   = (Stop (msg (jerr_message (jerr fit) (c_maxit fc) (c_nx fc) poisson)), w)).
Proof.
  intros Hj. split; intros Hf.
  - unfold elnet_result. apply bind_stop. apply report_jerr_fatal; assumption.
  - unfold fishnet_result. apply bind_stop. apply report_jerr_fatal; assumption.
Qed.

(** A non-fatal code makes [elnet] warn and return; when the solver filled
    at least one column ([1 <= lmu]), [dev.ratio] is the first [lmu]
    entries of [rsq]. *)
Lemma nonfatal_code_truncates fc nd off fit w ws co :
  jerr fit <> 0%Z ->
  fatal (jerr_message (jerr fit) (c_maxit fc) (c_nx fc) gaussian) = false ->
  (1 <= lmu fit <= Base.len (rsq fit))%Z ->
  getcoef fit (c_nvars fc) (c_nx fc) (c_vnames fc) = (ws, Val co) ->
  elnet_result_ fc nd off fit w
  = (Val {| f_coef := co;
            dev_ratio := firstn (Z.to_nat (lmu fit)) (rsq fit);
            nulldev := nd; npasses := nlp fit; f_jerr := jerr fit;
            f_offset := off; f_class := ["elnet"%string] |},
     warn_all ws
       (warn_all [msg (jerr_message (jerr fit) (c_maxit fc) (c_nx fc) gaussian)]
          w)).
Proof.
  intros Hj Hf Hl Hg. unfold elnet_result.
  rewrite (bind_run _ _ _ _ _ (report_jerr_warns _ _ _ _ _ Hj Hf)).
  unfold bind at 1. unfold lift. rewrite Hg. cbn [fst snd].
  unfold first_lmu. rewrite index_rseq_firstn by exact Hl.
  reflexivity.
Qed.

(** *** The claims on the first λ and on the null deviance *)

(** C6.  In a call that goes through a family function and is not
    followed by a refit, the fit returned is the one the family function
    returned, with [fix.lam] applied to its λ values when no λ sequence
    was supplied and with nothing changed when one was supplied.  In the
    first case the grid of the path solver starts with the computed
    [λ_max]: the replacement of the first value is the caller's. *)
Theorem first_lambda_fixed_by_caller a w e w1 fam w2 g w' :
  glmnet_entry a w = (Val e, w1) ->
  choose_route use_cox_path a e w1 = (Val (ByFamily fam), w2) ->
  relax a = false ->
  glmnet_body_ a w = (Val g, w') ->
  exists fc w3 f,
    glmnet_prepare a e fam w2 = (Val fc, w3) /\
    family_fit_ fc w3 = (Val f, w') /\
    g_fit g = match lambda a with
              | None => set_lambda (fix_lam (co_lambda (f_coef f))) f
              | Some _ => f
              end /\
    (lambda a = None ->
     forall lmax alf ka yv off,
       (1 <= c_nlam fc)%Z ->
       exists v,
         hd_error (path_grid lmax alf (solver_args fc ka yv off)) = Some v /\
         R.eq v (Fin lmax) = Some true).
Proof.
  intros He Hr Hrelax Hb. unfold glmnet_body in Hb.
  rewrite (bind_run _ _ _ _ _ He) in Hb.
  rewrite (bind_run _ _ _ _ _ Hr) in Hb.
  rewrite Hrelax in Hb.
  peel Hb as g0 w4 Hfit. done_ret Hb.
  peel Hfit as fc w3 Hp.
  peel Hfit as f w5 Hf. done_ret Hfit.
  exists fc, w3, f. split; [exact Hp |]. split; [exact Hf |].
  split; [reflexivity |].
  intros Hl lmax alf ka yv off Hn.
  apply glmnet_prepare_inv in Hp.
  destruct Hp as (al & wa & wb & jp & wc & vp & wd & pt & we & cl & wf & wg
                  & wh & fl & wi & kopt & _ & _ & _ & _ & _ & _ & _ & _ & Hlam
                  & _ & _ & _ & _ & _ & Efl & _).
  destruct (lambda_step_computed _ _ _ _ _ _ _ Hl Hlam) as [-> Hlt].
  cbn [fst snd] in Efl. unfold path_grid.
  rewrite computed_by_flmin_below_one
    by (cbn [solver_args s_flmin]; rewrite Efl; exact Hlt).
  cbn [solver_args s_nlam].
  destruct (geometric_first lmax alf (Z.to_nat (c_nlam fc))) as (q & Hq & Eq);
    [lia |].
  exists (Fin q). split.
  - destruct (geometric lmax alf (Z.to_nat (c_nlam fc))); [discriminate Hq |].
    cbn in *. injection Hq as ->. reflexivity.
  - apply eq_fin. exact Eq.
Qed.

(** C8, as the code has it.  When [weights] and the response have the
    same length, the null deviance [elnet] hands on is
    [Σᵢ wᵢ (yᵢ − ȳ)²], with [ȳ] the weighted mean of the response (less
    the offset) when an intercept is fitted and 0 otherwise, and it is not
    zero.  When that sum is zero, [elnet] stops with its own error
    message before any solver is called: the outcome is the same for
    every solver, no [jerr] is produced and no fit is returned. *)
Theorem null_deviance_and_zero_variance fc w :
  List.length (c_weights fc) = List.length (a_data (elnet_response fc)) ->
  (forall s w',
     elnet_setup fc w = (Val s, w') ->
     exists ybar,
       is_ybar fc w ybar /\
       snd (fst s)
       = weighted_ss (c_weights fc) (a_data (elnet_response fc)) ybar /\
       R.eq (snd (fst s)) R.zero = Some false /\
       s_y (fst (fst s)) = elnet_response fc /\
       s_w (fst (fst s)) = c_weights fc) /\
  (forall ka ybar,
     gaussian_mode (c_type_gaussian fc) w = (Val ka, w) ->
     is_ybar fc w ybar ->
     R.eq (weighted_ss (c_weights fc) (a_data (elnet_response fc)) ybar) R.zero
     = Some true ->
     elnet_ fc w
     = (Stop "y is constant; gaussian glmnet fails at standardization step",
        w)).
Proof.
  intros Hlen. split.
  - intros s w' Hs. unfold elnet_setup in Hs.
    peel Hs as ka wa Hka.
    apply gaussian_mode_world in Hka as Ewa. subst wa.
    cbv zeta in Hs.
    peel Hs as ybar wb Hyb.
    peel Hs as const wc Hc. apply cond_val in Hc. destruct Hc as [Hz ->].
    destruct const; [apply stop_val in Hs; contradiction |].
    done_ret Hs. cbn [fst snd solver_args s_y s_w].
    exists ybar. rewrite <- null_deviance_is_weighted_ss by exact Hlen.
    repeat split; try reflexivity; [| exact Hz].
    unfold is_ybar. destruct (c_intr fc =? 0)%Z; cbn in Hyb.
    + done_ret Hyb. reflexivity.
    + apply weighted_mean_world in Hyb as Ewb. subst wb. exact Hyb.
  - intros ka ybar Hka Hyb Hz. unfold elnet. apply bind_stop.
    unfold elnet_setup. rewrite (bind_run _ _ _ _ _ Hka). cbv zeta.
    assert ((if negb (c_intr fc =? 0)%Z
             then weighted_mean (a_data (elnet_response fc)) (c_weights fc)
             else ret R.zero) w = (Val ybar, w)) as Hrun.
    { unfold is_ybar in Hyb. destruct (c_intr fc =? 0)%Z; cbn.
      - subst ybar. reflexivity.
      - exact Hyb. }
    rewrite (bind_run _ _ _ _ _ Hrun).
    rewrite null_deviance_is_weighted_ss by exact Hlen.
    rewrite Hz. reflexivity.
Qed.

End GlmnetFacts.

(** * The claims at sample calls *)

(** ** Runs that reach the family function *)

Lemma alpha_is_clamped_witness :
  clamp_alpha (alpha steep) (world_at steep)
  = (Val R.one, warn_all ["alpha >1; set to 1"%string] (world_at steep)) /\
  c_alpha (call_at steep) = R.one /\
  in_unit_interval (c_alpha (call_at steep)).
Proof.
  destruct (alpha_is_clamped steep (entry_at steep) gaussian (world_at steep))
    as [H1 H2].
  split.
  - apply H1. reflexivity.
  - destruct (H2 (call_at steep) (world_after steep)) as (E & U & _).
    + vm_compute. reflexivity.
    + split; [exact E | exact U].
Defined.

Lemma limits_finite_of_length_nvars_witness :
  Base.len (cl_lower (c_cl (call_at plain))) = 2%Z /\
  Forall (fun v => R.is_finite v = true) (cl_upper (c_cl (call_at plain))) /\
  cl_lower (c_cl (call_at plain)) = R.rep (R.neg (big settings0)) 2.
Proof.
  destruct (limits_finite_of_length_nvars plain world0 (entry_at plain)
              (world_at plain) gaussian (call_at plain) (world_after plain))
    as (_ & [L _] & [_ F] & _ & S & _).
  - vm_compute. reflexivity.
  - vm_compute. reflexivity.
  - reflexivity.
  - split; [exact L |]. split; [exact F |]. apply (S NInf). reflexivity.
Defined.

Lemma shape_checks_before_solver_witness :
  c_weights (call_at weighted) = [Fin 1; Fin 2; Fin 1] /\
  Base.len [Fin 1; Fin 2; Fin 1] = c_nobs (call_at weighted) /\
  nrow_y (c_y (call_at weighted)) = c_nobs (call_at weighted).
Proof.
  destruct (shape_checks_before_solver weighted world0 (entry_at weighted)
              (world_at weighted) gaussian (call_at weighted)
              (world_after weighted))
    as (_ & _ & W & Y).
  - vm_compute. reflexivity.
  - vm_compute. reflexivity.
  - destruct (W [Fin 1; Fin 2; Fin 1] eq_refl) as [W1 W2].
    split; [exact W1 |]. split; [exact W2 | exact Y].
Defined.

(** C7 fails as stated: weights that are not positive and an infinite
    entry of [x] pass every check; the solver's input is formed with them
    and the call returns a fit. *)
Lemma bad_weights_reach_solver :
  weights odd = Some [Fin (-1); Fin 0; Fin 2] /\
  existsb (fun v => negb (R.is_finite v)) (a_data (x_val (x odd))) = true /\
  glmnet_entry odd world0 = (Val (entry_at odd), world_at odd) /\
  glmnet_prepare odd (entry_at odd) gaussian (world_at odd)
  = (Val (call_at odd), world_after odd) /\
  fst (elnet_setup (call_at odd) (world_after odd))
  = Val (solver_args (call_at odd) (Some 1%Z) (c_y (call_at odd)) None,
         Fin 1, false) /\
  s_w (solver_args (call_at odd) (Some 1%Z) (c_y (call_at odd)) None)
  = [Fin (-1); Fin 0; Fin 2] /\
  returned (fst (fst (glmnet_sample odd settings0))) = true.
Proof. repeat split; vm_compute; reflexivity. Qed.

(** ** The λ sequence at sample calls *)

Lemma supplied_lambda_sorted_witness :
  Permutation [Fin 1; Fin 3; Fin 2] (c_ulam (call_at chosen)) /\
  strictly_descending (c_ulam (call_at chosen)) /\
  path_grid 1 (1 # 10) (solver_args (call_at chosen) None no_array None)
  = c_ulam (call_at chosen).
Proof.
  destruct (supplied_lambda_sorted chosen (entry_at chosen) gaussian
              (world_at chosen) (call_at chosen) (world_after chosen)
              [Fin 1; Fin 3; Fin 2])
    as (_ & P & _ & S & _ & _ & G).
  - reflexivity.
  - vm_compute. reflexivity.
  - split; [exact P |]. split; [| apply G].
    apply S. unfold distinct. repeat constructor.
Defined.

(** C3 fails as stated: a supplied sequence with two equal values is
    handed to the solver, and reported, with both of them; it is not
    strictly decreasing. *)
Lemma tied_lambdas_not_strict :
  lambda ties = Some [Fin 1; Fin 1] /\
  glmnet_prepare ties (entry_at ties) gaussian (world_at ties)
  = (Val (call_at ties), world_after ties) /\
  c_ulam (call_at ties) = [Fin 1; Fin 1] /\
  ~ strictly_descending (c_ulam (call_at ties)) /\
  option_map (fun g => co_lambda (f_coef (g_fit g)))
    (match fst (fst (glmnet_sample ties settings0)) with
     | Val g => Some g
     | Stop _ => None
     end)
  = Some [Fin 1; Fin 1].
Proof.
  split; [reflexivity |]. split; [vm_compute; reflexivity |].
  split; [vm_compute; reflexivity |]. split; [| vm_compute; reflexivity].
  intros H. change (c_ulam (call_at ties)) with [Fin 1; Fin 1] in H.
  inversion H as [| ? ? _ Hhd]; subst. inversion Hhd as [| ? ? Hgt]; subst.
  discriminate Hgt.
Qed.

Lemma smallest_lambda_and_default_ratio_witness :
  c_flmin (call_at short) = Fin (1 # 10000) /\
  R.eq (last (path_grid 1 (1 # 100)
                (solver_args (call_at short) None no_array None)) NA)
       (Fin ((1 # 10000) * 1))
  = Some true.
Proof.
  destruct (smallest_lambda_and_default_ratio short (entry_at short) gaussian
              (world_at short) (call_at short) (world_after short))
    as (E & _ & G).
  - reflexivity.
  - vm_compute. reflexivity.
  - split; [exact E |].
    apply (G 1 (1 # 100) (1 # 10000) None no_array None).
    + reflexivity.
    + repeat split; vm_compute; trivial; discriminate.
Defined.

(** C2 fails as stated: with as many observations as variables the
    default ratio is 1e-4, not the 1e-2 the claim gives to every case but
    [n > p]. *)
Lemma default_ratio_at_equal_dims :
  lambda square = None /\ lambda_min_ratio square = None /\
  glmnet_prepare square (entry_at square) gaussian (world_at square)
  = (Val (call_at square), world_after square) /\
  c_nobs (call_at square) = 2%Z /\ c_nvars (call_at square) = 2%Z /\
  c_flmin (call_at square) = Fin (1 # 10000) /\
  R.eq (c_flmin (call_at square))
       (if (c_nvars (call_at square) <? c_nobs (call_at square))%Z
        then Fin (1 # 10000) else Fin (1 # 100))
  = Some false.
Proof. repeat split; vm_compute; reflexivity. Qed.

(** ** The Gaussian mode at sample calls *)

Lemma gaussian_mode_default_and_ka_witness :
  c_type_gaussian (call_at plain) = Some "covariance"%string /\
  s_ka (fst (fst (the (solver_args no_call None no_array None, NA, false)
                    (elnet_setup (call_at plain) (world_after plain)))))
  = Some 1%Z.
Proof.
  destruct (gaussian_mode_default_and_ka plain (entry_at plain) gaussian
              (world_at plain) (call_at plain) (world_after plain))
    as (E & K).
  - vm_compute. reflexivity.
  - split; [exact E |].
    destruct (K (world_after plain)
                (the (solver_args no_call None no_array None, NA, false)
                   (elnet_setup (call_at plain) (world_after plain)))
                (world_after plain))
      as [[_ K1] | [N _]].
    + vm_compute. reflexivity.
    + exact K1.
    + vm_compute in N. discriminate N.
Defined.

(** C4 fails as stated: for a sparse [x] with fewer than 500 variables the
    default mode is the covariance mode, passed to the sparse solver as
    [ka = 1], not the naive mode. *)
Lemma sparse_default_is_covariance :
  type_gaussian sparse_call = None /\
  glmnet_prepare sparse_call (entry_at sparse_call) gaussian
    (world_at sparse_call)
  = (Val (call_at sparse_call), world_after sparse_call) /\
  c_is_sparse (call_at sparse_call) = true /\
  c_nvars (call_at sparse_call) = 2%Z /\
  c_type_gaussian (call_at sparse_call) = Some "covariance"%string /\
  c_type_gaussian (call_at sparse_call)
  <> Some (if (c_nvars (call_at sparse_call) <? 500)%Z
              && negb (c_is_sparse (call_at sparse_call))
           then "covariance"%string else "naive"%string) /\
  fst (elnet_setup (call_at sparse_call) (world_after sparse_call))
  = Val (solver_args (call_at sparse_call) (Some 1%Z)
           (c_y (call_at sparse_call)) None, Fin 3, false).
Proof.
  repeat split; try (vm_compute; reflexivity).
  vm_compute. discriminate.
Qed.

(** ** The whole call at sample calls *)

Lemma first_lambda_fixed_by_caller_witness :
  exists fc w3 f,
    glmnet_prepare short (entry_at short) gaussian (world_at short)
    = (Val fc, w3) /\
    family_fit (grid_solver 1 (1 # 10)) (grid_solver 1 (1 # 10))
      (grid_solver 1 (1 # 10)) (grid_solver 1 (1 # 10)) jerr_by_sign
      getcoef_columns unavailable unavailable unavailable fc w3
    = (Val f, snd (body_sample short world0)) /\
    co_lambda (f_coef (g_fit (the no_fit (body_sample short world0))))
    = fix_lam_first (co_lambda (f_coef f)).
Proof.
  destruct (first_lambda_fixed_by_caller
              (grid_solver 1 (1 # 10)) (grid_solver 1 (1 # 10))
              (grid_solver 1 (1 # 10)) (grid_solver 1 (1 # 10))
              jerr_by_sign getcoef_columns
              unavailable unavailable unavailable
              (fun _ _ => unavailable tt) (fun _ _ => unavailable tt)
              (fun _ _ => false) fix_lam_first
              (fun _ _ _ => unavailable tt)
              short world0 (entry_at short) (world_at short) gaussian
              (world_at short) (the no_fit (body_sample short world0))
              (snd (body_sample short world0)))
    as (fc & w3 & f & Hp & Hf & Hg & _).
  - vm_compute. reflexivity.
  - vm_compute. reflexivity.
  - reflexivity.
  - vm_compute. reflexivity.
  - exists fc, w3, f. split; [exact Hp |]. split; [exact Hf |].
    rewrite Hg. reflexivity.
Defined.

Lemma null_deviance_and_zero_variance_witness :
  Fin 12
  = weighted_ss (c_weights flat_call_through_origin)
      (a_data (elnet_response flat_call_through_origin)) R.zero /\
  elnet_sample flat_call world0
  = (Stop "y is constant; gaussian glmnet fails at standardization step",
     world0).
Proof.
  split.
  - destruct (null_deviance_and_zero_variance
                (grid_solver 1 (1 # 10)) (grid_solver 1 (1 # 10))
                jerr_by_sign getcoef_columns
                flat_call_through_origin world0 eq_refl) as [H1 _].
    destruct (H1 (solver_args flat_call_through_origin (Some 1%Z)
                    (vector twos) None, Fin 12, false) world0)
      as (ybar & Hy & Hn & _).
    + vm_compute. reflexivity.
    + cbn [fst snd] in Hn. unfold is_ybar in Hy. cbn in Hy. subst ybar.
      exact Hn.
  - destruct (null_deviance_and_zero_variance
                (grid_solver 1 (1 # 10)) (grid_solver 1 (1 # 10))
                jerr_by_sign getcoef_columns
                flat_call world0 eq_refl) as [_ H2].
    apply (H2 1%Z (Fin (6 # 3))).
    + vm_compute. reflexivity.
    + vm_compute. reflexivity.
    + vm_compute. reflexivity.
Defined.

(** C8 fails as stated: the response with three equal values is refused
    by [elnet] itself, with an error message and before the solver runs,
    so that a solver that would set [jerr] is never asked; and without an
    intercept the same response is not refused at all. *)
Lemma constant_response_not_in_jerr :
  elnet refusing_solver refusing_solver jerr_by_sign getcoef_columns
    flat_call world0
  = (Stop "y is constant; gaussian glmnet fails at standardization step",
     world0) /\
  jerr (refusing_solver (solver_args flat_call (Some 1%Z) (vector twos) None))
  = 7777%Z /\
  returned (fst (elnet_sample flat_call_through_origin world0)) = true /\
  option_map f_jerr
    (match fst (elnet_sample flat_call_through_origin world0) with
     | Val f => Some f
     | Stop _ => None
     end)
  = Some 0%Z.
Proof. repeat split; vm_compute; reflexivity. Qed.

(** C1.  The code departs from the claim when the solver stops at the
    first λ: with [lmu = 0] and the non-fatal code [jerr = -1], [elnet]
    and [fishnet] warn and return, the coefficient part holds no column,
    and yet [dev.ratio] holds one value, the first entry of [rsq], because
    [seq(0)] is [c(1, 0)]. *)
Theorem stalled_path_dev_ratio :
  lmu stalled = 0%Z /\ jerr stalled = (-1)%Z /\
  fatal (jerr_by_sign (jerr stalled) (c_maxit flat_call) (c_nx flat_call)
           gaussian) = false /\
  R.rseq (lmu stalled) = [1%Z; 0%Z] /\
  firstn (Z.to_nat (lmu stalled)) (rsq stalled) = [] /\
  elnet_result jerr_by_sign getcoef_columns flat_call (Fin 12) false stalled
    world0
  = (Val {| f_coef := {| co_a0 := []; co_beta := []; co_df := [];
                         co_dim := (2%Z, 0%Z); co_lambda := [] |};
            dev_ratio := [R.zero]; nulldev := Fin 12; npasses := 1;
            f_jerr := (-1); f_offset := false; f_class := ["elnet"%string] |},
     warn_all ["error code -1 from the gaussian solver"%string] world0) /\
  option_map dev_ratio
    (match fst (fishnet_result jerr_by_sign getcoef_columns flat_call false
                  stalled world0) with
     | Val f => Some f
     | Stop _ => None
     end)
  = Some [R.zero].
Proof. repeat split; vm_compute; reflexivity. Qed.

(** C5.  The code departs from the claim when tracing is asked for in the
    same call: with [trace.it = 1], [itrace = 0] and a nonzero [fdev] at
    entry and an upper limit of zero, the call returns a fit, [fdev] is
    back at its value, but [itrace] is left at 1: the second [on.exit]
    replaced the first. *)
Theorem traced_call_leaves_itrace_on :
  trace_it traced = 1%Z /\ upper_limits traced = [R.zero] /\
  itrace settings0 = 0%Z /\ R.ne (fdev settings0) R.zero = Some true /\
  returned (fst (fst (glmnet_sample traced settings0))) = true /\
  snd (fst (glmnet_sample traced settings0)) = set_itrace 1 settings0 /\
  snd (fst (glmnet_sample traced settings0)) <> settings0 /\
  snd (fst (glmnet_sample pinned settings0)) = settings0.
Proof.
  repeat split; try (vm_compute; reflexivity).
  vm_compute. discriminate.
Qed.


(** * Further properties of the front end *)

(** ** The settings on every exit path *)

Lemma runs_in_bind {A B : Type} (R1 R2 R3 : world -> world -> Prop)
    (m : M A) (k : A -> M B) :
  runs_in R1 m -> (forall a, runs_in R2 (k a)) ->
  (forall w w', R1 w w' -> R3 w w') ->
  (forall w w1 w', R1 w w1 -> R2 w1 w' -> R3 w w') ->
  runs_in R3 (bind m k).
Proof.
  intros Hm Hk Hstop Hseq w r w' H. unfold bind in H.
  destruct (m w) as [[a | s] w1] eqn:E; apply Hm in E.
  - apply (Hseq _ _ _ E). exact (Hk a _ _ _ H).
  - inversion H; subst. apply Hstop. exact E.
Qed.

Lemma runs_in_keeps {A : Type} (m : M A) :
  keeps_ctl m -> runs_in same_settings m.
Proof. intros H. exact H. Qed.

Lemma runs_in_overrides {A : Type} (m : M A) :
  overrides_from (fun _ => True) m -> runs_in fdev_overridden m.
Proof. intros H w r w' Hrun. exact (H w r w' I Hrun). Qed.

Lemma same_settings_refl w : same_settings w w.
Proof. split; reflexivity. Qed.

Lemma tuned_of_same t w w' : same_settings w w' -> tuned t w w'.
Proof.
  intros H. exists w'. split; [left; exact H | left; apply same_settings_refl].
Qed.

Lemma tuned_after_same t w w1 w' :
  same_settings w w1 -> tuned t w1 w' -> tuned t w w'.
Proof.
  intros [E1 E2] (wm & [[E3 E4] | (E3 & E4 & E5 & E6)] & Hf); exists wm;
    (split; [| exact Hf]).
  - left. split; congruence.
  - right. repeat split; congruence.
Qed.

Lemma tuned_then_same t w w1 w' :
  tuned t w w1 -> same_settings w1 w' -> tuned t w w'.
Proof.
  intros (wm & Ht & Hf) Hs. exists wm. split; [exact Ht |].
  exact (overridden_then_same _ _ _ Hf Hs).
Qed.

Lemma trace_step_switches t : runs_in (trace_switched t) (trace_step t).
Proof.
  intros w r w'. unfold trace_step, bind, get_control, update_control, on_exit.
  cbn. destruct (negb (itrace (ctl w) =? 0)%Z) eqn:E1.
  - intros H. inversion H. left. apply same_settings_refl.
  - destruct (negb (t =? 0)%Z) eqn:E2; cbn; intros H; inversion H.
    + right. cbn. apply negb_false_iff, Z.eqb_eq in E1.
      apply negb_true_iff, Z.eqb_neq in E2. repeat split; assumption.
    + left. apply same_settings_refl.
Qed.

Lemma prepare_tunes a e fam :
  runs_in (tuned (trace_it a)) (glmnet_prepare a e fam).
Proof.
  set (t := trace_it a).
  assert (forall (A B : Type) (m : M A) (k : A -> M B),
             keeps_ctl m -> (forall x, runs_in (tuned t) (k x)) ->
             runs_in (tuned t) (bind m k)) as first_keeps.
  { intros A B m k Hm Hk.
    apply (runs_in_bind same_settings (tuned t) (tuned t));
      [exact Hm | exact Hk | apply tuned_of_same | apply tuned_after_same]. }
  unfold glmnet_prepare.
  apply first_keeps; [apply keeps_clamp_alpha |]. intros al.
  apply first_keeps; [apply keeps_check_response_rows |]. intros _.
  apply first_keeps; [apply keeps_exclude_step |]. intros jp.
  apply first_keeps; [apply keeps_first_column |]. intros vp.
  apply (runs_in_bind (trace_switched t) fdev_overridden (tuned t)).
  - apply trace_step_switches.
  - intros pt. apply runs_in_overrides.
    apply overrides_bind_l;
      [trivial | apply keeps_from_keeps, keeps_check_limits |].
    intros cl. apply overrides_bind_r.
    + intros w r w' _ H. exact (fdev_step_overrides _ _ _ _ H).
    + intros _. apply keeps_bind; [keeps |]. intros _.
      apply keeps_bind; [apply keeps_lambda_step |]. intros fl.
      apply keeps_bind; [apply keeps_kopt_step |]. intros kopt.
      apply keeps_ret.
  - intros w w' H. exists w'. split; [exact H | left; apply same_settings_refl].
  - intros w w1 w' H1 H2. exists w1. split; assumption.
Qed.

Section SettingsOnReturn.

Variables elnet_exp spelnet_exp fishnet_exp spfishnet_exp
  : solver_in -> solver_out.
Variable jerr_message : Z -> Z -> Z -> family -> errmsg.
Variable getcoef : solver_out -> Z -> Z -> list string -> Res coefob.
Variables lognet coxnet mrelnet : fam_call -> Res famfit.
Variables glmnet_path cox_path : glmnet_args -> entry -> Res glmnet_fit.
Variable use_cox_path : design -> rarray -> bool.
Variable fix_lam : list dbl -> list dbl.
Variable relax_glmnet : glmnet_fit -> glmnet_args -> entry -> Res glmnet_fit.

Local Abbreviation glmnet_body_ :=
  (glmnet_body elnet_exp spelnet_exp fishnet_exp spfishnet_exp jerr_message
     getcoef lognet coxnet mrelnet glmnet_path cox_path use_cox_path fix_lam
     relax_glmnet).
Local Abbreviation glmnet_ :=
  (glmnet elnet_exp spelnet_exp fishnet_exp spfishnet_exp jerr_message
     getcoef lognet coxnet mrelnet glmnet_path cox_path use_cox_path fix_lam
     relax_glmnet).

Lemma body_tunes a : runs_in (tuned (trace_it a)) (glmnet_body_ a).
Proof.
  set (t := trace_it a).
  unfold glmnet_body.
  apply (runs_in_bind same_settings (tuned t) (tuned t));
    [apply keeps_glmnet_entry | | apply tuned_of_same | apply tuned_after_same].
  intros e.
  apply (runs_in_bind same_settings (tuned t) (tuned t));
    [apply keeps_choose_route | | apply tuned_of_same | apply tuned_after_same].
  intros r.
  apply (runs_in_bind (tuned t) same_settings (tuned t));
    [| | trivial | apply tuned_then_same].
  - destruct r.
    + intros w r w' H. apply tuned_of_same. exact (keeps_lift _ _ _ _ H).
    + intros w r w' H. apply tuned_of_same. exact (keeps_lift _ _ _ _ H).
    + apply (runs_in_bind (tuned t) same_settings (tuned t));
        [apply prepare_tunes | | trivial | apply tuned_then_same].
      intros fc. apply keeps_bind; [apply keeps_family_fit |].
      intros f. apply keeps_ret.
  - intros fit. destruct (relax a); [apply keeps_lift | apply keeps_ret].
Qed.

(** X2.  Whatever the arguments, the solvers and the helpers, and whether
    the call returns a fit or stops with an error, the settings on return
    are those at entry, except that [itrace] may be left at 1, and that only
    in a call that asked for tracing while [itrace] was off. *)
Theorem settings_on_return a c0 :
  snd (fst (glmnet_ a c0)) = c0 \/
  (snd (fst (glmnet_ a c0)) = set_itrace 1 c0 /\
   trace_it a <> 0%Z /\ itrace c0 = 0%Z).
Proof.
  unfold glmnet. cbn [fst snd].
  destruct (glmnet_body_ a {| ctl := c0; exit_hook := None; warned := [] |})
    as [r w'] eqn:E.
  apply body_tunes in E. cbn [snd]. unfold run_exit.
  destruct E as (wm & [[E1 E2] | (E1 & E2 & E3 & E4)] & [[E5 E6] | [E5 E6]]);
    cbn in E1, E2; rewrite E6; try rewrite E2; cbn.
  - left. congruence.
  - left. rewrite E5, E1. destruct c0; reflexivity.
  - left. rewrite E5, E1. cbn in E3. destruct c0; cbn in *. subst. reflexivity.
  - right. cbn in E3. split; [| split; assumption].
    rewrite E5, E1. destruct c0; reflexivity.
Qed.

End SettingsOnReturn.

(** ** [drop] *)

Lemma filter_same_length {A : Type} (f : A -> bool) (l : list A) :
  List.length (filter f l) = List.length l -> filter f l = l.
Proof.
  induction l as [| a l IH]; [reflexivity |]. simpl.
  destruct (f a); simpl; intros H.
  - f_equal. apply IH. lia.
  - pose proof (filter_length_le f l). lia.
Qed.

Lemma filter_holds {A : Type} (f : A -> bool) (l : list A) :
  Forall (fun a => f a = true) (filter f l).
Proof.
  apply Forall_forall. intros a Ha. apply filter_In in Ha. apply Ha.
Qed.

Lemma not_unit_extent (d : list Z) :
  Forall (fun k => negb (k =? 1)%Z = true) d -> Forall (fun k => k <> 1%Z) d.
Proof.
  apply Forall_impl. intros k Hk. apply negb_true_iff, Z.eqb_neq in Hk. exact Hk.
Qed.

(** X3.  [y = drop(y)] keeps the data, leaves no extent equal to one, leaves
    an array without such an extent as it is, and does nothing when applied
    a second time. *)
Theorem drop_leaves_no_unit_extent m :
  a_data (drop m) = a_data m /\
  (forall d, a_dim (drop m) = Some d -> Forall (fun k => k <> 1%Z) d) /\
  (forall d, a_dim m = Some d -> Forall (fun k => k <> 1%Z) d -> drop m = m) /\
  drop (drop m) = drop m.
Proof.
  assert (forall d : list Z,
             filter (fun k => negb (k =? 1)%Z)
               (filter (fun k => negb (k =? 1)%Z) d)
             = filter (fun k => negb (k =? 1)%Z) d) as Hff.
  { intros d. apply filter_all. apply filter_holds. }
  unfold drop. destruct m as [[d |] v]; cbn [a_dim a_data].
  2: { repeat split; try reflexivity; intros d H; discriminate H. }
  set (f := fun k => negb (k =? 1)%Z) in *.
  destruct (List.length (filter f d) =? List.length d)%nat eqn:E1.
  - apply Nat.eqb_eq in E1 as E1p. apply filter_same_length in E1p as E1'.
    cbn [a_dim a_data]. repeat split.
    + intros d0 H. injection H as <-. rewrite <- E1'. apply not_unit_extent.
      apply filter_holds.
    + rewrite E1. reflexivity.
  - destruct (List.length (filter f d) <=? 1)%nat eqn:E2; cbn [a_dim a_data vector].
    + repeat split; try (intros d0 H; discriminate H).
      intros d0 H Hall. injection H as <-. exfalso.
      apply Nat.eqb_neq in E1. apply E1. f_equal. apply filter_all.
      revert Hall. apply Forall_impl. intros k Hk. subst f. cbn.
      apply negb_true_iff, Z.eqb_neq. exact Hk.
    + rewrite Hff, Nat.eqb_refl. repeat split.
      * intros d0 H. injection H as <-. apply not_unit_extent.
        apply filter_holds.
      * intros d0 H Hall. injection H as <-. exfalso.
        apply Nat.eqb_neq in E1. apply E1. f_equal. apply filter_all.
        revert Hall. apply Forall_impl. intros k Hk. subst f. cbn.
        apply negb_true_iff, Z.eqb_neq. exact Hk.
Qed.

(** ** The encoding of a response without [dim] *)

Lemma dbl_eqb_fin p q : Base.dbl_eqb (Fin p) (Fin q) = Qeq_bool p q.
Proof. unfold Base.dbl_eqb. cbn. destruct (Qeq_bool p q); reflexivity. Qed.

Lemma dbl_eqb_refl v : R.is_na v = false -> Base.dbl_eqb v v = true.
Proof.
  destruct v as [q | | |]; try discriminate; intros _; try reflexivity.
  rewrite dbl_eqb_fin. apply Qeq_bool_iff. reflexivity.
Qed.

Lemma dbl_eqb_sym a b : Base.dbl_eqb a b = Base.dbl_eqb b a.
Proof.
  destruct a as [p | | |], b as [q | | |]; try reflexivity.
  rewrite !dbl_eqb_fin.
  destruct (Qeq_bool p q) eqn:E1, (Qeq_bool q p) eqn:E2; try reflexivity.
  - apply Qeq_bool_iff in E1. symmetry in E1. apply Qeq_bool_iff in E1.
    congruence.
  - apply Qeq_bool_iff in E2. symmetry in E2. apply Qeq_bool_iff in E2.
    congruence.
Qed.


(** Every element of a list is represented in [unique]: by itself or by an
    earlier element equal to it. *)
Lemma unique_from_represents {A : Type} (eqb : A -> A -> bool) (l : list A) :
  forall seen x,
    In x l -> eqb x x = true ->
    existsb (eqb x) seen = true \/
    exists u, In u (Base.unique_from eqb seen l) /\ eqb x u = true.
Proof.
  induction l as [| a l IH]; intros seen x Hin Hrefl; [contradiction |].
  simpl. destruct Hin as [-> | Hin].
  - destruct (existsb (eqb x) seen) eqn:E; [left; reflexivity |].
    right. exists x. split; [left; reflexivity | exact Hrefl].
  - destruct (existsb (eqb a) seen) eqn:E.
    + apply IH; assumption.
    + destruct (IH (a :: seen) x Hin Hrefl) as [H | (u & Hu & Hxu)].
      * simpl in H. apply orb_true_iff in H. destruct H as [H | H].
        -- right. exists a. split; [left; reflexivity | exact H].
        -- left. exact H.
      * right. exists u. split; [right; exact Hu | exact Hxu].
Qed.

Lemma unique_from_incl {A : Type} (eqb : A -> A -> bool) (l : list A) :
  forall seen u, In u (Base.unique_from eqb seen l) -> In u l.
Proof.
  induction l as [| a l IH]; intros seen u Hu; [contradiction |].
  simpl in Hu. destruct (existsb (eqb a) seen).
  - right. eapply IH. exact Hu.
  - destruct Hu as [-> | Hu]; [left; reflexivity | right; eapply IH; exact Hu].
Qed.

(** A level is a value of the response that is not missing, and every
    such value has a level equal to it. *)
Lemma level_is_value v l :
  In l (factor_levels v) -> In l v /\ R.is_na l = false.
Proof.
  unfold factor_levels. intros H.
  apply (Permutation_in _ (Permutation_sym (isort_permutation _ _ _))) in H.
  apply unique_from_incl in H. apply filter_In in H. destruct H as [H1 H2].
  split; [exact H1 |]. apply negb_true_iff in H2. exact H2.
Qed.

Lemma value_has_level v x :
  In x v -> R.is_na x = false ->
  exists l, In l (factor_levels v) /\ Base.dbl_eqb x l = true.
Proof.
  intros Hin Hna.
  assert (In x (filter (fun a => negb (R.is_na a)) v)) as Hf
    by (apply filter_In; split; [exact Hin | rewrite Hna; reflexivity]).
  destruct (unique_from_represents Base.dbl_eqb _ [] x Hf (dbl_eqb_refl x Hna))
    as [H | (u & Hu & Hxu)]; [discriminate H |].
  exists u. split; [| exact Hxu].
  unfold factor_levels.
  apply (Permutation_in _ (isort_permutation _ _ _)). exact Hu.
Qed.

Lemma fold_min_spec (t : list Z) : forall n,
  let m := fold_left Z.min t n in
  (m <= n)%Z /\ Forall (fun k => (m <= k)%Z) t /\ (m = n \/ In m t).
Proof.
  induction t as [| a t IH]; intros n; cbn.
  - split; [lia |]. split; [constructor | left; reflexivity].
  - destruct (IH (Z.min n a)) as (H1 & H2 & H3). split; [lia |]. split.
    + constructor; [lia | exact H2].
    + destruct H3 as [H3 | H3]; [| right; right; exact H3].
      destruct (Z.min_spec n a) as [[_ E] | [_ E]].
      * left. rewrite H3. exact E.
      * right. left. rewrite H3. symmetry. exact E.
Qed.

Lemma table_min_spec (t : list Z) :
  match table_min t with
  | None => t = []
  | Some m => Forall (fun k => (m <= k)%Z) t /\ In m t
  end.
Proof.
  destruct t as [| n t]; [reflexivity |]. cbn.
  destruct (fold_min_spec t n) as (H1 & H2 & H3). split.
  - constructor; assumption.
  - destruct H3 as [-> | H3]; [left; reflexivity | right; exact H3].
Qed.



Lemma flat_map_length_const {A B : Type} (f : A -> list B) (n : nat) (l : list A) :
  (forall a, List.length (f a) = n) ->
  List.length (flat_map f l) = (List.length l * n)%nat.
Proof.
  intros H. induction l as [| a l IH]; [reflexivity |].
  simpl. rewrite length_app, H, IH. reflexivity.
Qed.

Lemma indicator_shape k codes :
  (2 <= Base.len codes)%Z -> (1 <= k)%Z ->
  nrow_y (drop (indicator k codes)) = Base.len codes /\
  Base.len (a_data (indicator k codes)) = (Base.len codes * k)%Z /\
  Forall (fun v => v = R.one \/ v = R.zero \/ v = NA) (a_data (indicator k codes)).
Proof.
  intros HL Hk. unfold indicator.
  set (data := flat_map _ _).
  assert (Base.len data = (Base.len codes * k)%Z) as Hlen.
  { unfold Base.len. subst data.
    rewrite (flat_map_length_const _ (List.length codes))
      by (intros a; apply length_map).
    rewrite length_map, length_seq. lia. }
  assert (Forall (fun v => v = R.one \/ v = R.zero \/ v = NA) data) as Hval.
  { subst data. apply Forall_forall. intros v Hv. apply in_flat_map in Hv.
    destruct Hv as (j & _ & Hv). apply in_map_iff in Hv.
    destruct Hv as ([c |] & <- & _); [| right; right; reflexivity].
    destruct (c =? j)%Z; [left | right; left]; reflexivity. }
  replace (Base.len codes =? 1)%Z with false
    by (symmetry; apply Z.eqb_neq; lia).
  cbn [orb]. destruct (k =? 1)%Z eqn:Ek.
  - apply Z.eqb_eq in Ek. subst k. cbn [drop vector a_dim a_data nrow_y].
    repeat split; [lia | exact Hlen | exact Hval].
  - cbn [a_data matrix]. split; [| split; [exact Hlen | exact Hval]].
    unfold drop, matrix. cbn [a_dim a_data filter].
    replace (Base.len codes =? 1)%Z with false
      by (symmetry; apply Z.eqb_neq; lia).
    rewrite Ek. reflexivity.
Qed.

Lemma encode_response_val ya w r w' :
  a_dim ya = None ->
  encode_response ya w = (Val r, w') ->
  let lv := factor_levels (a_data ya) in
  snd r = [Base.len lv] /\
  fst r = indicator (Base.len lv) (map (level_code lv 1) (a_data ya)) /\
  Forall (fun n => (2 <= n)%Z) (tabulate lv (a_data ya)).
Proof.
  intros Hdim H lv. unfold encode_response in H. rewrite Hdim in H.
  fold lv in H.
  pose proof (table_min_spec (tabulate lv (a_data ya))) as Hmin.
  destruct (table_min (tabulate lv (a_data ya))) as [m |].
  - destruct Hmin as [Hle _].
    destruct (m <=? 1)%Z eqn:Em; [apply stop_val in H; contradiction |].
    apply Z.leb_gt in Em.
    step H. done_ret H. cbn [fst snd].
    assert (Base.len (tabulate lv (a_data ya)) = Base.len lv) as El
      by (unfold Base.len, tabulate; rewrite length_map; reflexivity).
    rewrite El. repeat split.
    revert Hle. apply Forall_impl. intros n Hn. lia.
  - step H. done_ret H. cbn [fst snd].
    assert (lv = []) as El.
    { unfold tabulate in Hmin. destruct lv; [reflexivity | discriminate Hmin]. }
    rewrite El. repeat split. constructor.
Qed.

Lemma accepted_encoding ya w r w' :
  a_dim ya = None ->
  existsb (fun v => negb (R.is_na v)) (a_data ya) = true ->
  encode_response ya w = (Val r, w') ->
  let k := Base.len (factor_levels (a_data ya)) in
  snd r = [k] /\ (1 <= k)%Z /\
  Forall (fun n => (2 <= n)%Z)
    (tabulate (factor_levels (a_data ya)) (a_data ya)) /\
  nrow_y (drop (fst r)) = Base.len (a_data ya) /\
  Base.len (a_data (fst r)) = (Base.len (a_data ya) * k)%Z /\
  Forall (fun v => v = R.one \/ v = R.zero \/ v = NA) (a_data (fst r)).
Proof.
  intros Hdim Hex H k.
  destruct (encode_response_val _ _ _ _ Hdim H) as (Hnc & Hy & Hcnt).
  apply existsb_exists in Hex. destruct Hex as (x & Hx & Hna).
  apply negb_true_iff in Hna.
  destruct (value_has_level _ _ Hx Hna) as (l & Hl & _).
  assert (1 <= k)%Z as Hk.
  { subst k. unfold Base.len.
    destruct (factor_levels (a_data ya)); [contradiction | simpl; lia]. }
  assert (2 <= Base.len (a_data ya))%Z as HL.
  { assert (In (Base.len (filter (Base.dbl_eqb l) (a_data ya)))
              (tabulate (factor_levels (a_data ya)) (a_data ya))) as Hin
      by (unfold tabulate; apply in_map_iff; exists l; split; trivial).
    pose proof (proj1 (Forall_forall _ _) Hcnt _ Hin) as H2.
    pose proof (filter_length_le (Base.dbl_eqb l) (a_data ya)).
    unfold Base.len in *. lia. }
  assert (Base.len (map (level_code (factor_levels (a_data ya)) 1) (a_data ya))
          = Base.len (a_data ya)) as Ec
    by (unfold Base.len; rewrite length_map; reflexivity).
  destruct (indicator_shape k
              (map (level_code (factor_levels (a_data ya)) 1) (a_data ya)))
    as (R1 & R2 & R3); [rewrite Ec; exact HL | exact Hk |].
  rewrite Ec in R1, R2. rewrite Hy.
  repeat split; assumption.
Qed.

(** X5.  A response without [dim] that holds a value and is accepted becomes
    the indicators of its distinct values, one column per value: every class
    has at least two observations, every entry is 0, 1 or missing, and after
    [drop] it has as many rows as the response has values. *)
Theorem encoded_response_shape ya w r w' :
  a_dim ya = None ->
  existsb (fun v => negb (R.is_na v)) (a_data ya) = true ->
  encode_response ya w = (Val r, w') ->
  let k := Base.len (factor_levels (a_data ya)) in
  snd r = [k] /\ (1 <= k)%Z /\
  Forall (fun n => (2 <= n)%Z)
    (tabulate (factor_levels (a_data ya)) (a_data ya)) /\
  nrow_y (drop (fst r)) = Base.len (a_data ya) /\
  Base.len (a_data (fst r)) = (Base.len (a_data ya) * k)%Z /\
  Forall (fun v => v = R.one \/ v = R.zero \/ v = NA) (a_data (fst r)).
Proof. exact (accepted_encoding ya w r w'). Qed.

(** The common checks, step by step. *)
Lemma glmnet_entry_parts a w e w' :
  glmnet_entry a w = (Val e, w') ->
  exists w1 w2 w4,
    encode_response (y a) w1 = (Val (e_y e, e_nc e), w2) /\
    check_penalty_factor (penalty_factor a) (e_nvars e) (e_nc e) w4
    = (Val (e_penalty_factor e), w').
Proof.
  unfold glmnet_entry. intros H.
  peel H as np w1 Hdims. peel H as ync w2 Henc. peel H as na w3 Hna.
  destruct na; [apply stop_val in H; contradiction |].
  peel H as wt w4 Hw. peel H as pf w5 Hpf. done_ret H.
  cbn [e_y e_nc e_nvars e_penalty_factor].
  exists w1, w2, w4. split; [| exact Hpf].
  rewrite Henc. destruct ync. reflexivity.
Qed.

Lemma prepare_checks_rows a e fam w fc w' :
  glmnet_prepare a e fam w = (Val fc, w') ->
  nrow_y (drop (e_y e)) = e_nobs e /\ c_nobs fc = e_nobs e.
Proof.
  intros Hp. apply glmnet_prepare_inv in Hp.
  destruct Hp as (al & w1 & w2 & jp & w3 & vp & w4 & pt & w5 & cl & w6 & w7
                  & w8 & fl & w9 & kopt & _ & Hrows & _ & _ & _ & _ & _ & _
                  & _ & _ & _ & _ & _ & _ & _ & _ & _ & Eno & _).
  split; [| exact Eno].
  unfold check_response_rows in Hrows.
  destruct (negb (nrow_y (drop (e_y e)) =? e_nobs e)%Z) eqn:E;
    [apply stop_val in Hrows; contradiction |].
  apply negb_false_iff, Z.eqb_eq in E. exact E.
Qed.

(** X6.  A response without [dim] that holds a value reaches the family
    function only when it has as many values as [x] has rows. *)
Theorem vector_response_length_checked a w0 e w fam fc w' :
  a_dim (y a) = None ->
  existsb (fun v => negb (R.is_na v)) (a_data (y a)) = true ->
  glmnet_entry a w0 = (Val e, w) ->
  glmnet_prepare a e fam w = (Val fc, w') ->
  Base.len (a_data (y a)) = c_nobs fc.
Proof.
  intros Hdim Hex He Hp.
  destruct (glmnet_entry_parts _ _ _ _ He) as (w1 & w2 & w4 & Henc & _).
  destruct (accepted_encoding _ _ _ _ Hdim Hex Henc)
    as (_ & _ & _ & Hrows & _).
  cbn [fst] in Hrows.
  destruct (prepare_checks_rows _ _ _ _ _ _ Hp) as [Hr ->].
  rewrite <- Hrows. exact Hr.
Qed.

(** ** The exclusion list and the penalty factors *)

Lemma set_nth_length {A : Type} (a : A) : forall v n,
  List.length (Base.set_nth n a v) = List.length v.
Proof.
  induction v as [| b v IH]; intros [| n]; simpl; try reflexivity.
  rewrite IH. reflexivity.
Qed.

Lemma nth_set_nth {A : Type} (a d : A) : forall v n i,
  (i < List.length v)%nat ->
  nth i (Base.set_nth n a v) d = if (n =? i)%nat then a else nth i v d.
Proof.
  induction v as [| b v IH]; intros n i Hi; [simpl in Hi; lia |].
  destruct n as [| n], i as [| i]; simpl; try reflexivity.
  apply IH. simpl in Hi. lia.
Qed.

Lemma put_ones_length jd : forall d,
  List.length (put_ones jd d) = List.length d.
Proof.
  induction jd as [| j jd IH]; intros d; [reflexivity |].
  unfold put_ones in *. simpl. rewrite IH. apply set_nth_length.
Qed.

Lemma nth_put_ones jd : forall d i x,
  (i < List.length d)%nat ->
  nth i (put_ones jd d) x
  = if existsb (fun j => (Z.to_nat (j - 1) =? i)%nat) jd then R.one
    else nth i d x.
Proof.
  induction jd as [| j jd IH]; intros d i x Hi; [reflexivity |].
  unfold put_ones in *. simpl.
  rewrite IH by (rewrite set_nth_length; exact Hi).
  rewrite nth_set_nth by exact Hi.
  destruct (Z.to_nat (j - 1) =? i)%nat; simpl.
  - destruct (existsb _ jd); reflexivity.
  - reflexivity.
Qed.

Lemma fold_max_bound (jd : list Z) : forall m n,
  (m <= n)%Z -> Forall (fun i => (1 <= i <= n)%Z) jd ->
  (fold_left Z.max jd m <= n)%Z.
Proof.
  induction jd as [| j jd IH]; intros m n Hm Hj; [exact Hm |].
  simpl. inversion Hj; subst. apply IH; [lia | assumption].
Qed.

Lemma in_somes {A : Type} (a : A) l : In a (somes l) <-> In (Some a) l.
Proof.
  unfold somes. rewrite in_flat_map. split.
  - intros ([b |] & Hb & Hin); [| contradiction].
    destruct Hin as [-> | []]. exact Hb.
  - intros H. exists (Some a). split; [exact H | left; reflexivity].
Qed.

Lemma which_inf_finds n data i :
  (i < List.length data)%nat -> (Z.of_nat i < n)%Z ->
  nth i data NA = PInf ->
  In (Some (Z.of_nat i + 1)%Z) (which_inf n data).
Proof.
  intros Hi Hn Hv. unfold which_inf. apply in_flat_map. exists i. split.
  - apply in_seq. rewrite length_map. lia.
  - rewrite length_map, Nat.mod_small by exact Hi.
    rewrite (nth_indep _ None (R.eq NA PInf)) by (rewrite length_map; exact Hi).
    rewrite (map_nth (fun v => R.eq v PInf)), Hv. cbn.
    apply Z.ltb_lt in Hn. rewrite Hn. left. reflexivity.
Qed.

Lemma eq_pinf v : R.eq v PInf = Some true -> v = PInf.
Proof. destruct v; cbn; intros H; try discriminate H; reflexivity. Qed.

Lemma which_inf_sound n data j :
  In (Some j) (which_inf n data) ->
  exists i, j = (Z.of_nat i + 1)%Z /\ (Z.of_nat i < n)%Z /\
            nth (i mod List.length data) data NA = PInf.
Proof.
  unfold which_inf. intros H. apply in_flat_map in H.
  destruct H as (i & _ & H). rewrite length_map in H.
  destruct (Nat.lt_ge_cases (i mod List.length data) (List.length data))
    as [Hlt | Hge].
  - rewrite (nth_indep _ None (R.eq NA PInf)) in H
      by (rewrite length_map; exact Hlt).
    rewrite (map_nth (fun v => R.eq v PInf)) in H.
    destruct (R.eq (nth (i mod List.length data) data NA) PInf)
      as [[|] |] eqn:E.
    + destruct (Z.of_nat i <? n)%Z eqn:En.
      * destruct H as [H | []]. injection H as <-.
        exists i. apply Z.ltb_lt in En. apply eq_pinf in E.
        repeat split; assumption.
      * destruct H as [H | []]. discriminate H.
    + contradiction.
    + destruct H as [H | []]. discriminate H.
  - rewrite nth_overflow in H by (rewrite length_map; exact Hge).
    destruct H as [H | []]. discriminate H.
Qed.

Lemma in_unique_Z l i : In i (Base.unique Z.eqb l) <-> In i l.
Proof.
  split; [apply unique_from_incl |].
  intros H.
  destruct (unique_from_represents Z.eqb l [] i H (Z.eqb_refl i))
    as [E | (u & Hu & E)]; [discriminate E |].
  apply Z.eqb_eq in E. subst u. exact Hu.
Qed.

Lemma Zleb_total a b : Z.leb a b = false -> Z.leb b a = true.
Proof. intros H. apply Z.leb_gt in H. apply Z.leb_le. lia. Qed.

Lemma match_in_range n ex :
  forallb (fun j => (0 <? j)%Z)
    (map (fun e => if ((1 <=? e) && (e <=? n))%Z then e else 0%Z) ex) = true ->
  map (fun e => if ((1 <=? e) && (e <=? n))%Z then e else 0%Z) ex = ex /\
  Forall (fun i => (1 <= i <= n)%Z) ex.
Proof.
  induction ex as [| e ex IH]; intros H; [split; [reflexivity | constructor] |].
  simpl in H. apply andb_true_iff in H. destruct H as [He H].
  destruct (IH H) as [E F]. simpl. rewrite E.
  destruct ((1 <=? e) && (e <=? n))%Z eqn:R; [| discriminate He].
  apply andb_true_iff in R. destruct R as [R1 R2].
  apply Z.leb_le in R1. apply Z.leb_le in R2.
  split; [reflexivity | constructor; [lia | exact F]].
Qed.

Lemma assign_ones_nil m : assign_ones [] m = m.
Proof.
  unfold assign_ones. cbn [fold_left].
  replace (0 <=? Base.len (a_data m))%Z with true
    by (symmetry; apply Z.leb_le; unfold Base.len; lia).
  destruct m. reflexivity.
Qed.

Lemma exclude_step_spec ex n pf w jp w' :
  exclude_step ex n pf w = (Val jp, w') ->
  exists idx,
    fst jp = Base.len idx :: idx /\
    snd jp = assign_ones idx pf /\
    Forall (fun i => (1 <= i <= n)%Z) idx /\
    (forall i, In i (match ex with Some l => l | None => [] end) -> In i idx) /\
    (forall i, (i < List.length (a_data pf))%nat -> (Z.of_nat i < n)%Z ->
               nth i (a_data pf) NA = PInf -> In (Z.of_nat i + 1)%Z idx) /\
    (forall j, In j idx ->
               In j (match ex with Some l => l | None => [] end) \/
               exists i, j = (Z.of_nat i + 1)%Z /\ (Z.of_nat i < n)%Z /\
                 nth (i mod List.length (a_data pf)) (a_data pf) NA = PInf).
Proof.
  unfold exclude_step. intros H.
  peel H as inf w1 Hinf. apply cond_val in Hinf. destruct Hinf as [Hinf ->].
  set (ex0 := match ex with Some l => l | None => [] end) in *.
  set (ex1 := if inf then _ else ex0) in H.
  assert (forall i, In i ex0 -> In i ex1) as Hex.
  { intros i Hi. subst ex1. destruct inf; [| exact Hi].
    eapply Permutation_in; [apply isort_permutation |].
    apply in_unique_Z. apply in_or_app. left. exact Hi. }
  assert (forall i, (i < List.length (a_data pf))%nat -> (Z.of_nat i < n)%Z ->
             nth i (a_data pf) NA = PInf -> In (Z.of_nat i + 1)%Z ex1) as Hpi.
  { intros i Hi Hn Hv. subst ex1. destruct inf.
    - eapply Permutation_in; [apply isort_permutation |].
      apply in_unique_Z. apply in_or_app. right.
      apply in_somes. apply which_inf_finds; assumption.
    - apply any_map_false in Hinf.
      pose proof (proj1 (Forall_forall _ _) Hinf _ (nth_In _ NA Hi)) as E.
      rewrite Hv in E. discriminate E. }
  assert (forall j, In j ex1 ->
             In j ex0 \/
             exists i, j = (Z.of_nat i + 1)%Z /\ (Z.of_nat i < n)%Z /\
               nth (i mod List.length (a_data pf)) (a_data pf) NA = PInf)
    as Hconv.
  { intros j Hj. subst ex1. destruct inf; [| left; exact Hj].
    eapply Permutation_in in Hj;
      [| apply Permutation_sym, isort_permutation].
    apply (proj1 (in_unique_Z _ _)) in Hj. apply in_app_or in Hj.
    destruct Hj as [Hj | Hj]; [left; exact Hj | right].
    apply in_somes in Hj. apply which_inf_sound. exact Hj. }
  destruct (0 <? Base.len ex1)%Z eqn:E0.
  - destruct (negb (forallb _ _)) eqn:Eall; [apply stop_val in H; contradiction |].
    apply negb_false_iff in Eall. apply match_in_range in Eall.
    destruct Eall as [Emap Hrange]. rewrite Emap in H.
    done_ret H. exists ex1. cbn [fst snd].
    repeat split; assumption.
  - done_ret H. exists []. cbn [fst snd].
    assert (ex1 = []) as En.
    { apply Z.ltb_ge in E0. unfold Base.len in E0.
      destruct ex1; [reflexivity | simpl in E0; lia]. }
    rewrite En in Hex, Hpi.
    repeat split; try assumption; try (symmetry; apply assign_ones_nil).
    + constructor.
    + intros i [].
Qed.

Lemma assign_ones_eq jd m :
  assign_ones jd m
  = if (fold_left Z.max jd 0%Z <=? Base.len (a_data m))%Z
    then {| a_dim := a_dim m; a_data := put_ones jd (a_data m) |}
    else vector (put_ones jd
                   (a_data m ++ repeat NA (Z.to_nat (fold_left Z.max jd 0%Z
                                                     - Base.len (a_data m))))).
Proof. reflexivity. Qed.

Lemma check_penalty_factor_val pf nvars nc w m w' :
  check_penalty_factor pf nvars nc w = (Val m, w') ->
  m = match pf with Some m => m | None => default_penalty_factor nvars nc end /\
  forall nr k, a_dim m = Some [nr; k] -> nr = nvars.
Proof.
  unfold check_penalty_factor. intros H.
  destruct (negb (forallb _ _)) eqn:E; [apply stop_val in H; contradiction |].
  done_ret H. split; [reflexivity |].
  intros nr k Hd. rewrite Hd in E. apply negb_false_iff in E.
  unfold R.vec2 in E. cbn [List.length Nat.max seq map forallb] in E.
  apply andb_true_iff in E. destruct E as [E _]. 
  rewrite !Nat.Div0.mod_0_l in E. cbn [nth] in E.
  apply Z.eqb_eq in E. exact E.
Qed.

Lemma prepare_penalty_inv a e fam w fc w' :
  glmnet_prepare a e fam w = (Val fc, w') ->
  exists jp w2 w3 w4 w9,
    exclude_step (exclude a) (e_nvars e) (e_penalty_factor e) w2
      = (Val jp, w3) /\
    first_column (snd jp) w3 = (Val (c_vp fc), w4) /\
    kopt_step a fam w9 = (Val (c_kopt fc), w') /\
    c_jd fc = fst jp /\ c_mp fc = snd jp /\ c_nvars fc = e_nvars e /\
    c_ne fc = resolve_dfmax a (e_nvars e) /\
    c_nx fc = resolve_pmax a (e_nvars e) /\
    c_family fc = fam.
Proof.
  unfold glmnet_prepare. intros H.
  peel H as al w1 Hal. peel H as u2 w2 Hrows. peel H as jp w3 Hex.
  peel H as vp w4 Hvp. peel H as pt w5 Htr. peel H as cl w6 Hcl.
  peel H as u7 w7 Hfd. peel H as u8 w8 Hcox. peel H as fl w9 Hlam.
  peel H as kopt w10 Hk. done_ret H.
  exists jp, w2, w3, w4, w9. cbn.
  repeat split; assumption.
Qed.

(** The penalty factors on the way to the family function. *)
Lemma penalty_core a w0 e w fam fc w' :
  (forall m, penalty_factor a = Some m -> well_formed m) ->
  glmnet_entry a w0 = (Val e, w) ->
  glmnet_prepare a e fam w = (Val fc, w') ->
  let n := c_nvars fc in
  let pf := e_penalty_factor e in
  exists idx k,
    c_jd fc = Base.len idx :: idx /\
    Forall (fun i => (1 <= i <= n)%Z) idx /\
    (forall j, In j idx <->
               In j (supplied_exclude a) \/
               ((1 <= j <= n)%Z /\ nth (Z.to_nat (j - 1)) (a_data pf) NA = PInf)) /\
    (1 < n)%Z /\ (1 <= k)%Z /\
    a_dim pf = Some [n; k] /\
    Base.len (a_data pf) = (n * k)%Z /\
    c_mp fc = {| a_dim := Some [n; k]; a_data := put_ones idx (a_data pf) |} /\
    c_vp fc = firstn (Z.to_nat n) (put_ones idx (a_data pf)).
Proof.
  intros Hwf He Hp n pf.
  destruct (glmnet_entry_parts _ _ _ _ He) as (wa & wb & wc & _ & Hpf).
  apply check_penalty_factor_val in Hpf. destruct Hpf as [Epf Hnr].
  destruct (glmnet_entry_inv _ _ _ _ He) as (_ & Hn & _).
  destruct (prepare_penalty_inv _ _ _ _ _ _ Hp)
    as (jp & w2 & w3 & w4 & w9 & Hex & Hvp & _ & Ejd & Emp & En & _).
  apply exclude_step_spec in Hex.
  destruct Hex as (idx & Ej & Es & Hrange & Hsup & Hinf & Hconv).
  fold pf in Es, Hinf, Hconv, Epf, Hnr.
  subst n. rewrite En.
  unfold first_column in Hvp. rewrite Es, assign_ones_eq in Hvp.
  rewrite Es, assign_ones_eq in Emp.
  destruct (fold_left Z.max idx 0 <=? Base.len (a_data pf))%Z eqn:Etop;
    [| apply stop_val in Hvp; contradiction].
  cbn [a_dim a_data] in Hvp.
  destruct (a_dim pf) as [[| nr [| k [| ? ?]]] |] eqn:Ed;
    try (apply stop_val in Hvp; contradiction).
  destruct (k <? 1)%Z eqn:Ek; [apply stop_val in Hvp; contradiction |].
  apply Z.ltb_ge in Ek. done_ret Hvp.
  pose proof (Hnr _ _ eq_refl) as Enr. subst nr.
  assert (Base.len (a_data pf) = (e_nvars e * k)%Z) as Elen.
  { destruct (penalty_factor a) as [m |] eqn:Em.
    - specialize (Hwf m eq_refl). unfold well_formed in Hwf.
      rewrite <- Epf, Ed in Hwf. rewrite Hwf. cbn. lia.
    - rewrite Epf in Ed |- *.
      unfold default_penalty_factor, matrix in Ed |- *. cbn [a_dim a_data] in *.
      injection Ed as Ek'. rewrite Ek'. rewrite len_rep by nia. reflexivity. }
  exists idx, k.
  rewrite Ejd, Ej, Emp. rewrite <- H.
  repeat split; try assumption; try reflexivity.
  - intros Hj. destruct (Hconv _ Hj) as [Hs | (i & -> & Hi & Hv)];
      [left; exact Hs | right].
    assert (i < List.length (a_data pf))%nat as Hlt
      by (unfold Base.len in Elen; nia).
    rewrite Nat.mod_small in Hv by exact Hlt.
    replace (Z.to_nat (Z.of_nat i + 1 - 1)) with i by lia.
    split; [lia | exact Hv].
  - intros [Hs | [Hr Hv]]; [apply Hsup; exact Hs |].
    replace j with (Z.of_nat (Z.to_nat (j - 1)) + 1)%Z by lia.
    apply Hinf; [| lia | exact Hv].
    destruct (Nat.lt_ge_cases (Z.to_nat (j - 1)) (List.length (a_data pf)))
      as [Hlt | Hge]; [exact Hlt |].
    rewrite nth_overflow in Hv by exact Hge. discriminate Hv.
Qed.

Lemma nth_repeat_one (n i : nat) : nth i (repeat R.one n) NA <> PInf.
Proof.
  destruct (Nat.lt_ge_cases i n) as [Hlt | Hge].
  - rewrite nth_repeat_lt by exact Hlt. discriminate.
  - rewrite nth_overflow by (rewrite repeat_length; exact Hge). discriminate.
Qed.

Lemma entry_penalty a w0 e w :
  glmnet_entry a w0 = (Val e, w) ->
  match penalty_factor a with
  | Some m => e_penalty_factor e = m
  | None => exists n, a_data (e_penalty_factor e) = repeat R.one n
  end.
Proof.
  intros He.
  destruct (glmnet_entry_parts _ _ _ _ He) as (wa & wb & wc & _ & Hpf).
  apply check_penalty_factor_val in Hpf. destruct Hpf as [Epf _].
  destruct (penalty_factor a); [exact Epf |].
  rewrite Epf. eexists. reflexivity.
Qed.

(** X7.  The exclusion list handed to the family function is its own length
    followed by indices between 1 and [nvars]; a variable is on it exactly
    when the caller excluded it or gave it an infinite penalty factor in
    the first column of [penalty.factor].  The supplied [penalty.factor] is
    assumed to hold as many values as its [dim] says. *)
Theorem exclusions_are_supplied_or_infinite a w0 e w fam fc w' :
  (forall m, penalty_factor a = Some m -> well_formed m) ->
  glmnet_entry a w0 = (Val e, w) ->
  glmnet_prepare a e fam w = (Val fc, w') ->
  exists idx,
    c_jd fc = Base.len idx :: idx /\
    Forall (fun j => (1 <= j <= c_nvars fc)%Z) idx /\
    forall j, In j idx <->
              In j (supplied_exclude a) \/
              ((1 <= j <= c_nvars fc)%Z /\
               nth (Z.to_nat (j - 1)) (supplied_penalty a) NA = PInf).
Proof.
  intros Hwf He Hp.
  destruct (penalty_core _ _ _ _ _ _ _ Hwf He Hp)
    as (idx & k & Ejd & Hrange & Hiff & _).
  pose proof (entry_penalty _ _ _ _ He) as Hpf.
  exists idx. split; [exact Ejd |]. split; [exact Hrange |].
  intros j. rewrite Hiff. unfold supplied_penalty.
  destruct (penalty_factor a) as [m |].
  - rewrite Hpf. reflexivity.
  - destruct Hpf as [n ->]. split.
    + intros [Hs | [_ Hv]]; [left; exact Hs |].
      exfalso. exact (nth_repeat_one _ _ Hv).
    + intros [Hs | [_ Hv]]; [left; exact Hs |].
      destruct (Z.to_nat (j - 1)); discriminate Hv.
Qed.

(** X8.  The penalty vector [vp] handed to the family function is the first
    column of the penalty matrix [mp], which has [nvars] rows and at least
    one column; it has [nvars] entries, none of them [+Inf], the excluded
    variables have penalty factor 1 and the others the factor supplied (1 by
    default). *)
Theorem penalty_vector_after_exclusion a w0 e w fam fc w' :
  (forall m, penalty_factor a = Some m -> well_formed m) ->
  glmnet_entry a w0 = (Val e, w) ->
  glmnet_prepare a e fam w = (Val fc, w') ->
  let n := c_nvars fc in
  let idx := tl (c_jd fc) in
  Base.len (c_vp fc) = n /\
  Forall (fun v => v <> PInf) (c_vp fc) /\
  (forall j, In j idx -> nth (Z.to_nat (j - 1)) (c_vp fc) NA = R.one) /\
  (forall i, (0 <= i < n)%Z -> ~ In (i + 1)%Z idx ->
     nth (Z.to_nat i) (c_vp fc) NA
     = match penalty_factor a with
       | Some m => nth (Z.to_nat i) (a_data m) NA
       | None => R.one
       end) /\
  exists k, (1 <= k)%Z /\ a_dim (c_mp fc) = Some [n; k] /\
            Base.len (a_data (c_mp fc)) = (n * k)%Z /\
            c_vp fc = firstn (Z.to_nat n) (a_data (c_mp fc)).
Proof.
  intros Hwf He Hp n idx0.
  destruct (penalty_core _ _ _ _ _ _ _ Hwf He Hp)
    as (idx & k & Ejd & Hrange & Hiff & Hn & Hk & Ed & Elen & Emp & Evp).
  fold n in Hrange, Hiff, Hn, Ed, Elen, Emp, Evp.
  assert (idx0 = idx) as -> by (subst idx0; rewrite Ejd; reflexivity).
  set (data := a_data (e_penalty_factor e)) in *.
  assert (List.length data = Z.to_nat (n * k)) as Elen'
    by (unfold Base.len in Elen; lia).
  assert (Z.to_nat n <= List.length data)%nat as Hle by nia.
  assert (forall i, (i < Z.to_nat n)%nat ->
            nth i (c_vp fc) NA
            = if existsb (fun j => (Z.to_nat (j - 1) =? i)%nat) idx then R.one
              else nth i data NA) as Hnth.
  { intros i Hi. rewrite Evp, nth_firstn.
    replace (i <? Z.to_nat n)%nat with true by (symmetry; apply Nat.ltb_lt; exact Hi).
    apply nth_put_ones. lia. }
  assert (Base.len (c_vp fc) = n) as Hlen.
  { unfold Base.len. rewrite Evp, length_firstn, put_ones_length. lia. }
  assert (forall j, In j idx ->
            existsb (fun j' => (Z.to_nat (j' - 1) =? Z.to_nat (j - 1))%nat) idx
            = true) as Hhit.
  { intros j Hj. apply existsb_exists. exists j. split; [exact Hj |].
    apply Nat.eqb_refl. }
  split; [exact Hlen |]. split; [| split; [| split]].
  - apply Forall_forall. intros v Hv.
    destruct (In_nth _ _ NA Hv) as (i & Hi & <-).
    assert (i < Z.to_nat n)%nat as Hi' by (unfold Base.len in Hlen; lia).
    rewrite (Hnth i Hi').
    destruct (existsb _ idx) eqn:Eex; [discriminate |].
    intros Hinf.
    assert (In (Z.of_nat i + 1)%Z idx) as Hin.
    { apply Hiff. right. split; [lia |].
      replace (Z.to_nat (Z.of_nat i + 1 - 1)) with i by lia. exact Hinf. }
    apply Hhit in Hin.
    replace (Z.to_nat (Z.of_nat i + 1 - 1)) with i in Hin by lia.
    congruence.
  - intros j Hj.
    pose proof (proj1 (Forall_forall _ _) Hrange _ Hj) as Hr. cbv beta in Hr.
    rewrite Hnth by lia. rewrite (Hhit _ Hj). reflexivity.
  - intros i Hi Hnot. rewrite Hnth by lia.
    destruct (existsb _ idx) eqn:Eex.
    + exfalso. apply Hnot. apply existsb_exists in Eex.
      destruct Eex as (j & Hj & Ej). apply Nat.eqb_eq in Ej.
      pose proof (proj1 (Forall_forall _ _) Hrange _ Hj) as Hr. cbv beta in Hr.
      replace (i + 1)%Z with j by lia. exact Hj.
    + pose proof (entry_penalty _ _ _ _ He) as Hpf.
      destruct (penalty_factor a) as [m |].
      * subst data. rewrite Hpf. reflexivity.
      * destruct Hpf as [q Hq]. subst data. rewrite Hq.
        rewrite Hq, repeat_length in Elen'.
        apply nth_repeat_lt. nia.
  - exists k. rewrite Emp. cbn [a_dim a_data].
    repeat split; [exact Hk | | exact Evp].
    unfold Base.len. rewrite put_ones_length. exact Elen.
Qed.

(** X9.  A [penalty.factor] without [dim] passes the test on its dimensions
    in the common checks, but the call never reaches a family function: the
    preparation stops with an error. *)
Theorem vector_penalty_factor_rejected a w0 e w fam m :
  penalty_factor a = Some m ->
  a_dim m = None ->
  glmnet_entry a w0 = (Val e, w) ->
  exists s w', glmnet_prepare a e fam w = (Stop s, w').
Proof.
  intros Hm Hd He.
  destruct (glmnet_prepare a e fam w) as [[fc | s] w'] eqn:Hp;
    [exfalso | exists s, w'; reflexivity].
  assert (forall m', penalty_factor a = Some m' -> well_formed m') as Hwf.
  { intros m' Hm'. rewrite Hm in Hm'. injection Hm' as <-.
    unfold well_formed. rewrite Hd. exact I. }
  destruct (penalty_core _ _ _ _ _ _ _ Hwf He Hp)
    as (idx & k & _ & _ & _ & _ & _ & Ed & _).
  pose proof (entry_penalty _ _ _ _ He) as Hpf. rewrite Hm in Hpf.
  rewrite Hpf, Hd in Ed. discriminate Ed.
Qed.

Lemma check_penalty_factor_dims m nvars nc w r w' :
  check_penalty_factor (Some m) nvars nc w = (Val r, w') ->
  forall d, a_dim m = Some d ->
    forallb (fun b => b) (R.vec2 Z.eqb d (nvars :: nc)) = true.
Proof.
  unfold check_penalty_factor. intros H d Hd. rewrite Hd in H.
  destruct (forallb (fun b => b) (R.vec2 Z.eqb d (nvars :: nc)));
    [reflexivity | apply stop_val in H; contradiction].
Qed.

(** X10.  A supplied [penalty.factor] with two extents passes the common
    checks only with [nvars] rows and, for a response without [dim], one
    column per class. For a matrix response the test compares its two
    extents with [nvars] and the two extents of the response, recycling the
    shorter side: it demands as many columns as there are observations and
    as many response columns as variables. *)
Theorem penalty_dims_checked a w0 e w m nr k :
  penalty_factor a = Some m ->
  a_dim m = Some [nr; k] ->
  glmnet_entry a w0 = (Val e, w) ->
  nr = e_nvars e /\
  (a_dim (y a) = None -> k = Base.len (factor_levels (a_data (y a)))) /\
  (forall n, a_dim (y a) = Some [n] -> k = n) /\
  (forall n q, a_dim (y a) = Some [n; q] -> k = n /\ q = e_nvars e).
Proof.
  intros Hm Hd He.
  destruct (glmnet_entry_parts _ _ _ _ He) as (w1 & w2 & w4 & Henc & Hpf).
  rewrite Hm in Hpf.
  pose proof (check_penalty_factor_dims _ _ _ _ _ _ Hpf _ Hd) as Hall.
  assert (nr = e_nvars e) as Enr.
  { apply check_penalty_factor_val in Hpf. destruct Hpf as [-> Hnr].
    exact (Hnr _ _ Hd). }
  split; [exact Enr |]. split; [| split].
  - intros Hy. apply (encode_response_val _ _ _ _ Hy) in Henc.
    destruct Henc as (Hnc & _). cbn [snd] in Hnc. rewrite Hnc in Hall.
    cbn in Hall. rewrite !andb_true_iff in Hall.
    destruct Hall as (_ & Hk & _). apply Z.eqb_eq in Hk. exact Hk.
  - intros n Hy. unfold encode_response in Henc. rewrite Hy in Henc.
    apply ret_val in Henc. destruct Henc as [Henc _].
    injection Henc as _ Hnc. rewrite Hnc in Hall.
    cbn in Hall. rewrite !andb_true_iff in Hall.
    destruct Hall as (_ & Hk & _). apply Z.eqb_eq in Hk. exact Hk.
  - intros n q Hy. unfold encode_response in Henc. rewrite Hy in Henc.
    apply ret_val in Henc. destruct Henc as [Henc _].
    injection Henc as _ Hnc. rewrite Hnc in Hall.
    cbn in Hall. rewrite !andb_true_iff in Hall.
    destruct Hall as (_ & Hk & Hq & _).
    apply Z.eqb_eq in Hk. apply Z.eqb_eq in Hq. split; [exact Hk | lia].
Qed.

(** ** Names, capacities and [kopt] *)


Lemma prefix_of_eqb s c : String.eqb s c = true -> String.prefix s c = true.
Proof.
  intros H. apply String.eqb_eq in H. subst c.
  induction s as [| ch s IH]; [reflexivity |].
  simpl. destruct (Ascii.ascii_dec ch ch); [exact IH | congruence].
Qed.

Lemma pmatch_prefix s choices c :
  Base.pmatch s choices = Some c ->
  s <> EmptyString /\ String.prefix s c = true.
Proof.
  unfold Base.pmatch. destruct (String.eqb s EmptyString) eqn:Ee; [discriminate |].
  apply String.eqb_neq in Ee. intros H. split; [exact Ee |].
  destruct (filter (String.eqb s) choices) as [| c1 r] eqn:E1.
  - destruct (filter (String.prefix s) choices) as [| c2 [| c3 r]] eqn:E2;
      try discriminate.
    injection H as <-.
    assert (In c2 (filter (String.prefix s) choices)) as Hin
      by (rewrite E2; left; reflexivity).
    apply filter_In in Hin. apply Hin.
  - injection H as <-.
    assert (In c1 (filter (String.eqb s) choices)) as Hin
      by (rewrite E1; left; reflexivity).
    apply filter_In in Hin. apply prefix_of_eqb. apply Hin.
Qed.

Lemma match_arg_val arg choices w c w' :
  Base.match_arg arg choices w = (Val c, w') ->
  match arg with
  | None => c = hd EmptyString choices
  | Some s => Base.pmatch s choices = Some c
  end.
Proof.
  unfold Base.match_arg. destruct arg as [s |]; intros H.
  - destruct (Base.pmatch s choices); [| apply stop_val in H; contradiction].
    apply ret_val in H. destruct H as [-> _]. reflexivity.
  - apply ret_val in H. destruct H as [-> _]. reflexivity.
Qed.

Lemma prefix_cons ch s c t :
  String.prefix (String ch s) (String c t) = true ->
  ch = c /\ String.prefix s t = true.
Proof.
  cbn [String.prefix]. destruct (Ascii.ascii_dec ch c) as [-> |]; intros H;
    [split; [reflexivity | exact H] | discriminate H].
Qed.

Lemma pmatch_grouped s :
  s <> EmptyString -> String.prefix s "grouped" = true ->
  Base.pmatch s ["ungrouped"; "grouped"]%string = Some "grouped"%string.
Proof.
  intros Hne Hp. unfold Base.pmatch.
  apply String.eqb_neq in Hne. rewrite Hne.
  destruct s as [| ch s]; [discriminate Hne |].
  apply prefix_cons in Hp. destruct Hp as [-> Hp].
  cbn [filter].
  match goal with
  | |- context [String.eqb ?u "ungrouped"] =>
      change (String.eqb u "ungrouped") with false;
      change (String.prefix u "ungrouped") with false;
      change (String.prefix u "grouped") with (String.prefix s "rouped")
  end.
  rewrite Hp.
  match goal with
  | |- context [String.eqb ?u "grouped"] =>
      destruct (String.eqb u "grouped"); reflexivity
  end.
Qed.

(** X11.  [type.logistic] is matched for every family, so a call that
    reaches a family function has a [type.logistic] that is missing or
    abbreviates one of its two values. [kopt] is 0, 1 or 2; it is 2 exactly
    for the multinomial family with a [type.multinomial] that abbreviates
    "grouped", and it is not 1 when [type.logistic] is missing. *)
Theorem kopt_by_family a e fam w fc w' :
  glmnet_prepare a e fam w = (Val fc, w') ->
  (c_kopt fc = 0 \/ c_kopt fc = 1 \/ c_kopt fc = 2)%Z /\
  (c_kopt fc = 2%Z <->
   fam = multinomial /\
   exists s, type_multinomial a = Some s /\ s <> EmptyString /\
             String.prefix s "grouped" = true) /\
  (type_logistic a = None -> c_kopt fc <> 1%Z) /\
  (forall s, type_logistic a = Some s ->
     s <> EmptyString /\
     (String.prefix s "Newton" = true \/
      String.prefix s "modified.Newton" = true)).
Proof.
  intros Hp.
  destruct (prepare_penalty_inv _ _ _ _ _ _ Hp)
    as (jp & w2 & w3 & w4 & w9 & _ & _ & Hk & _ & _ & _ & _ & _ & Efam).
  clear Hp. unfold kopt_step in Hk.
  peel Hk as tl w10 Htl. apply match_arg_val in Htl.
  set (k0 := if String.eqb tl "Newton" then 0%Z else 1%Z) in Hk.
  assert (k0 = 0 \/ k0 = 1)%Z as Hk0
    by (subst k0; destruct (String.eqb tl "Newton"); [left | right]; reflexivity).
  assert (type_logistic a = None -> k0 = 0%Z) as Hdef.
  { intros E. rewrite E in Htl. subst tl. reflexivity. }
  assert (forall s, type_logistic a = Some s ->
            s <> EmptyString /\
            (String.prefix s "Newton" = true \/
             String.prefix s "modified.Newton" = true)) as Hl.
  { intros s E. rewrite E in Htl.
    pose proof (pmatch_in _ _ _ Htl) as Hin.
    apply pmatch_prefix in Htl. destruct Htl as [Hne Hpre].
    split; [exact Hne |].
    destruct Hin as [<- | [<- | []]]; [left | right]; exact Hpre. }
  destruct fam.
  all: try (assert (c_kopt fc = k0) as E
              by (apply ret_val in Hk; apply Hk);
            clear Hk;
            split; [lia |];
            split; [split; [intros E2; lia | intros [E2 _]; discriminate E2] |];
            split; [intros E3; specialize (Hdef E3); lia | exact Hl]).
  peel Hk as tm w11 Htm. apply match_arg_val in Htm. done_ret Hk.
  destruct (String.eqb tm "grouped") eqn:Eg.
  - apply String.eqb_eq in Eg. subst tm. rewrite H.
    split; [right; right; reflexivity |]. split; [| split; [| exact Hl]].
    + split; [intros _ | reflexivity]. split; [reflexivity |].
      destruct (type_multinomial a) as [s |]; [| discriminate Htm].
      exists s. split; [reflexivity |]. apply pmatch_prefix in Htm. exact Htm.
    + intros _. discriminate.
  - rewrite H. split; [lia |]. split; [| split; [| exact Hl]].
    + split; [intros E; exfalso; lia |].
      intros (_ & s & Es & Hne & Hpre).
      rewrite Es in Htm. rewrite (pmatch_grouped _ Hne Hpre) in Htm.
      injection Htm as <-. discriminate Eg.
    + intros E. specialize (Hdef E). lia.
Qed.

Lemma prepare_names a e fam w fc w' :
  glmnet_prepare a e fam w = (Val fc, w') ->
  c_vnames fc = variable_names (x a) (e_nvars e).
Proof.
  unfold glmnet_prepare. intros H.
  peel H as al w1 Hal. peel H as u2 w2 Hrows. peel H as jp w3 Hex.
  peel H as vp w4 Hvp. peel H as pt w5 Htr. peel H as cl w6 Hcl.
  peel H as u7 w7 Hfd. peel H as u8 w8 Hcox. peel H as fl w9 Hlam.
  peel H as kopt w10 Hk. done_ret H. reflexivity.
Qed.

Lemma to_int_not_nil z :
  Z.to_int z <> Decimal.Pos Decimal.Nil /\ Z.to_int z <> Decimal.Neg Decimal.Nil.
Proof.
  pose proof (DecimalZ.to_of (Z.to_int z)) as H.
  rewrite DecimalZ.of_to in H.
  split; intros E; rewrite E in H; discriminate H.
Qed.

Lemma Zstr_injective a b : Zstr a = Zstr b -> a = b.
Proof.
  unfold Zstr. intros H.
  apply (f_equal NilZero.int_of_string) in H.
  destruct (to_int_not_nil a) as [A1 A2]. destruct (to_int_not_nil b) as [B1 B2].
  rewrite !NilZero.isi in H by assumption.
  injection H as H. apply (f_equal Z.of_int) in H.
  rewrite !DecimalZ.of_to in H. exact H.
Qed.

Lemma NoDup_map_injective {A B : Type} (f : A -> B) (l : list A) :
  (forall a b, f a = f b -> a = b) -> NoDup l -> NoDup (map f l).
Proof.
  intros Hf H. induction H as [| a l Hnot Hl IH]; [constructor |].
  simpl. constructor; [| exact IH].
  intros Hin. apply in_map_iff in Hin. destruct Hin as (b & Hb & Hin).
  apply Hf in Hb. subst b. contradiction.
Qed.

(** X12.  Without column names on [x], the variables are named V1, V2, ...:
    as many names as [x] has columns, no two alike. *)
Theorem default_variable_names a w0 e w fam fc w' :
  x_colnames (x a) = None ->
  glmnet_entry a w0 = (Val e, w) ->
  glmnet_prepare a e fam w = (Val fc, w') ->
  Base.len (c_vnames fc) = c_nvars fc /\
  NoDup (c_vnames fc) /\
  forall i, (1 <= i <= c_nvars fc)%Z ->
    nth (Z.to_nat (i - 1)) (c_vnames fc) EmptyString = ("V" ++ Zstr i)%string.
Proof.
  intros Hc He Hp.
  destruct (glmnet_entry_inv _ _ _ _ He) as (_ & Hn & _).
  destruct (prepare_checks_rows _ _ _ _ _ _ Hp) as [_ Eno].
  destruct (prepare_penalty_inv _ _ _ _ _ _ Hp)
    as (jp & w2 & w3 & w4 & w9 & _ & _ & _ & _ & _ & En & _).
  rewrite (prepare_names _ _ _ _ _ _ Hp), En.
  unfold variable_names. rewrite Hc. unfold R.rseq.
  replace (1 <=? e_nvars e)%Z with true by (symmetry; apply Z.leb_le; lia).
  rewrite map_map. split; [| split].
  - unfold Base.len. rewrite length_map, length_seq. lia.
  - apply NoDup_map_injective; [| apply seq_NoDup].
    intros p q Hpq. injection Hpq as Hpq. apply Zstr_injective in Hpq. lia.
  - intros i Hi.
    rewrite (nth_indep _ EmptyString ("V" ++ Zstr (Z.of_nat 0))%string)
      by (rewrite length_map, length_seq; lia).
    rewrite (map_nth (fun k => ("V" ++ Zstr (Z.of_nat k))%string)).
    rewrite seq_nth by lia.
    replace (Z.of_nat (1 + Z.to_nat (i - 1))) with i by lia. reflexivity.
Qed.



(** ** When [elnet] finds the response constant *)









(** ** The box constraints *)

Lemma to_length_cases what v n w r w' :
  (1 <= n)%Z ->
  to_length what v n w = (Val r, w') ->
  (Base.len v = 1%Z \/ (n <= Base.len v)%Z) /\
  ((n <= Base.len v)%Z -> r = firstn (Z.to_nat n) v).
Proof.
  intros Hn. unfold to_length.
  destruct (Base.len v <? n)%Z eqn:Hlt.
  - destruct (Base.len v =? 1)%Z eqn:H1;
      [| intros H; apply stop_val in H; contradiction].
    intros _. apply Z.eqb_eq in H1. apply Z.ltb_lt in Hlt.
    split; [left; exact H1 | intros Hle; lia].
  - apply Z.ltb_ge in Hlt. rewrite index_rseq_firstn by lia.
    intros H. done_ret H. split; [right; exact Hlt | reflexivity].
Qed.

Lemma check_limits_inputs lo up bigv n w cl w' :
  (1 <= n)%Z ->
  check_limits lo up bigv n w = (Val cl, w') ->
  (Forall (fun v => R.le v R.zero = Some true) lo /\
   Forall (fun v => R.ge v R.zero = Some true) up) /\
  ((Base.len lo = 1%Z \/ (n <= Base.len lo)%Z) /\
   (Base.len up = 1%Z \/ (n <= Base.len up)%Z)) /\
  ((n <= Base.len lo)%Z ->
   cl_lower cl = firstn (Z.to_nat n) (map (lower_bound bigv) lo)) /\
  ((n <= Base.len up)%Z ->
   cl_upper cl = firstn (Z.to_nat n) (map (upper_bound bigv) up)).
Proof.
  intros Hn. unfold check_limits. intros H.
  peel H as pos w1 Hpos. apply cond_val in Hpos. destruct Hpos as [Hlo ->].
  destruct pos; [apply stop_val in H; contradiction |].
  peel H as neg w2 Hneg. apply cond_val in Hneg. destruct Hneg as [Hup ->].
  destruct neg; [apply stop_val in H; contradiction |].
  peel H as lo2 w3 Hlo2. peel H as up2 w4 Hup2.
  done_ret H. cbn [cl_lower cl_upper].
  apply any_map_false in Hlo. apply any_map_false in Hup.
  destruct (to_length_cases _ _ _ _ _ _ Hn Hlo2) as [Cl Fl].
  destruct (to_length_cases _ _ _ _ _ _ Hn Hup2) as [Cu Fu].
  assert (forall A B (f : A -> B) (l : list A),
            Base.len (map f l) = Base.len l) as Elen
    by (intros; unfold Base.len; rewrite length_map; reflexivity).
  rewrite Elen in Cl, Cu, Fl, Fu.
  repeat split; try assumption.
  - revert Hlo. apply Forall_impl. intros v Hv.
    unfold R.le. unfold R.gt in Hv. rewrite Hv. reflexivity.
  - revert Hup. apply Forall_impl. intros v Hv.
    unfold R.ge. rewrite Hv. reflexivity.
Qed.

(** X15.  The limits of a call that reaches a family function admit zero: no
    lower limit is positive, no upper limit negative, none is missing. Each
    has one entry or at least [nvars]; of a longer one the first [nvars]
    entries are used (with [-Inf] and [Inf] replaced by [-big] and [big])
    and the rest is ignored. *)
Theorem limits_admit_zero a w0 e w fam fc w' :
  glmnet_entry a w0 = (Val e, w) ->
  glmnet_prepare a e fam w = (Val fc, w') ->
  let n := c_nvars fc in
  let bigv := big (ctl w0) in
  (Forall (fun v => R.le v R.zero = Some true) (lower_limits a) /\
   Forall (fun v => R.ge v R.zero = Some true) (upper_limits a)) /\
  ((Base.len (lower_limits a) = 1%Z \/ (n <= Base.len (lower_limits a))%Z) /\
   (Base.len (upper_limits a) = 1%Z \/ (n <= Base.len (upper_limits a))%Z)) /\
  ((n <= Base.len (lower_limits a))%Z ->
   cl_lower (c_cl fc)
   = firstn (Z.to_nat n) (map (lower_bound bigv) (lower_limits a))) /\
  ((n <= Base.len (upper_limits a))%Z ->
   cl_upper (c_cl fc)
   = firstn (Z.to_nat n) (map (upper_bound bigv) (upper_limits a))).
Proof.
  intros He Hp n bigv.
  apply glmnet_entry_inv in He. destruct He as (_ & Hn & _ & _ & Hs0).
  apply glmnet_prepare_inv in Hp.
  destruct Hp as (al & w1 & w2 & jp & w3 & vp & w4 & pt & w5 & cl' & w6 & w7
                  & w8 & fl & w9 & kopt & Hal & Hrows & Hex & Hvp & Htr & Hcl
                  & _ & _ & _ & _ & _ & _ & _ & Ecl & _ & _ & _ & _ & Env & _).
  pose proof (prepare_reaches_trace_step _ _ _ _ _ _ _ _ _ _ Hal Hrows Hex Hvp)
    as [Hc _].
  apply trace_step_parms in Htr.
  assert (big (fst pt) = bigv) as Ebig.
  { subst bigv. rewrite Htr, Hc. destruct Hs0 as [-> _]. reflexivity. }
  rewrite Ebig in Hcl.
  subst n. rewrite Ecl, Env.
  assert (1 <= e_nvars e)%Z as Hn1 by lia.
  apply (check_limits_inputs _ _ _ _ _ _ _ Hn1 Hcl).
Qed.

(** ** What [elnet] and [fishnet] return *)

Lemma index_length {A : Type} (na : A) (v : list A) idx r :
  R.index na v idx = Some r ->
  Forall (fun i => (0 <= i)%Z) idx /\
  r = map (fun i => nth (Z.to_nat (i - 1)) v na)
        (filter (fun i => negb (i =? 0)%Z) idx).
Proof.
  unfold R.index. destruct (existsb (fun i => (i <? 0)%Z) idx) eqn:E;
    [discriminate |].
  intros H. injection H as <-. split.
  - apply Forall_forall. intros i Hi.
    destruct (Z.ltb_spec i 0) as [Hlt | Hge]; [| exact Hge].
    exfalso. assert (existsb (fun i => (i <? 0)%Z) idx = true) as E'.
    { apply existsb_exists. exists i. split; [exact Hi |].
      apply Z.ltb_lt. exact Hlt. }
    congruence.
  - clear E. induction idx as [| i idx IH]; [reflexivity |].
    simpl. destruct (i =? 0)%Z; simpl; rewrite IH; reflexivity.
Qed.

Lemma first_lmu_spec v n w r w' :
  first_lmu v n w = (Val r, w') ->
  (0 <= n)%Z /\
  Base.len r = Z.max 1 n /\
  forall i, (i < Z.to_nat (Z.max 1 n))%nat -> nth i r NA = nth i v NA.
Proof.
  unfold first_lmu. destruct (R.index NA v (R.rseq n)) as [r' |] eqn:E;
    [| intros H; apply stop_val in H; contradiction].
  intros H. done_ret H.
  apply index_length in E. destruct E as [Hpos ->].
  unfold R.rseq in *. destruct (1 <=? n)%Z eqn:E1.
  - apply Z.leb_le in E1.
    assert (filter (fun i => negb (i =? 0)%Z) (map Z.of_nat (seq 1 (Z.to_nat n)))
            = map Z.of_nat (seq 1 (Z.to_nat n))) as Ef.
    { apply filter_all. apply Forall_forall. intros i Hi.
      apply in_map_iff in Hi. destruct Hi as (k & <- & Hk).
      apply in_seq in Hk. apply negb_true_iff, Z.eqb_neq. lia. }
    rewrite Ef, map_map. split; [lia |]. split.
    + unfold Base.len. rewrite length_map, length_seq. lia.
    + intros i Hi. replace (Z.max 1 n) with n in Hi by lia.
      rewrite (nth_indep _ NA (nth (Z.to_nat (Z.of_nat 0 - 1)) v NA))
        by (rewrite length_map, length_seq; exact Hi).
      rewrite (map_nth (fun k => nth (Z.to_nat (Z.of_nat k - 1)) v NA)).
      rewrite seq_nth by exact Hi. f_equal. lia.
  - apply Z.leb_gt in E1.
    assert (n = 0)%Z as ->.
    { destruct (Z.eq_dec n 0) as [E0 | E0]; [exact E0 | exfalso].
      assert (In (1 - Z.of_nat 2)%Z
                (map (fun k => (1 - Z.of_nat k)%Z) (seq 0 (Z.to_nat (2 - n)))))
        as Hin.
      { apply in_map_iff. exists 2%nat. split; [reflexivity |].
        apply in_seq. lia. }
      pose proof (proj1 (Forall_forall _ _) Hpos _ Hin) as Hc.
      cbv beta in Hc. lia. }
    cbn. split; [lia |]. split; [reflexivity |].
    intros i Hi. assert (i = 0)%nat as -> by lia. reflexivity.
Qed.

Lemma gaussian_mode_val tg w ka w' :
  gaussian_mode tg w = (Val ka, w') -> (ka = 1 \/ ka = 2)%Z /\ w' = w.
Proof.
  intros H. pose proof (gaussian_mode_world _ _ _ _ H) as ->.
  split; [| reflexivity]. unfold gaussian_mode in H.
  peel H as s w1 Hs. done_ret H.
  destruct (String.eqb s "covariance"); [left | right]; reflexivity.
Qed.

Section Results.

Variables elnet_exp spelnet_exp : solver_in -> solver_out.
Variable jerr_message : Z -> Z -> Z -> family -> errmsg.
Variable getcoef : solver_out -> Z -> Z -> list string -> Res coefob.

Local Abbreviation elnet_ := (elnet elnet_exp spelnet_exp jerr_message getcoef).

(** X16.  When [elnet] returns a fit, the solver was called in mode 1 or 2
    with the response less the offset, the null deviance is not zero, the
    solver's error code is zero or not fatal, and the fit holds the
    coefficients of [getcoef], the solver's passes and error code and
    [rsq[seq(lmu)]]: [lmu] is not negative and [dev.ratio] has [lmu]
    entries, but one entry when [lmu] is zero. *)
Theorem elnet_returns fc w f w' :
  elnet_ fc w = (Val f, w') ->
  exists ka,
    (ka = 1 \/ ka = 2)%Z /\
    let si := solver_args fc (Some ka) (elnet_response fc) None in
    let fit := if c_is_sparse fc then spelnet_exp si else elnet_exp si in
    R.eq (nulldev f) R.zero = Some false /\
    (jerr fit <> 0%Z ->
     fatal (jerr_message (jerr fit) (c_maxit fc) (c_nx fc) gaussian) = false) /\
    snd (getcoef fit (c_nvars fc) (c_nx fc) (c_vnames fc)) = Val (f_coef f) /\
    ((0 <= lmu fit)%Z /\
     Base.len (dev_ratio f) = Z.max 1 (lmu fit) /\
     forall i, (i < Z.to_nat (Z.max 1 (lmu fit)))%nat ->
       nth i (dev_ratio f) NA = nth i (rsq fit) NA) /\
    npasses f = nlp fit /\ f_jerr f = jerr fit /\
    f_offset f = (match c_offset fc with Some _ => true | None => false end) /\
    f_class f = ["elnet"%string].
Proof.
  unfold elnet. intros H.
  peel H as s w1 Hs. unfold elnet_setup in Hs.
  peel Hs as ka w2 Hka. apply gaussian_mode_val in Hka.
  destruct Hka as [Hka ->]. cbv zeta in Hs.
  peel Hs as ybar w3 Hyb. peel Hs as const w4 Hc.
  apply cond_val in Hc. destruct Hc as [Hz ->].
  destruct const; [apply stop_val in Hs; contradiction |].
  done_ret Hs. cbn [fst snd] in H.
  exists ka. split; [exact Hka |]. cbv zeta.
  set (fit := if c_is_sparse fc then _ else _) in *.
  unfold elnet_result in H.
  peel H as u w5 Hj. peel H as co w6 Hco. peel H as dev w7 Hdev. done_ret H.
  cbn [f_coef dev_ratio nulldev npasses f_jerr f_offset f_class].
  apply lift_val in Hco. destruct Hco as [Hco _].
  split; [exact Hz |]. split; [| split; [exact Hco | split]].
  - intros Hne. unfold report_jerr in Hj.
    apply Z.eqb_neq in Hne. rewrite Hne in Hj. cbn [negb] in Hj.
    destruct (fatal _); [apply stop_val in Hj; contradiction | reflexivity].
  - exact (first_lmu_spec _ _ _ _ _ Hdev).
  - repeat split; reflexivity.
Qed.

End Results.

Lemma mul_zero_finite v :
  if R.is_finite v then R.eq (R.mul v R.zero) R.zero = Some true
  else R.mul v R.zero = NA.
Proof.
  destruct v as [q | | |]; cbn; try reflexivity.
  f_equal. apply Qeq_bool_iff. ring.
Qed.

Lemma times_zero_entries (l : list dbl) :
  Forall2 (fun v o => if R.is_finite v then R.eq o R.zero = Some true
                      else o = NA)
    l (map (fun v => R.mul v R.zero) l).
Proof.
  induction l as [| v l IH]; [constructor |].
  simpl. constructor; [apply mul_zero_finite | exact IH].
Qed.

Section FamilyFunctions.

Variables fishnet_exp spfishnet_exp : solver_in -> solver_out.
Variable jerr_message : Z -> Z -> Z -> family -> errmsg.
Variable getcoef : solver_out -> Z -> Z -> list string -> Res coefob.

Local Abbreviation fishnet_ :=
  (fishnet fishnet_exp spfishnet_exp jerr_message getcoef).

(** X17.  When [fishnet] returns a fit, no response is negative or missing,
    the offset used was the supplied one or else zero wherever the response
    is finite, the solver's error code is zero or not fatal, and the fit
    holds the solver's null deviance, passes and error code, the
    coefficients of [getcoef] and [dev[seq(lmu)]], which has [lmu] entries,
    but one entry when [lmu] is zero. *)
Theorem fishnet_returns fc w f w' :
  fishnet_ fc w = (Val f, w') ->
  let off := match c_offset fc with
             | Some o => o
             | None => {| a_dim := a_dim (c_y fc);
                          a_data := map (fun v => R.mul v R.zero)
                                        (a_data (c_y fc)) |}
             end in
  let si := solver_args fc None (c_y fc) (Some off) in
  let fit := if c_is_sparse fc then spfishnet_exp si else fishnet_exp si in
  Forall (fun v => R.lt v R.zero = Some false) (a_data (c_y fc)) /\
  (c_offset fc = None ->
   Forall2 (fun v o => if R.is_finite v then R.eq o R.zero = Some true
                       else o = NA)
     (a_data (c_y fc)) (a_data off)) /\
  (jerr fit <> 0%Z ->
   fatal (jerr_message (jerr fit) (c_maxit fc) (c_nx fc) poisson) = false) /\
  snd (getcoef fit (c_nvars fc) (c_nx fc) (c_vnames fc)) = Val (f_coef f) /\
  ((0 <= lmu fit)%Z /\
   Base.len (dev_ratio f) = Z.max 1 (lmu fit) /\
   forall i, (i < Z.to_nat (Z.max 1 (lmu fit)))%nat ->
     nth i (dev_ratio f) NA = nth i (rsq fit) NA) /\
  nulldev f = o_nulldev fit /\ npasses f = nlp fit /\ f_jerr f = jerr fit /\
  f_offset f = (match c_offset fc with Some _ => true | None => false end) /\
  f_class f = ["fishnet"%string].
Proof.
  intros H off si fit. unfold fishnet in H.
  peel H as s w1 Hs. unfold fishnet_setup in Hs.
  peel Hs as neg w0 Hneg. apply cond_val in Hneg. destruct Hneg as [Hneg ->].
  destruct neg; [apply stop_val in Hs; contradiction |].
  apply any_map_false in Hneg.
  assert (s = (si, match c_offset fc with Some _ => true | None => false end)
          /\ w1 = w) as [-> ->].
  { subst si off. destruct (c_offset fc); apply ret_val in Hs; exact Hs. }
  cbn [fst snd] in H. fold fit in H. unfold fishnet_result in H.
  peel H as u w2 Hj. peel H as co w3 Hco. peel H as dev w4 Hdev. done_ret H.
  cbn [f_coef dev_ratio nulldev npasses f_jerr f_offset f_class].
  apply lift_val in Hco. destruct Hco as [Hco _].
  split; [exact Hneg |]. split; [| split; [| split; [exact Hco | split]]].
  - intros E. subst off. rewrite E. cbn [a_data].
    apply times_zero_entries.
  - intros Hne. unfold report_jerr in Hj.
    apply Z.eqb_neq in Hne. rewrite Hne in Hj. cbn [negb] in Hj.
    destruct (fatal _); [apply stop_val in Hj; contradiction | reflexivity].
  - exact (first_lmu_spec _ _ _ _ _ Hdev).
  - repeat split; reflexivity.
Qed.

End FamilyFunctions.

(** ** The call as a whole *)

Section WholeCall.

Variables elnet_exp spelnet_exp fishnet_exp spfishnet_exp
  : solver_in -> solver_out.
Variable jerr_message : Z -> Z -> Z -> family -> errmsg.
Variable getcoef : solver_out -> Z -> Z -> list string -> Res coefob.
Variables lognet coxnet mrelnet : fam_call -> Res famfit.
Variables glmnet_path cox_path : glmnet_args -> entry -> Res glmnet_fit.
Variable use_cox_path : design -> rarray -> bool.
Variable fix_lam : list dbl -> list dbl.
Variable relax_glmnet : glmnet_fit -> glmnet_args -> entry -> Res glmnet_fit.

Local Abbreviation glmnet_ :=
  (glmnet elnet_exp spelnet_exp fishnet_exp spfishnet_exp jerr_message
     getcoef lognet coxnet mrelnet glmnet_path cox_path use_cox_path fix_lam
     relax_glmnet).

Lemma glmnet_stops_at_dims a c0 s :
  (forall w, check_dims (x a) w = (Stop s, w)) ->
  glmnet_ a c0 = (Stop s, c0, []).
Proof.
  intros H. unfold glmnet, glmnet_body, glmnet_entry.
  rewrite (bind_stop _ _ _ _ _ (bind_stop _ _ _ _ _ (H _))).
  reflexivity.
Qed.

(** X18.  An [x] that is not a matrix with two or more columns stops the
    call at once, without a warning and with the settings untouched: with
    R's own message when [x] has no [dim] or one extent only, with the
    message of [glmnet] when the second extent is at most one. *)
Theorem malformed_x_is_rejected a c0 :
  let call :=
    glmnet elnet_exp spelnet_exp fishnet_exp spfishnet_exp jerr_message
      getcoef lognet coxnet mrelnet glmnet_path cox_path use_cox_path
      fix_lam relax_glmnet a c0 in
  (a_dim (x_val (x a)) = None ->
   call = (Stop "argument is of length zero", c0, [])) /\
  (forall n, a_dim (x_val (x a)) = Some [n] ->
   call = (Stop "missing value where TRUE/FALSE needed", c0, [])) /\
  (forall n p rest, a_dim (x_val (x a)) = Some (n :: p :: rest) ->
   (p <= 1)%Z ->
   call = (Stop "x should be a matrix with 2 or more columns", c0, [])).
Proof.
  intros call. subst call. split; [| split].
  - intros E. apply glmnet_stops_at_dims. intros w.
    unfold check_dims. rewrite E. reflexivity.
  - intros n E. apply glmnet_stops_at_dims. intros w.
    unfold check_dims. rewrite E. reflexivity.
  - intros n p rest E Hp. apply glmnet_stops_at_dims. intros w.
    unfold check_dims. rewrite E. cbn [nth_error].
    apply Z.leb_le in Hp. rewrite Hp. reflexivity.
Qed.

(** X19.  The function that computes the fit: [glmnet.path] for a family
    object; a family function for the family named, where a missing [family]
    means gaussian and a name may be abbreviated by a prefix that is not
    empty; [cox.path] for the Cox family when [use.cox.path] says so. *)
Theorem route_by_family a e w r w' :
  choose_route use_cox_path a e w = (Val r, w') ->
  w' = w /\
  match family_ a with
  | FamilyObject => r = ByGlmnetPath
  | FamilyMissing => r = ByFamily gaussian
  | FamilyName s =>
      s <> EmptyString /\
      exists nm fam,
        In nm family_names /\ String.prefix s nm = true /\
        family_of_name nm = Some fam /\
        r = if is_cox fam && use_cox_path (x a) (e_y e)
            then ByCoxPath else ByFamily fam
  end.
Proof.
  unfold choose_route. intros H.
  destruct (family_ a) as [| s |] eqn:Ef.
  - peel H as fam w1 Hm. unfold match_family in Hm.
    peel Hm as nm w2 Hnm. apply ret_val in Hnm. destruct Hnm as [-> ->].
    cbn in Hm. apply ret_val in Hm. destruct Hm as [-> ->].
    cbn in H. apply ret_val in H. destruct H as [-> ->].
    split; reflexivity.
  - peel H as fam w1 Hm. unfold match_family in Hm.
    peel Hm as nm w2 Hnm.
    pose proof (match_arg_world _ _ _ _ _ Hnm) as ->.
    apply match_arg_val in Hnm.
    pose proof (pmatch_in _ _ _ Hnm) as Hin.
    apply pmatch_prefix in Hnm. destruct Hnm as [Hne Hpre].
    destruct (family_of_name nm) as [fam' |] eqn:Efam;
      [| apply stop_val in Hm; contradiction].
    apply ret_val in Hm. destruct Hm as [-> ->].
    assert (r = (if is_cox fam' && use_cox_path (x a) (e_y e)
                 then ByCoxPath else ByFamily fam') /\ w' = w) as [-> ->].
    { destruct (is_cox fam' && use_cox_path (x a) (e_y e));
        apply ret_val in H; exact H. }
    split; [reflexivity |]. split; [exact Hne |].
    exists nm, fam'. repeat split; assumption.
  - apply ret_val in H. destruct H as [-> ->]. split; reflexivity.
Qed.

End WholeCall.

(** * The further properties at sample calls *)


Lemma encoded_response_shape_witness :
  snd (the (no_array, []) (encode_response (vector twos) world0)) = [1%Z] /\
  nrow_y (drop (fst (the (no_array, [])
                       (encode_response (vector twos) world0))))
  = Base.len twos /\
  Forall (fun v => v = R.one \/ v = R.zero \/ v = NA)
    (a_data (fst (the (no_array, [])
                    (encode_response (vector twos) world0)))).
Proof.
  destruct (encoded_response_shape (vector twos) world0
              (the (no_array, []) (encode_response (vector twos) world0))
              (snd (encode_response (vector twos) world0)))
    as (H1 & _ & _ & H2 & _ & H3).
  - reflexivity.
  - reflexivity.
  - vm_compute. reflexivity.
  - split; [exact H1 |]. split; [exact H2 | exact H3].
Defined.

Lemma vector_response_length_checked_witness :
  Base.len (a_data (y plain)) = c_nobs (call_at plain).
Proof.
  apply (vector_response_length_checked plain world0 (entry_at plain)
           (world_at plain) gaussian (call_at plain) (world_after plain)).
  - reflexivity.
  - reflexivity.
  - vm_compute. reflexivity.
  - vm_compute. reflexivity.
Defined.

Lemma penalised_well_formed :
  forall m, penalty_factor penalised = Some m -> well_formed m.
Proof.
  intros m H. injection H as <-. vm_compute. reflexivity.
Defined.

Lemma exclusions_are_supplied_or_infinite_witness :
  exists idx,
    c_jd (call_at penalised) = Base.len idx :: idx /\
    Forall (fun j => (1 <= j <= c_nvars (call_at penalised))%Z) idx /\
    forall j, In j idx <->
              In j (supplied_exclude penalised) \/
              ((1 <= j <= c_nvars (call_at penalised))%Z /\
               nth (Z.to_nat (j - 1)) (supplied_penalty penalised) NA = PInf).
Proof.
  apply (exclusions_are_supplied_or_infinite penalised world0
           (entry_at penalised) (world_at penalised) gaussian
           (call_at penalised) (world_after penalised)).
  - exact penalised_well_formed.
  - vm_compute. reflexivity.
  - vm_compute. reflexivity.
Defined.

Lemma penalty_vector_after_exclusion_witness :
  Base.len (c_vp (call_at penalised)) = c_nvars (call_at penalised) /\
  Forall (fun v => v <> PInf) (c_vp (call_at penalised)) /\
  nth 1 (c_vp (call_at penalised)) NA = Fin 2.
Proof.
  destruct (penalty_vector_after_exclusion penalised world0
              (entry_at penalised) (world_at penalised) gaussian
              (call_at penalised) (world_after penalised))
    as (H1 & H2 & _ & H4 & _).
  - exact penalised_well_formed.
  - vm_compute. reflexivity.
  - vm_compute. reflexivity.
  - split; [exact H1 |]. split; [exact H2 |].
    apply (H4 1%Z).
    + vm_compute. split; [discriminate | reflexivity].
    + vm_compute. intros [H | [H | []]]; discriminate H.
Defined.

Lemma vector_penalty_factor_rejected_witness :
  exists s w',
    glmnet_prepare vector_penalised (entry_at vector_penalised) gaussian
      (world_at vector_penalised)
    = (Stop s, w').
Proof.
  apply (vector_penalty_factor_rejected vector_penalised world0
           (entry_at vector_penalised) (world_at vector_penalised) gaussian
           (vector [R.one; R.one])).
  - reflexivity.
  - reflexivity.
  - vm_compute. reflexivity.
Defined.

Lemma limits_admit_zero_witness :
  Forall (fun v => R.ge v R.zero = Some true) (upper_limits long_limits) /\
  cl_upper (c_cl (call_at long_limits)) = [big settings0; Fin 4].
Proof.
  destruct (limits_admit_zero long_limits world0 (entry_at long_limits)
              (world_at long_limits) gaussian (call_at long_limits)
              (world_after long_limits))
    as ([_ H1] & _ & _ & H2).
  - vm_compute. reflexivity.
  - vm_compute. reflexivity.
  - split; [exact H1 |]. apply H2. vm_compute. discriminate.
Defined.


Lemma default_variable_names_witness :
  Base.len (c_vnames (call_at plain)) = c_nvars (call_at plain) /\
  NoDup (c_vnames (call_at plain)) /\
  nth 1 (c_vnames (call_at plain)) EmptyString = "V2"%string.
Proof.
  destruct (default_variable_names plain world0 (entry_at plain)
              (world_at plain) gaussian (call_at plain) (world_after plain))
    as (H1 & H2 & H3).
  - reflexivity.
  - vm_compute. reflexivity.
  - vm_compute. reflexivity.
  - split; [exact H1 |]. split; [exact H2 |].
    apply (H3 2%Z). vm_compute. split; discriminate.
Defined.

Lemma kopt_by_family_witness :
  c_kopt (call_for multinomial abbreviated) = 2%Z.
Proof.
  destruct (kopt_by_family abbreviated (entry_at abbreviated) multinomial
              (world_at abbreviated) (call_for multinomial abbreviated)
              (world_for multinomial abbreviated))
    as (_ & [_ H] & _).
  - vm_compute. reflexivity.
  - apply H. split; [reflexivity |].
    exists "gr"%string. split; [reflexivity |].
    split; [discriminate | reflexivity].
Defined.

Lemma route_by_family_witness :
  "poi"%string <> EmptyString /\
  exists nm fam,
    In nm family_names /\ String.prefix "poi" nm = true /\
    family_of_name nm = Some fam /\
    ByFamily poisson
    = if is_cox fam
         && (fun (_ : design) (_ : rarray) => false) (x abbreviated)
              (e_y (entry_at abbreviated))
      then ByCoxPath else ByFamily fam.
Proof.
  destruct (route_by_family (fun _ _ => false) abbreviated
              (entry_at abbreviated) (world_at abbreviated)
              (ByFamily poisson) (world_at abbreviated))
    as [_ H].
  - vm_compute. reflexivity.
  - exact H.
Defined.



Lemma elnet_returns_witness :
  R.eq (nulldev (the no_famfit
                   (elnet_stalled flat_call_through_origin world0))) R.zero
  = Some false /\
  Base.len (dev_ratio (the no_famfit
                         (elnet_stalled flat_call_through_origin world0)))
  = 1%Z.
Proof.
  destruct (elnet_returns (fun _ => stalled) (fun _ => stalled) jerr_by_sign
              getcoef_columns flat_call_through_origin world0
              (the no_famfit (elnet_stalled flat_call_through_origin world0))
              (snd (elnet_stalled flat_call_through_origin world0)))
    as (ka & _ & H1 & _ & _ & (_ & H2 & _) & _).
  - vm_compute. reflexivity.
  - split; [exact H1 | exact H2].
Defined.

Lemma fishnet_returns_witness :
  Forall (fun v => R.lt v R.zero = Some false) (a_data (c_y flat_call)) /\
  nulldev (the no_famfit (fishnet_sample flat_call world0)) = R.one /\
  Base.len (dev_ratio (the no_famfit (fishnet_sample flat_call world0)))
  = 3%Z.
Proof.
  destruct (fishnet_returns (grid_solver 1 (1 # 10)) (grid_solver 1 (1 # 10))
              jerr_by_sign getcoef_columns flat_call world0
              (the no_famfit (fishnet_sample flat_call world0))
              (snd (fishnet_sample flat_call world0)))
    as (H1 & _ & _ & _ & (_ & H2 & _) & H3 & _).
  - vm_compute. reflexivity.
  - split; [exact H1 |]. split; [exact H3 | exact H2].
Defined.

Lemma penalty_dims_checked_witness :
  (3 = 3 /\ 2 = e_nvars (entry_at two_responses))%Z.
Proof.
  destruct (penalty_dims_checked two_responses world0
              (entry_at two_responses) (world_at two_responses)
              (matrix 2 3 [R.one; R.one; R.one; R.one; R.one; R.one])
              2%Z 3%Z)
    as (_ & _ & _ & H).
  - reflexivity.
  - reflexivity.
  - vm_compute. reflexivity.
  - apply (H 3%Z 2%Z). reflexivity.
Defined.

Lemma family_runs_with_fdev_zero_witness :
  ctl (world_after pinned) = set_fdev R.zero (ctl (world_at pinned)) \/
  ctl (world_after pinned)
  = set_fdev R.zero (set_itrace 1 (ctl (world_at pinned))).
Proof.
  apply (family_runs_with_fdev_zero pinned (entry_at pinned) gaussian
           (world_at pinned) (call_at pinned) (world_after pinned)).
  - vm_compute. reflexivity.
  - vm_compute. reflexivity.
  - vm_compute. reflexivity.
Defined.
